(** * Piano Flow: phrase generation, score encoding and playback session

    Shallow embedding of [music_practice/src/components/PianoKeyboard.vue]
    (the practice page with the score, the 88-key keyboard and the playback
    loop) and verification of the properties its specification states.

    Numbers.  A JavaScript [number] is an IEEE 754 binary64 value.  Onset
    times, durations and the progress ratio are computed with rounding, and
    the encoder compares them with [===], [>=] and [<]; they are modelled
    bit-exactly with the executable specification of binary64 arithmetic of
    the standard library ([SpecFloat], precision 53, [emax] 1024).  MIDI
    pitches, beat indices, tempi and [Date.now()] milliseconds are integers
    far below 2^53, on which binary64 arithmetic is exact: they are [Z].

    Randomness.  A draw of [Math.random()] is a rational in [0,1), read from
    a stream the session carries, and [randomInt] takes the product with the
    width of the range exactly.  The rounded product of JavaScript can land
    on the next integer, never outside the range (see
    [largest_draw_below_width]), so both computations reach exactly the
    pitches of the range.

    Effects.  The component is a state machine over [Session]: the refs and
    module variables of the source, the browser's table of pending timeouts,
    and the log of calls to the sampler.  Each event-loop task is one
    [Event]; [startPlayback], which is [async], runs in two of them, split
    at its [await], and the [ensureAudio()] that [onMounted] calls creates
    the sampler in a task of its own, after its [await Tone.start()].  The
    watcher on the four parameters runs when a write gave one of them a new
    value.
    The browser may fire any pending timeout at any time: the model does not
    order timeouts by delay, which only adds behaviours.

    The score document is modelled as the tree of its [<measure>] and
    [<note>] elements rather than as the text the template is filled to:
    measure 0, which holds the tempo and no note, and the measures 1 to 4. *)

From Stdlib Require Import ZArith QArith Qround Lia List Bool.
From Stdlib Require Import Floats.SpecFloat.
From Stdlib Require Import Sorted Permutation.
From Stdlib Require String DecimalString.
From stdpp Require Import gmap list fin_maps.

Open Scope Z_scope.

(** ** Binary64 arithmetic *)

Module F64.

Definition prec : Z := 53.
Definition emax : Z := 1024.

Definition float : Type := spec_float.

(** Conversion of an integer (exact below 2^53, rounded above). *)
Definition ofZ (n : Z) : float := binary_normalize prec emax n 0 false.

Definition add : float -> float -> float := SFadd prec emax.
Definition sub : float -> float -> float := SFsub prec emax.
Definition mul : float -> float -> float := SFmul prec emax.
Definition div : float -> float -> float := SFdiv prec emax.

(** The comparisons of JavaScript: all false on NaN. *)
Definition eqb (x y : float) : bool := SFeqb x y.
Definition ltb (x y : float) : bool := SFltb x y.
Definition leb (x y : float) : bool := SFleb x y.
Definition gtb (x y : float) : bool :=
  match SFcompare x y with Some Gt => true | _ => false end.
Definition geb (x y : float) : bool :=
  match SFcompare x y with Some (Gt | Eq) => true | _ => false end.

(** A decimal literal [n/d] denotes the binary64 nearest to it, which is
    what the correctly rounded quotient of the two integers is. *)
Definition ofDecimal (n d : Z) : float := div (ofZ n) (ofZ d).

Definition zero : float := S754_zero false.
Definition one : float := ofZ 1.

(** A value is well formed when it is in canonical binary64 form. *)
Definition valid (x : float) : bool := valid_binary prec emax x.

End F64.

Declare Scope f64_scope.
Delimit Scope f64_scope with f64.
Bind Scope f64_scope with F64.float.
Infix "+" := F64.add : f64_scope.
Infix "-" := F64.sub : f64_scope.
Infix "*" := F64.mul : f64_scope.
Infix "/" := F64.div : f64_scope.
Infix "=?" := F64.eqb : f64_scope.
Infix "<?" := F64.ltb : f64_scope.
Infix "<=?" := F64.leb : f64_scope.
Infix ">?" := F64.gtb : f64_scope.
Infix ">=?" := F64.geb : f64_scope.

(** ** Data model *)

Inductive Mode := C_MAJOR | G_MAJOR | A_MINOR.

(** [type Difficulty = 1 | 2 | 3]. *)
Inductive Difficulty := D1 | D2 | D3.

Definition difficultyValue (d : Difficulty) : Z :=
  match d with D1 => 1 | D2 => 2 | D3 => 3 end.

Inductive Staff := treble | bass.

Definition Staff_eqb (a b : Staff) : bool :=
  match a, b with
  | treble, treble | bass, bass => true
  | _, _ => false
  end.

(** [const meters = ['4/4'] as const]: the only meter there is. *)
Inductive Meter := Meter_4_4.

(** [Number(selectedMeter.value.split('/')[0])]. *)
Definition beatsPerBarOf (m : Meter) : Z :=
  match m with Meter_4_4 => 4 end.

Definition tempos : list Z := [60; 80; 100; 120; 140].

Record NoteEvent := mkNoteEvent {
  time : F64.float;
  duration : F64.float;
  midi : Z;
  staff : Staff;
  isChord : bool
}.

Definition phraseLengthBars : Z := 4.

(** ** Pitch utilities *)

(** [midi % 12] is the remainder of JavaScript: it has the sign of [midi]. *)
Definition pitchClass (m : Z) : Z := Z.rem m 12.

Definition isBlack (m : Z) : bool :=
  existsb (Z.eqb (pitchClass m)) [1; 3; 6; 8; 10].

Inductive Step := StepC | StepD | StepE | StepF | StepG | StepA | StepB.

(** The table [names], each name split into its letter and whether it
    carries a sharp. *)
Definition names : list (Step * bool) :=
  [ (StepC, false); (StepC, true); (StepD, false); (StepD, true);
    (StepE, false); (StepF, false); (StepF, true); (StepG, false);
    (StepG, true); (StepA, false); (StepA, true); (StepB, false) ].

Record XmlPitch := mkXmlPitch {
  step : Step;
  alter : Z;
  octave : Z
}.

(** [names[pc]] is [undefined] for a negative pitch class, and [name[0]]
    then throws: [None]. *)
Definition midiToXmlPitch (m : Z) : option XmlPitch :=
  let pc := pitchClass m in
  let oct := m / 12 - 1 in
  if pc <? 0 then None
  else
    match nth_error names (Z.to_nat pc) with
    | Some (st, sharp) =>
        Some (mkXmlPitch st (if sharp then 1 else 0) oct)
    | None => None
    end.

(** ** The random source *)

(** [Math.random()] read [pos] times so far; [draws n] is the value the
    [n]-th call returns. *)
Record Rng := mkRng {
  draws : nat -> Q;
  pos : nat
}.

Definition randomNext (g : Rng) : Rng := mkRng (draws g) (S (pos g)).

Definition randomValue (g : Rng) : Q := draws g (pos g).

(** Every draw lies in [0,1). *)
Definition unitDraws (g : Rng) : Prop :=
  forall n : nat, (0 <= draws g n)%Q /\ (draws g n < 1)%Q.

(** [Math.floor(Math.random() * (max - min + 1)) + min]. *)
Definition randomInt (min max : Z) (g : Rng) : Z * Rng :=
  (Qfloor (randomValue g * inject_Z (max - min + 1)) + min, randomNext g).

(** ** Phrase generator *)

Record MidiRange := mkMidiRange { rangeMin : Z; rangeMax : Z }.

Definition getScaleMidiRange (mode : Mode) (s : Staff) : MidiRange :=
  match s with
  | treble => mkMidiRange 60 84
  | bass => mkMidiRange 36 60
  end.

Definition triads : list Z := [48; 53; 55].

(** The body of the scan: [diff] is [None] while it is [Infinity]. *)
Definition snapStep (m : Z) (acc : Z * option Z) (t : Z) : Z * option Z :=
  let d := Z.abs (t - m) in
  match snd acc with
  | None => (t, Some d)
  | Some diff => if d <? diff then (t, Some d) else acc
  end.

Definition snapToTriad (m : Z) (mode : Mode) : Z :=
  fst (fold_left (snapStep m) triads (nth 0 triads 0, None)).

Definition buildChord (root : Z) (diff : Difficulty) : list Z :=
  let third := root + 4 in
  let fifth := root + 7 in
  let chord := [root; third; fifth] in
  let chord := if difficultyValue diff >=? 2 then chord ++ [root - 12] else chord in
  let chord := if difficultyValue diff >=? 3 then chord ++ [root + 11] else chord in
  chord.

Definition secondsPerBeatOf (bpm : Z) : F64.float :=
  (F64.ofZ 60 / F64.ofZ bpm)%f64.

(** One turn of the loop over [beatIndex]. *)
Definition phraseBeat (mode : Mode) (diff : Difficulty) (beatsPerBar : Z)
    (secondsPerBeat : F64.float)
    (acc : list NoteEvent * Rng) (beatIndex : Z) : list NoteEvent * Rng :=
  let events := fst acc in
  let g := snd acc in
  let beatInBar := Z.rem beatIndex beatsPerBar in
  let t := (F64.ofZ beatIndex * secondsPerBeat)%f64 in
  let tr := getScaleMidiRange mode treble in
  let drawT := randomInt (rangeMin tr) (rangeMax tr) g in
  let trebleMidi := fst drawT in
  let events :=
    events ++ [mkNoteEvent t (secondsPerBeat * F64.ofDecimal 9 10)%f64
                 trebleMidi treble false] in
  if beatInBar =? 0 then
    let br := getScaleMidiRange mode bass in
    let drawB := randomInt (rangeMin br) (rangeMax br) (snd drawT) in
    let root := snapToTriad (fst drawB) mode in
    let chordNotes := buildChord root diff in
    (events ++
       map (fun m => mkNoteEvent t (secondsPerBeat * F64.ofZ beatsPerBar)%f64
                       m bass true) chordNotes,
     snd drawB)
  else (events, snd drawT).

(** The events [generatePhrase] stores in [noteEvents], and the random
    source after the draws. *)
Definition generateEvents (mode : Mode) (meter : Meter) (bpm : Z)
    (diff : Difficulty) (g : Rng) : list NoteEvent * Rng :=
  let beatsPerBar := beatsPerBarOf meter in
  let secondsPerBeat := secondsPerBeatOf bpm in
  let totalBeats := beatsPerBar * phraseLengthBars in
  fold_left (phraseBeat mode diff beatsPerBar secondsPerBeat)
    (seqZ 0 totalBeats) ([], g).

(** ** Score encoder *)

(** [Array.prototype.sort] with a comparator is a stable sort: [x] goes
    before the first element the comparator puts after it.  [after y x]
    says that the comparator is positive on [(y, x)]. *)
Section StableSort.
Context {A : Type} (after : A -> A -> bool).

Fixpoint insertSorted (x : A) (l : list A) : list A :=
  match l with
  | [] => [x]
  | y :: l' => if after y x then x :: y :: l' else y :: insertSorted x l'
  end.

Definition sortBy (l : list A) : list A :=
  fold_left (fun acc x => insertSorted x acc) l [].
End StableSort.

(** [(a, b) => a.time - b.time] is positive. *)
Definition laterThan (a b : NoteEvent) : bool :=
  (time a - time b >? F64.zero)%f64.

(** [(a, b) => a - b] is positive. *)
Definition higherThan (a b : Z) : bool := a - b >? 0.

Inductive NoteType := quarter | eighth.
Inductive Beam := beamBegin | beamContinue | beamEnd.

(** One [<note>] element of the score document: [notePitch] is [None] for
    [<rest/>], [noteBeam] is [None] when the element has no [<beam>]. *)
Record XmlNote := mkXmlNote {
  notePitch : option XmlPitch;
  noteDuration : Z;
  noteVoice : Z;
  noteType : NoteType;
  noteBeam : option Beam;
  noteStaff : Z
}.

(** [<measure number="0">] of the template: its [<divisions>] and the
    metronome mark, whose [<per-minute>] is the [TEMPO] slot.  It has no
    [<note>]. *)
Record TempoMeasure := mkTempoMeasure {
  tempoNumber : Z;
  tempoDivisions : Z;
  perMinute : Z
}.

(** One of the [<measure>] elements 1 to 4 of the template: its [number],
    the four [T_Mi_Bj] slots and the [B_Mi_GROUP] slot.  (The
    [<attributes>] of measure 1 are fixed text: 4 divisions, no sharps or
    flats, 4/4, two staves with a G and an F clef.) *)
Record Measure := mkMeasure {
  measureNumber : Z;
  trebleSlots : list XmlNote;
  bassGroup : list XmlNote
}.

(** The [<part>] of the document: measure 0, then the measures the phrase
    fills. *)
Record ScoreDocument := mkScoreDocument {
  docLead : TempoMeasure;
  docMeasures : list Measure
}.

Definition docTempo (doc : ScoreDocument) : Z := perMinute (docLead doc).

(** The [<note>] elements of the [<measure>] elements of the document, in
    document order, each list with the [number] of its measure. *)
Definition measureElements (doc : ScoreDocument) : list (Z * list XmlNote) :=
  (tempoNumber (docLead doc), [])
  :: map (fun ms => (measureNumber ms, trebleSlots ms ++ bassGroup ms))
       (docMeasures doc).

(** JavaScript truthiness of [pitches[i]]: [undefined] and [0] are falsy. *)
Definition truthy (p : option Z) : bool :=
  match p with
  | Some v => negb (v =? 0)
  | None => false
  end.

Section Encoder.
(** [noteEvents.value] and [bpm.value] at the time of the call. *)
Variable noteEvents : list NoteEvent.
Variable bpm : Z.

(** The constants of [buildMusicXmlFromPhrase]. *)
Definition secPerBeat : F64.float := (F64.ofZ 60 / F64.ofZ bpm)%f64.
Definition encBeatsPerBar : Z := 4.
Definition divisions : Z := 4.

Definition trebleEvents : list NoteEvent :=
  sortBy laterThan (List.filter (fun n => Staff_eqb (staff n) treble) noteEvents).

Definition bassChordStarts : list NoteEvent :=
  sortBy laterThan (List.filter (fun n => Staff_eqb (staff n) bass) noteEvents).

Definition measureStartOf (bar : Z) : F64.float :=
  (F64.ofZ ((bar - 1) * encBeatsPerBar) * secPerBeat)%f64.

Definition beatStartOf (bar beat : Z) : F64.float :=
  (measureStartOf bar + F64.ofZ (beat - 1) * secPerBeat)%f64.

Definition beatEndOf (bar beat : Z) : F64.float :=
  (beatStartOf bar beat + secPerBeat)%f64.

(** The predicate of [trebleEvents.find]. *)
Definition inBeatWindow (bar beat : Z) (e : NoteEvent) : bool :=
  (time e >=? beatStartOf bar beat)%f64 && (time e <? beatEndOf bar beat)%f64.

(** The [<note>] with [<rest/>] of an empty treble slot. *)
Definition restQuarter : XmlNote :=
  mkXmlNote None divisions 1 quarter None 1.

(** [None] when [midiToXmlPitch] throws. *)
Definition buildTrebleBeatNote (bar beat : Z) : option XmlNote :=
  match List.find (inBeatWindow bar beat) trebleEvents with
  | None => Some restQuarter
  | Some ev =>
      match midiToXmlPitch (midi ev) with
      | Some p => Some (mkXmlNote (Some p) divisions 1 quarter None 1)
      | None => None
      end
  end.

(** One of the four rests of an empty bass group. *)
Definition restEighth : XmlNote :=
  mkXmlNote None (divisions / 2) 1 eighth None 2.

(** [chordEvents] of [buildBassGroup]. *)
Definition chordEventsOf (bar : Z) : list NoteEvent :=
  List.filter (fun e => (time e =? measureStartOf bar)%f64) bassChordStarts.

(** [pattern] of [buildBassGroup], from the sorted [pitches]. *)
Definition bassPattern (pitches : list Z) : list Z :=
  match pitches with
  | [] => []
  | p0 :: _ =>
      [p0]
      ++ (if truthy (nth_error pitches 1) then [nth 1 pitches 0] else [])
      ++ (if truthy (nth_error pitches 2) then [nth 2 pitches 0] else [])
      ++ [p0]
  end.

Definition beamTagOf (len : nat) (idx : nat) : Beam :=
  if Nat.eqb idx 0 then beamBegin
  else if Nat.eqb idx (len - 1) then beamEnd
  else beamContinue.

(** The callback of [pattern.forEach], one [<note>] per entry. *)
Definition bassNote (len : nat) (idx : nat) (m : Z) : option XmlNote :=
  match midiToXmlPitch m with
  | Some p =>
      Some (mkXmlNote (Some p) (divisions / 2) 1 eighth
              (Some (beamTagOf len idx)) 2)
  | None => None
  end.

(** [pattern.forEach] from index [idx] on. *)
Fixpoint bassNotesFrom (len : nat) (idx : nat) (pattern : list Z)
    : option (list XmlNote) :=
  match pattern with
  | [] => Some []
  | m :: rest =>
      match bassNote len idx m with
      | Some n =>
          match bassNotesFrom len (S idx) rest with
          | Some ns => Some (n :: ns)
          | None => None
          end
      | None => None
      end
  end.

Definition buildBassGroup (bar : Z) : option (list XmlNote) :=
  let chordEvents := chordEventsOf bar in
  if Nat.eqb (length chordEvents) 0 then
    Some (fold_left (fun restXml _ => restXml ++ [restEighth]) (seqZ 0 4) [])
  else
    let pitches := sortBy higherThan (map midi chordEvents) in
    let pattern := bassPattern pitches in
    bassNotesFrom (length pattern) 0 pattern.

(** The results of a sequence of calls; an exception in one of them
    ([None]) is the exception of the whole. *)
Fixpoint collect {B : Type} (l : list (option B)) : option (list B) :=
  match l with
  | [] => Some []
  | Some x :: l' =>
      match collect l' with
      | Some xs => Some (x :: xs)
      | None => None
      end
  | None :: _ => None
  end.

(** The five slots of measure [bar]. *)
Definition buildMeasure (bar : Z) : option Measure :=
  match collect (map (buildTrebleBeatNote bar) [1; 2; 3; 4]) with
  | Some slots =>
      match buildBassGroup bar with
      | Some group => Some (mkMeasure bar slots group)
      | None => None
      end
  | None => None
  end.

(** The filled template: measure 0 with the tempo, then measures 1 to 4
    with their slots. *)
Definition buildMusicXmlFromPhrase : option ScoreDocument :=
  match collect (map buildMeasure [1; 2; 3; 4]) with
  | Some ms => Some (mkScoreDocument (mkTempoMeasure 0 4 bpm) ms)
  | None => None
  end.
End Encoder.

(** ** The session: component state, timers and the audio backend *)

(** What a pending [window.setTimeout] runs when it fires: the note
    trigger of one event (the closure holds [ev]) or the loop restart. *)
Inductive Callback :=
| NoteTrigger (ev : NoteEvent)
| LoopRestart.

Record Timer := mkTimer {
  timerDelayMs : F64.float;
  timerCallback : Callback
}.

(** One call of [pianoSampler.triggerAttackRelease]; [callCause] records the
    timer whose callback made it ([None] for a key preview). *)
Record AudioCall := mkAudioCall {
  callCause : option nat;
  callMidi : Z;
  callDuration : F64.float
}.

Record Session := mkSession {
  (* the refs of the component *)
  selectedMode : Mode;
  selectedMeter : Meter;
  bpm : Z;
  difficulty : Difficulty;
  noteEvents : list NoteEvent;
  phraseStart : Z;
  isPlaying : bool;
  activeMidiSet : gset Z;
  progress : F64.float;
  (* module state *)
  pianoSampler : bool;            (* [pianoSampler !== null] *)
  samplerLoaded : bool;
  playbackTimers : list nat;
  (* the environment *)
  rng : Rng;
  timers : gmap nat Timer;        (* timeouts pending in the browser *)
  nextTimerId : nat;
  pendingStarts : nat;            (* [startPlayback] calls waiting at [await] *)
  audioLog : list AudioCall       (* backend calls so far, oldest first *)
}.

Definition setParams (mo : Mode) (me : Meter) (b : Z) (d : Difficulty)
    (st : Session) : Session :=
  mkSession mo me b d (noteEvents st) (phraseStart st) (isPlaying st)
    (activeMidiSet st) (progress st) (pianoSampler st) (samplerLoaded st)
    (playbackTimers st) (rng st) (timers st) (nextTimerId st)
    (pendingStarts st) (audioLog st).

Definition setPhrase (evs : list NoteEvent) (g : Rng) (st : Session) : Session :=
  mkSession (selectedMode st) (selectedMeter st) (bpm st) (difficulty st)
    evs (phraseStart st) (isPlaying st)
    (activeMidiSet st) (progress st) (pianoSampler st) (samplerLoaded st)
    (playbackTimers st) g (timers st) (nextTimerId st)
    (pendingStarts st) (audioLog st).

Definition setPlayback (start : Z) (playing : bool) (st : Session) : Session :=
  mkSession (selectedMode st) (selectedMeter st) (bpm st) (difficulty st)
    (noteEvents st) start playing
    (activeMidiSet st) (progress st) (pianoSampler st) (samplerLoaded st)
    (playbackTimers st) (rng st) (timers st) (nextTimerId st)
    (pendingStarts st) (audioLog st).

Definition setActive (s : gset Z) (st : Session) : Session :=
  mkSession (selectedMode st) (selectedMeter st) (bpm st) (difficulty st)
    (noteEvents st) (phraseStart st) (isPlaying st)
    s (progress st) (pianoSampler st) (samplerLoaded st)
    (playbackTimers st) (rng st) (timers st) (nextTimerId st)
    (pendingStarts st) (audioLog st).

Definition setProgress (p : F64.float) (st : Session) : Session :=
  mkSession (selectedMode st) (selectedMeter st) (bpm st) (difficulty st)
    (noteEvents st) (phraseStart st) (isPlaying st)
    (activeMidiSet st) p (pianoSampler st) (samplerLoaded st)
    (playbackTimers st) (rng st) (timers st) (nextTimerId st)
    (pendingStarts st) (audioLog st).

Definition setAudio (sampler loaded : bool) (st : Session) : Session :=
  mkSession (selectedMode st) (selectedMeter st) (bpm st) (difficulty st)
    (noteEvents st) (phraseStart st) (isPlaying st)
    (activeMidiSet st) (progress st) sampler loaded
    (playbackTimers st) (rng st) (timers st) (nextTimerId st)
    (pendingStarts st) (audioLog st).

Definition setTimers (ids : list nat) (ts : gmap nat Timer) (next : nat)
    (st : Session) : Session :=
  mkSession (selectedMode st) (selectedMeter st) (bpm st) (difficulty st)
    (noteEvents st) (phraseStart st) (isPlaying st)
    (activeMidiSet st) (progress st) (pianoSampler st) (samplerLoaded st)
    ids (rng st) ts next
    (pendingStarts st) (audioLog st).

Definition setPendingStarts (n : nat) (st : Session) : Session :=
  mkSession (selectedMode st) (selectedMeter st) (bpm st) (difficulty st)
    (noteEvents st) (phraseStart st) (isPlaying st)
    (activeMidiSet st) (progress st) (pianoSampler st) (samplerLoaded st)
    (playbackTimers st) (rng st) (timers st) (nextTimerId st)
    n (audioLog st).

Definition logAudio (c : AudioCall) (st : Session) : Session :=
  mkSession (selectedMode st) (selectedMeter st) (bpm st) (difficulty st)
    (noteEvents st) (phraseStart st) (isPlaying st)
    (activeMidiSet st) (progress st) (pianoSampler st) (samplerLoaded st)
    (playbackTimers st) (rng st) (timers st) (nextTimerId st)
    (pendingStarts st) (audioLog st ++ [c]).

(** [phraseDuration]: the computed ref. *)
Definition phraseDuration (st : Session) : F64.float :=
  let beatsPerBar := beatsPerBarOf (selectedMeter st) in
  let secondsPerBeat := secondsPerBeatOf (bpm st) in
  (F64.ofZ beatsPerBar * secondsPerBeat * F64.ofZ phraseLengthBars)%f64.

(** The part of [ensureAudio] after [await Tone.start()]: the sampler is
    created when there is none; its samples load later ([samplerOnload]).
    The tempo written to the Tone transport is not part of the session. *)
Definition ensureAudio (st : Session) : Session :=
  if pianoSampler st then st else setAudio true (samplerLoaded st) st.

(** The [onload] callback of the sampler. *)
Definition samplerOnload (st : Session) : Session :=
  if pianoSampler st then setAudio true true st else st.

Definition backendReady (st : Session) : bool :=
  pianoSampler st && samplerLoaded st.

Definition playMidiOnce (m : Z) (st : Session) : Session :=
  let st := ensureAudio st in
  if negb (pianoSampler st) || negb (samplerLoaded st) then st
  else logAudio (mkAudioCall None m (F64.ofDecimal 6 10)) st.

(** [(Date.now() - phraseStart.value) / 1000]. *)
Definition elapsedAt (now : Z) (st : Session) : F64.float :=
  (F64.ofZ (now - phraseStart st) / F64.ofZ 1000)%f64.

(** The test of the [forEach] of [updateActiveNotes]. *)
Definition sounding (elapsed : F64.float) (ev : NoteEvent) : bool :=
  (elapsed >=? time ev)%f64 && (elapsed <=? time ev + duration ev)%f64.

Definition activeNotesAt (elapsed : F64.float) (evs : list NoteEvent) : gset Z :=
  fold_left (fun set ev => if sounding elapsed ev then {[midi ev]} ∪ set else set)
    evs ∅.

Definition updateActiveNotes (now : Z) (st : Session) : Session :=
  if negb (isPlaying st) then setActive ∅ st
  else setActive (activeNotesAt (elapsedAt now st) (noteEvents st)) st.

(** [generatePhrase] stores the events; the rendering it requests with
    [nextTick] reads the session and does not change it. *)
Definition generatePhrase (st : Session) : Session :=
  let r := generateEvents (selectedMode st) (selectedMeter st) (bpm st)
             (difficulty st) (rng st) in
  setPhrase (fst r) (snd r) st.

Definition clearPlayback (st : Session) : Session :=
  setTimers [] (fold_left (fun ts id => delete id ts) (playbackTimers st) (timers st))
    (nextTimerId st) st.

(** [window.setTimeout(cb, delay)] followed by [playbackTimers.push(id)]. *)
Definition scheduleTimer (delay : F64.float) (cb : Callback) (st : Session)
    : Session :=
  let id := nextTimerId st in
  setTimers (playbackTimers st ++ [id]) (<[id := mkTimer delay cb]> (timers st))
    (S id) st.

(** The body of [startPlayback] after [await ensureAudio()], run when
    [Date.now()] is [now]. *)
Definition startPlayback (now : Z) (st : Session) : Session :=
  let st := ensureAudio st in
  if negb (pianoSampler st) || negb (samplerLoaded st) then st
  else
    let st := clearPlayback st in
    let st := setPlayback now true st in
    let st :=
      fold_left
        (fun st ev =>
           scheduleTimer (time ev * F64.ofZ 1000)%f64 (NoteTrigger ev) st)
        (noteEvents st) st in
    let totalMs := (phraseDuration st * F64.ofZ 1000)%f64 in
    scheduleTimer (totalMs + F64.ofZ 50)%f64 LoopRestart st.

Definition stopPlayback (st : Session) : Session :=
  clearPlayback (setPlayback (phraseStart st) false st).

(** The browser fires the pending timer [id] and runs its callback.  The
    loop callback calls [generatePhrase] and then [startPlayback], which
    suspends at its [await]. *)
Definition fireTimer (id : nat) (st : Session) : Session :=
  match timers st !! id with
  | None => st
  | Some t =>
      let st := setTimers (playbackTimers st) (delete id (timers st))
                  (nextTimerId st) st in
      match timerCallback t with
      | NoteTrigger ev =>
          if negb (pianoSampler st) || negb (samplerLoaded st)
             || negb (isPlaying st)
          then st
          else logAudio (mkAudioCall (Some id) (midi ev) (duration ev)) st
      | LoopRestart =>
          if negb (isPlaying st) then st
          else
            let st := generatePhrase st in
            setPendingStarts (S (pendingStarts st)) st
      end
  end.

(** [updateProgress]. *)
Definition updateProgress (now : Z) (st : Session) : Session :=
  if negb (isPlaying st) then setProgress F64.zero st
  else
    let elapsed := elapsedAt now st in
    let p := (elapsed / phraseDuration st)%f64 in
    let p := if (p >? F64.one)%f64 then F64.one else p in
    setProgress p st.

(** A write to one of the four parameter refs by its [<select>]. *)
Inductive ParamChange :=
| SetMode (m : Mode)
| SetMeter (m : Meter)
| SetBpm (b : Z)
| SetDifficulty (d : Difficulty).

Definition applyParam (c : ParamChange) (st : Session) : Session :=
  match c with
  | SetMode m => setParams m (selectedMeter st) (bpm st) (difficulty st) st
  | SetMeter m => setParams (selectedMode st) m (bpm st) (difficulty st) st
  | SetBpm b => setParams (selectedMode st) (selectedMeter st) b (difficulty st) st
  | SetDifficulty d => setParams (selectedMode st) (selectedMeter st) (bpm st) d st
  end.

(** The callback of [watch([bpm, selectedMeter, selectedMode, difficulty])]. *)
Definition onParamsChanged (st : Session) : Session :=
  generatePhrase st.

Definition Mode_eqb (a b : Mode) : bool :=
  match a, b with
  | C_MAJOR, C_MAJOR | G_MAJOR, G_MAJOR | A_MINOR, A_MINOR => true
  | _, _ => false
  end.

Definition Meter_eqb (a b : Meter) : bool :=
  match a, b with Meter_4_4, Meter_4_4 => true end.

Definition Difficulty_eqb (a b : Difficulty) : bool :=
  match a, b with
  | D1, D1 | D2, D2 | D3, D3 => true
  | _, _ => false
  end.

(** A write to a ref triggers its watchers only when the value written
    differs from the value the ref holds. *)
Definition changesValue (c : ParamChange) (st : Session) : bool :=
  match c with
  | SetMode m => negb (Mode_eqb m (selectedMode st))
  | SetMeter m => negb (Meter_eqb m (selectedMeter st))
  | SetBpm b => negb (b =? bpm st)
  | SetDifficulty d => negb (Difficulty_eqb d (difficulty st))
  end.

(** The parameter-change event: the write, then the watcher when the
    write changed the value. *)
Definition paramChange (c : ParamChange) (st : Session) : Session :=
  let written := applyParam c st in
  if changesValue c st then onParamsChanged written else written.

(** What can happen to the component, one event-loop task at a time. *)
Inductive Event :=
| AudioEnsured                     (* the [ensureAudio()] of [onMounted] continues
                                      after its [await Tone.start()] *)
| StartCalled                      (* [startPlayback()] is called and waits *)
| StartResumed (now : Z)           (* its [await] returns *)
| StopCalled                       (* [stopPlayback()] *)
| SamplerLoadedEv                  (* the sampler's [onload] *)
| TimerFired (id : nat)
| ParamChanged (c : ParamChange)
| Frame (now : Z)                  (* an animation frame: the pollers *)
| KeyDown (m : Z).                 (* a key of the on-screen keyboard *)

Definition sessionStep (st : Session) (e : Event) : Session :=
  match e with
  | AudioEnsured => ensureAudio st
  | StartCalled => setPendingStarts (S (pendingStarts st)) st
  | StartResumed now =>
      match pendingStarts st with
      | O => st
      | S n => startPlayback now (setPendingStarts n st)
      end
  | StopCalled => stopPlayback st
  | SamplerLoadedEv => samplerOnload st
  | TimerFired id => fireTimer id st
  | ParamChanged c => paramChange c st
  | Frame now =>
      (* [updateActiveNotes] polls from [onMounted] on; [updateProgress]
         polls while playing: the watcher on [isPlaying] starts and
         cancels it. *)
      let st1 := updateActiveNotes now st in
      if isPlaying st then updateProgress now st1 else st1
  | KeyDown m => playMidiOnce m st
  end.

Definition run (st : Session) (tr : list Event) : Session :=
  fold_left sessionStep tr st.

(** The component when it is set up, before [onMounted]. *)
Definition initialSession (g : Rng) : Session :=
  mkSession C_MAJOR Meter_4_4 100 D1 [] 0 false ∅ F64.zero
    false false [] g ∅ 0%nat 0%nat [].

(** [onMounted]: [ensureAudio()] is called and waits at its
    [await Tone.start()], so that no sampler exists yet ([AudioEnsured] is
    its continuation); [generatePhrase()] runs at once. *)
Definition mountedSession (g : Rng) : Session :=
  generatePhrase (initialSession g).

Definition reachable (st : Session) : Prop :=
  exists (g : Rng) (tr : list Event), st = run (mountedSession g) tr.

(** * Vocabulary of the statements *)

(** ** Generated phrases *)

(** The treble event of beat [k] with pitch [p], and the chord events of
    the bar that beat [k] opens. *)
Definition trebleEventAt (spb : F64.float) (k p : Z) : NoteEvent :=
  mkNoteEvent (F64.ofZ k * spb)%f64 (spb * F64.ofDecimal 9 10)%f64 p treble false.

Definition chordEventsAt (spb : F64.float) (bpb k root : Z) (diff : Difficulty)
    : list NoteEvent :=
  map (fun m => mkNoteEvent (F64.ofZ k * spb)%f64 (spb * F64.ofZ bpb)%f64 m bass true)
    (buildChord root diff).

(** [p] is what [randomInt lo hi] returns on one of the draws of [d]. *)
Definition drawnFrom (d : nat -> Q) (lo hi p : Z) : Prop :=
  exists n : nat, p = Qfloor (d n * inject_Z (hi - lo + 1)) + lo.

(** The events one beat contributes: its treble event, and on the first
    beat of a bar the chord on a snapped root. *)
Inductive BeatShape (d : nat -> Q) (diff : Difficulty) (bpb : Z)
    (spb : F64.float) (k : Z) : list NoteEvent -> Prop :=
| beat_inner (p : Z) :
    Z.rem k bpb <> 0 ->
    drawnFrom d 60 84 p ->
    BeatShape d diff bpb spb k [trebleEventAt spb k p]
| beat_first (p root : Z) :
    Z.rem k bpb = 0 ->
    drawnFrom d 60 84 p ->
    In root triads ->
    BeatShape d diff bpb spb k
      (trebleEventAt spb k p :: chordEventsAt spb bpb k root diff).

(** The values of [beatIndex] in the loop of [generatePhrase], and the bars
    counted from 0. *)
Definition beatIndices : list Z :=
  [0; 1; 2; 3; 4; 5; 6; 7; 8; 9; 10; 11; 12; 13; 14; 15].

(** A random source for the examples: the draws cycle through the
    sevenths 0/7, 1/7, ..., 6/7. *)
Definition sevenths : Rng :=
  mkRng (fun n => (Z.of_nat (n mod 7) # 7)%Q) 0.

(** [n.staff === 'treble'], [n.staff === 'bass']. *)
Definition isTreble (e : NoteEvent) : bool := Staff_eqb (staff e) treble.
Definition isBass (e : NoteEvent) : bool := Staff_eqb (staff e) bass.

(** The bass events whose onset equals [t]: one chord group. *)
Definition bassAt (t : F64.float) (e : NoteEvent) : bool :=
  isBass e && (time e =? t)%f64.

(** Number of tones of a chord, and the onset of bar [bar] (from 0). *)
Definition chordSize (diff : Difficulty) : nat :=
  (3 + (if difficultyValue diff >=? 2 then 1 else 0)
     + (if difficultyValue diff >=? 3 then 1 else 0))%nat.

Definition barStartOf (spb : F64.float) (bar : Z) : F64.float :=
  (F64.ofZ (bar * 4) * spb)%f64.

Definition barIndices : list Z := [0; 1; 2; 3].

(** The beats that open a bar at onset [t]. *)
Definition opensBarAt (bpb : Z) (spb t : F64.float) (k : Z) : bool :=
  (Z.rem k bpb =? 0) && (F64.ofZ k * spb =? t)%f64.

(** The binary64 facts the counts rest on, checked by evaluation for one
    tempo: the onset of beat [k] equals the start of bar [bar] exactly when
    [k] is the first beat of that bar. *)
Definition barOnsetsExact (bpm0 : Z) : bool :=
  let spb := secondsPerBeatOf bpm0 in
  forallb
    (fun bar =>
       forallb
         (fun k => Bool.eqb (F64.ofZ k * spb =? barStartOf spb bar)%f64 (k =? bar * 4))
         beatIndices)
    barIndices.

(** ** Encoded scores *)

(** An eighth of the bass staff: rest or note, two divisions long. *)
Definition bassEighth (n : XmlNote) : Prop :=
  noteDuration n = 2 /\ noteType n = eighth /\ noteStaff n = 2 /\ noteVoice n = 1.

(** Total duration of a group of notes and rests, in divisions. *)
Definition sumDurations (group : list XmlNote) : Z :=
  fold_right Z.add 0 (map noteDuration group).

(** The phrase with treble pitches [ps] (one per beat) and chords [cs] (one
    per bar). *)
Definition phraseFromParts (spb : F64.float) (ps : list Z) (cs : list (list Z))
    : list NoteEvent :=
  flat_map
    (fun k =>
       trebleEventAt spb k (nth (Z.to_nat k) ps 0)
       :: (if Z.rem k 4 =? 0
           then map (fun m => mkNoteEvent (F64.ofZ k * spb)%f64
                                (spb * F64.ofZ 4)%f64 m bass true)
                  (nth (Z.to_nat (k / 4)) cs [])
           else []))
    beatIndices.

(** The bar and beat numbers the template has slots for. *)
Definition slotIndices : list Z := [1; 2; 3; 4].

(** The two pitched [<note>] elements the encoder writes. *)
Definition pitchedQuarter (xp : XmlPitch) : XmlNote :=
  mkXmlNote (Some xp) divisions 1 quarter None 1.

Definition beamedEighth (xp : XmlPitch) (b : Beam) : XmlNote :=
  mkXmlNote (Some xp) (divisions / 2) 1 eighth (Some b) 2.

(** The three lowest pitches of a chord, in ascending order. *)
Definition threeLowest (chord : list Z) (lowest second third : Z) : Prop :=
  In lowest chord /\ In second chord /\ In third chord
  /\ lowest < second < third
  /\ forall m, In m chord -> m = lowest \/ m = second \/ third <= m.

(** A note, not a rest. *)
Definition pitched (n : XmlNote) : Prop := notePitch n <> None.

(** ** Sessions *)

(** The session of the example: the phrase is the single event
    [{time: 0, duration: 1, midi: 60}], playing since [start]. *)
Definition singleNoteSession (start : Z) : Session :=
  setPlayback start true
    (setPhrase [mkNoteEvent F64.zero F64.one 60 treble false] sevenths
       (initialSession sevenths)).

(** A session that is playing: the samples have loaded, [startPlayback] was
    called and its [await] returned when the clock read 1000 ms. *)
Definition playingSession : Session :=
  run (mountedSession sevenths) [AudioEnsured; SamplerLoadedEv; StartCalled; StartResumed 1000].

(** Every pending timeout was registered by the last [startPlayback] and is
    listed in [playbackTimers]; timer ids are fresh; nothing is scheduled
    while Idle; samples load only into a sampler that exists. *)
Definition wellFormed (st : Session) : Prop :=
  (forall id, is_Some (timers st !! id) -> In id (playbackTimers st))
  /\ (forall id, In id (playbackTimers st) -> (id < nextTimerId st)%nat)
  /\ (isPlaying st = false -> playbackTimers st = [])
  /\ (samplerLoaded st = true -> pianoSampler st = true).

(** The part of [wellFormed] that is about timers. *)
Definition timersListed (st : Session) : Prop :=
  (forall id, is_Some (timers st !! id) -> In id (playbackTimers st))
  /\ (forall id, In id (playbackTimers st) -> (id < nextTimerId st)%nat).

(** What the specification calls the playback session, with the phrase, the
    parameters and the polled outputs: every field but the sampler. *)
Definition sameSession (a b : Session) : Prop :=
  isPlaying a = isPlaying b
  /\ phraseStart a = phraseStart b
  /\ timers a = timers b
  /\ playbackTimers a = playbackTimers b
  /\ nextTimerId a = nextTimerId b
  /\ noteEvents a = noteEvents b
  /\ (selectedMode a, selectedMeter a, bpm a, difficulty a)
     = (selectedMode b, selectedMeter b, bpm b, difficulty b)
  /\ activeMidiSet a = activeMidiSet b
  /\ progress a = progress b
  /\ rng a = rng b
  /\ samplerLoaded a = samplerLoaded b
  /\ audioLog a = audioLog b.


(** Events other than a new call of [startPlayback] and a key preview. *)
Definition quiet (e : Event) : bool :=
  match e with
  | StartCalled | KeyDown _ => false
  | _ => true
  end.


(** * The keyboard and its labels *)

Module Labels.
Import Stdlib.Strings.String.

(** The table [names] of [midiToName] and [midiToXmlPitch]. *)
Definition noteNames : list string :=
  ["C"; "C#"; "D"; "D#"; "E"; "F"; "F#"; "G"; "G#"; "A"; "A#"; "B"]%string.

(** An integer interpolated into a template literal: its decimal digits,
    with a minus sign when negative. *)
Definition numberToString (n : Z) : string :=
  DecimalString.NilZero.string_of_int (Z.to_int n).

(** [names[pc]] interpolated: [undefined] prints as its name. *)
Definition nameAt (pc : Z) : string :=
  if pc <? 0 then "undefined"%string
  else nth (Z.to_nat pc) noteNames "undefined"%string.

Definition midiToName (m : Z) : string :=
  let pc := Z.rem m 12 in
  let oct := m / 12 - 1 in
  append (nameAt pc) (numberToString oct).

(** The letter a [Step] is written with. *)
Definition stepLetter (s : Step) : string :=
  match s with
  | StepC => "C" | StepD => "D" | StepE => "E" | StepF => "F"
  | StepG => "G" | StepA => "A" | StepB => "B"
  end%string.

(** The label a score spelling reads as: letter, sharp sign, octave. *)
Definition spellingLabel (xp : XmlPitch) : string :=
  append (stepLetter (step xp))
    (append (if alter xp =? 1 then "#"%string else EmptyString)
       (numberToString (octave xp))).

End Labels.

(** [interface PianoKeyDef] of the practice page. *)
Record PianoKeyDef := mkPianoKeyDef {
  keyMidi : Z;
  keyName : String.string;
  keyIsBlack : bool;
  keyWhiteIndex : Z
}.

(** One turn of the loop that fills [res], with [whiteCount]. *)
Definition pushKey (acc : list PianoKeyDef * Z) (m : Z) : list PianoKeyDef * Z :=
  let res := fst acc in
  let whiteCount := snd acc in
  let black := isBlack m in
  let name := Labels.midiToName m in
  if negb black
  then (res ++ [mkPianoKeyDef m name false whiteCount], whiteCount + 1)
  else (res ++ [mkPianoKeyDef m name true (whiteCount - 1)], whiteCount).

(** The loop over the pitches [midis]; the source runs it from 21 to 108. *)
Definition keysOf (midis : list Z) : list PianoKeyDef :=
  fst (fold_left pushKey midis ([], 0)).

Definition PIANO_KEYS : list PianoKeyDef := keysOf (seqZ 21 88).

Definition whiteKeys : list PianoKeyDef :=
  List.filter (fun k => negb (keyIsBlack k)) PIANO_KEYS.

Definition blackKeys : list PianoKeyDef :=
  List.filter (fun k => keyIsBlack k) PIANO_KEYS.

(** [type KeyType] and [interface PianoKey] of the keyboard component. *)
Inductive KeyType := white | black.

Record PianoKey := mkPianoKey {
  pkMidi : Z;
  pkName : String.string;
  pkType : KeyType;
  pkWhiteIndex : Z;
  pkOctave : Z
}.

Definition pushPianoKey (acc : list PianoKey * Z) (m : Z) : list PianoKey * Z :=
  let res := fst acc in
  let whiteCount := snd acc in
  let isBlackKey := isBlack m in
  let name := Labels.midiToName m in
  let oct := m / 12 - 1 in
  if negb isBlackKey
  then (res ++ [mkPianoKey m name white whiteCount oct], whiteCount + 1)
  else (res ++ [mkPianoKey m name black (whiteCount - 1) oct], whiteCount).

Definition allKeys : list PianoKey :=
  fst (fold_left pushPianoKey (seqZ 21 88) ([], 0)).

(** [blackOffsetForMidi]. *)
Definition blackOffsetForMidi (m : Z) : F64.float :=
  let pc := pitchClass m in
  if (pc =? 1) || (pc =? 3) then F64.ofDecimal 6 10
  else if (pc =? 6) || (pc =? 8) || (pc =? 10) then F64.ofDecimal 4 10
  else F64.ofDecimal 5 10.

(** The [left] of a black key in percent:
    [((b.whiteIndex + blackOffsetForMidi(b.midi)) / whiteKeys.length) * 100]. *)
Definition blackKeyLeft (k : PianoKeyDef) : F64.float :=
  ((F64.ofZ (keyWhiteIndex k) + blackOffsetForMidi (keyMidi k))
   / F64.ofZ (Z.of_nat (length whiteKeys)) * F64.ofZ 100)%f64.

(** * Vocabulary of the further properties *)

(** Semitones of a letter above C, and the pitch a spelling denotes. *)
Definition semitoneOf (s : Step) : Z :=
  match s with
  | StepC => 0 | StepD => 2 | StepE => 4 | StepF => 5
  | StepG => 7 | StepA => 9 | StepB => 11
  end.

Definition xmlPitchToMidi (xp : XmlPitch) : Z :=
  (octave xp + 1) * 12 + semitoneOf (step xp) + alter xp.

(** Number of white keys among [midis]. *)
Definition whiteCountOf (midis : list Z) : Z :=
  Z.of_nat (length (List.filter (fun m => negb (isBlack m)) midis)).

(** The timers [startPlayback] registers from id [n] on: one note trigger
    per event, then the loop restart. *)
Definition noteTimers (evs : list NoteEvent) : list Timer :=
  map (fun ev => mkTimer (time ev * F64.ofZ 1000)%f64 (NoteTrigger ev)) evs.

Definition scheduleOf (st : Session) : list Timer :=
  noteTimers (noteEvents st)
  ++ [mkTimer (phraseDuration st * F64.ofZ 1000 + F64.ofZ 50)%f64 LoopRestart].

Fixpoint registerFrom (n : nat) (ts : list Timer) (m : gmap nat Timer)
    : gmap nat Timer :=
  match ts with
  | [] => m
  | t :: ts' => registerFrom (S n) ts' (<[n := t]> m)
  end.

(** The backend calls the note triggers of [evs] make when they fire in
    order, the first of them being timer [n]. *)
Fixpoint callsFrom (n : nat) (evs : list NoteEvent) : list AudioCall :=
  match evs with
  | [] => []
  | ev :: evs' => mkAudioCall (Some n) (midi ev) (duration ev) :: callsFrom (S n) evs'
  end.

(** The keys of [midis] when [wc] white keys came before them. *)
Fixpoint keysFrom (wc : Z) (midis : list Z) : list PianoKeyDef :=
  match midis with
  | [] => []
  | m :: rest =>
      if isBlack m
      then mkPianoKeyDef m (Labels.midiToName m) true (wc - 1) :: keysFrom wc rest
      else mkPianoKeyDef m (Labels.midiToName m) false wc :: keysFrom (wc + 1) rest
  end.

(** The entries of a list of labels are pairwise different. *)
Fixpoint allDistinct (l : list String.string) : bool :=
  match l with
  | [] => true
  | x :: rest => negb (existsb (String.eqb x) rest) && allDistinct rest
  end.

(** A quarter of the treble staff: rest or note, four divisions long. *)
Definition trebleQuarter (n : XmlNote) : Prop :=
  noteDuration n = 4 /\ noteType n = quarter /\ noteStaff n = 1
  /\ noteVoice n = 1 /\ noteBeam n = None.

(** The notes of one of the measures 1 to 4: four treble quarters, then a
    bass group of two to four eighths. *)
Definition filledMeasure (notes : list XmlNote) : Prop :=
  exists slots group,
    notes = slots ++ group
    /\ length slots = 4%nat
    /\ List.Forall trebleQuarter slots
    /\ (2 <= length group <= 4)%nat
    /\ List.Forall bassEighth group.

(** [phraseDuration] for the tempo [bpm0] in 4/4. *)
Definition phraseDurationAt (bpm0 : Z) : F64.float :=
  (F64.ofZ 4 * secondsPerBeatOf bpm0 * F64.ofZ phraseLengthBars)%f64.

(** An event with onset [t] and duration [d] sounds inside the phrase, and
    its trigger is due before the loop restart. *)
Definition insidePhrase (bpm0 : Z) (t d : F64.float) : bool :=
  (F64.zero <=? t)%f64
  && (t + d <=? phraseDurationAt bpm0)%f64
  && (t * F64.ofZ 1000 <? phraseDurationAt bpm0 * F64.ofZ 1000 + F64.ofZ 50)%f64.

(** The binary64 check that every beat of a phrase at [bpm0] is inside the
    phrase, with the treble duration and, on first beats, the chord
    duration. *)
Definition beatsInsidePhrase (bpm0 : Z) : bool :=
  let spb := secondsPerBeatOf bpm0 in
  forallb
    (fun k =>
       insidePhrase bpm0 (F64.ofZ k * spb)%f64 (spb * F64.ofDecimal 9 10)%f64
       && ((negb (Z.rem k 4 =? 0))
           || insidePhrase bpm0 (F64.ofZ k * spb)%f64 (spb * F64.ofZ 4)%f64))
    beatIndices.

(** The note triggers of [evs] are pending under the ids from [n] on. *)
Definition notesPending (n : nat) (evs : list NoteEvent) (st : Session) : Prop :=
  forall i ev, nth_error evs i = Some ev ->
    exists d, timers st !! (n + i)%nat = Some (mkTimer d (NoteTrigger ev)).

(** * Verification *)

(** ** Triad snap *)

(** The three outcomes of the scan over [triads], by the distances. *)
Lemma snapToTriad_cases (m : Z) (mode : Mode) :
  let d48 := Z.abs (48 - m) in
  let d53 := Z.abs (53 - m) in
  let d55 := Z.abs (55 - m) in
  (snapToTriad m mode = 48 /\ d48 <= d53 /\ d48 <= d55)
  \/ (snapToTriad m mode = 53 /\ d53 < d48 /\ d53 <= d55)
  \/ (snapToTriad m mode = 55 /\ d55 < d48 /\ d55 < d53).
Proof.
  unfold snapToTriad, triads; cbn [fold_left nth]; unfold snapStep; cbn [snd fst].
  repeat match goal with
         | |- context [Z.ltb ?a ?b] =>
             destruct (Z.ltb_spec a b); cbn [snd fst]
         end; lia.
Qed.

Lemma snapToTriad_in_triads (m : Z) (mode : Mode) :
  In (snapToTriad m mode) triads.
Proof.
  destruct (snapToTriad_cases m mode) as [[-> _] | [[-> _] | [-> _]]];
    unfold triads; simpl; auto.
Qed.

(** C4: the triad snap returns the root of [48; 53; 55] nearest to the seed,
    and of the nearest roots the one listed first: the roots listed before
    the result are strictly farther from the seed, the roots listed after it
    are not nearer.  Seed 54, equidistant from 53 and 55, snaps to 53. *)
Theorem C4_snapToTriad_nearest_first (m : Z) (mode : Mode) :
  let r := snapToTriad m mode in
  In r triads
  /\ (forall t, In t triads -> Z.abs (r - m) <= Z.abs (t - m))
  /\ (exists before after,
        triads = before ++ r :: after
        /\ (forall t, In t before -> Z.abs (r - m) < Z.abs (t - m))
        /\ (forall t, In t after -> Z.abs (r - m) <= Z.abs (t - m)))
  /\ snapToTriad 54 mode = 53.
Proof.
  intros r. subst r.
  split; [apply snapToTriad_in_triads|].
  destruct (snapToTriad_cases m mode) as [[-> ?] | [[-> ?] | [-> ?]]].
  - split; [unfold triads; simpl; intros t Ht; intuition (subst; lia)|].
    split; [|reflexivity].
    exists [], [53; 55]. split; [reflexivity|].
    split; simpl; intros t Ht; intuition (subst; lia).
  - split; [unfold triads; simpl; intros t Ht; intuition (subst; lia)|].
    split; [|reflexivity].
    exists [48], [55]. split; [reflexivity|].
    split; simpl; intros t Ht; intuition (subst; lia).
  - split; [unfold triads; simpl; intros t Ht; intuition (subst; lia)|].
    split; [|reflexivity].
    exists [48; 53], []. split; [reflexivity|].
    split; simpl; intros t Ht; intuition (subst; lia).
Qed.

(** ** Shape of a generated phrase *)

Lemma randomInt_drawn (lo hi : Z) (g : Rng) :
  drawnFrom (draws g) lo hi (fst (randomInt lo hi g))
  /\ draws (snd (randomInt lo hi g)) = draws g.
Proof.
  split; [|reflexivity]. exists (pos g). reflexivity.
Qed.

Lemma phraseBeat_shape (mode : Mode) (diff : Difficulty) (bpb : Z)
    (spb : F64.float) (acc : list NoteEvent) (g : Rng) (k : Z) :
  exists grp g',
    phraseBeat mode diff bpb spb (acc, g) k = (acc ++ grp, g')
    /\ draws g' = draws g
    /\ BeatShape (draws g) diff bpb spb k grp.
Proof.
  unfold phraseBeat; cbn [fst snd getScaleMidiRange rangeMin rangeMax].
  destruct (randomInt_drawn 60 84 g) as [Hp Hg].
  destruct (Z.eqb_spec (Z.rem k bpb) 0) as [Hk | Hk].
  - eexists (trebleEventAt spb k _ :: chordEventsAt spb bpb k _ diff), _.
    split; [rewrite <- app_assoc; reflexivity|].
    split; [reflexivity|].
    apply beat_first; [exact Hk | exact Hp | apply snapToTriad_in_triads].
  - eexists [trebleEventAt spb k _], _.
    split; [reflexivity|]. split; [exact Hg|].
    apply beat_inner; [exact Hk | exact Hp].
Qed.

Lemma phraseLoop_shape (mode : Mode) (diff : Difficulty) (bpb : Z)
    (spb : F64.float) (ks : list Z) :
  forall (acc : list NoteEvent) (g : Rng),
  exists groups g',
    fold_left (phraseBeat mode diff bpb spb) ks (acc, g) = (acc ++ concat groups, g')
    /\ draws g' = draws g
    /\ Forall2 (BeatShape (draws g) diff bpb spb) ks groups.
Proof.
  induction ks as [|k ks IH]; intros acc g.
  - exists [], g. cbn. rewrite app_nil_r. repeat split. constructor.
  - cbn [fold_left].
    destruct (phraseBeat_shape mode diff bpb spb acc g k) as (grp & g1 & -> & Hd & Hs).
    destruct (IH (acc ++ grp) g1) as (groups & g2 & -> & Hd2 & Hs2).
    exists (grp :: groups), g2. cbn [concat]. rewrite <- app_assoc.
    split; [reflexivity|]. split; [congruence|].
    constructor; [exact Hs|]. rewrite <- Hd. exact Hs2.
Qed.

(** A generated phrase is the concatenation of the events of its sixteen
    beats. *)
Lemma generateEvents_shape (mode : Mode) (bpm0 : Z) (diff : Difficulty) (g : Rng) :
  exists groups,
    fst (generateEvents mode Meter_4_4 bpm0 diff g) = concat groups
    /\ Forall2 (BeatShape (draws g) diff 4 (secondsPerBeatOf bpm0)) beatIndices groups.
Proof.
  unfold generateEvents.
  change (seqZ 0 (beatsPerBarOf Meter_4_4 * phraseLengthBars)) with beatIndices.
  cbn [beatsPerBarOf].
  destruct (phraseLoop_shape mode diff 4 (secondsPerBeatOf bpm0) beatIndices [] g)
    as (groups & g' & -> & _ & Hs).
  exists groups. split; [reflexivity | exact Hs].
Qed.

Lemma shape_event_of_beat (d : nat -> Q) (diff : Difficulty) (bpb : Z)
    (spb : F64.float) (ks : list Z) (groups : list (list NoteEvent)) :
  Forall2 (BeatShape d diff bpb spb) ks groups ->
  forall e, In e (concat groups) ->
  exists k grp, In k ks /\ BeatShape d diff bpb spb k grp /\ In e grp.
Proof.
  induction 1 as [|k grp ks groups Hs _ IH]; cbn [concat]; intros e He.
  - destruct He.
  - apply in_app_or in He as [He | He].
    + exists k, grp. split; [left; reflexivity | split; assumption].
    + destruct (IH e He) as (k' & grp' & Hk & Hs' & He').
      exists k', grp'. split; [right; exact Hk | split; assumption].
Qed.

(** What an event of a beat is. *)
Lemma BeatShape_event (d : nat -> Q) (diff : Difficulty) (bpb : Z)
    (spb : F64.float) (k : Z) (grp : list NoteEvent) (e : NoteEvent) :
  BeatShape d diff bpb spb k grp -> In e grp ->
  (exists p, drawnFrom d 60 84 p /\ e = trebleEventAt spb k p)
  \/ (Z.rem k bpb = 0
      /\ exists root m, In root triads /\ In m (buildChord root diff)
           /\ e = mkNoteEvent (F64.ofZ k * spb)%f64 (spb * F64.ofZ bpb)%f64 m bass true).
Proof.
  intros [p Hk Hp | p root Hk Hp Hr] He.
  - destruct He as [<- | []]. left. exists p. split; [exact Hp | reflexivity].
  - destruct He as [<- | He].
    + left. exists p. split; [exact Hp | reflexivity].
    + right. split; [exact Hk|].
      unfold chordEventsAt in He. apply in_map_iff in He as (m & <- & Hm).
      exists root, m. repeat split; assumption.
Qed.

(** ** Range of the drawn pitches *)

Lemma drawnFrom_range (d : nat -> Q) (lo hi p : Z) :
  (forall n : nat, (0 <= d n)%Q /\ (d n < 1)%Q) ->
  lo <= hi ->
  drawnFrom d lo hi p ->
  lo <= p <= hi.
Proof.
  intros Hd Hlh [n ->].
  destruct (Hd n) as [H0 H1].
  set (w := hi - lo + 1).
  assert (Hw : (0 < inject_Z w)%Q).
  { change 0%Q with (inject_Z 0). rewrite <- Zlt_Qlt. subst w; lia. }
  assert (Hlow : 0 <= Qfloor (d n * inject_Z w)).
  { change 0 with (Qfloor (inject_Z 0)) at 1. apply Qfloor_resp_le.
    change (inject_Z 0) with 0%Q. apply Qmult_le_0_compat; [exact H0|].
    apply Qlt_le_weak; exact Hw. }
  assert (Hhigh : Qfloor (d n * inject_Z w) < w).
  { rewrite Zlt_Qlt.
    apply Qle_lt_trans with (y := (d n * inject_Z w)%Q); [apply Qfloor_le|].
    rewrite <- (Qmult_1_l (inject_Z w)) at 2.
    apply Qmult_lt_compat_r; assumption. }
  subst w. lia.
Qed.

(** In binary64 the largest draw, [1 - 2^-53], times the width 25 of both
    ranges rounds to [25 - 2^-48]: its floor is 24, the top of the range. *)
Remark largest_draw_below_width :
  let u := S754_finite false 9007199254740991 (-53) in
  F64.valid u = true
  /\ (u <? F64.one)%f64 = true
  /\ SFsucc F64.prec F64.emax u = F64.one
  /\ (u * F64.ofZ 25)%f64 = S754_finite false 7036874417766399 (-48)
  /\ (u * F64.ofZ 25 <? F64.ofZ 25)%f64 = true
  /\ (F64.ofZ 24 <=? u * F64.ofZ 25)%f64 = true.
Proof.
  repeat split; vm_compute; reflexivity.
Qed.

Lemma buildChord_offsets (root : Z) (diff : Difficulty) (m : Z) :
  In m (buildChord root diff) ->
  exists o, In o [0; 4; 7; -12; 11] /\ m = root + o.
Proof.
  destruct diff; unfold buildChord; cbn; intros Hm;
    repeat (destruct Hm as [<- | Hm];
            [eexists; split; [|symmetry; first
               [ apply Z.add_0_r | reflexivity ]]; cbn; tauto|]);
    destruct Hm.
Qed.

(** C8: with draws in [0,1), for every mode, tempo and difficulty the treble
    pitches of a generated phrase lie in [60, 84] and every bass pitch is
    [root + o] for a root of [48; 53; 55] and an offset [o] of
    [0; 4; 7; -12; 11].  The mode constrains nothing: the two drawn ranges
    (treble 60-84, bass seed 36-60), the snap and the whole generated phrase
    are the same for any two modes. *)
Theorem C8_pitch_ranges_mode_blind (mode : Mode) (bpm0 : Z) (diff : Difficulty)
    (g : Rng) :
  unitDraws g ->
  let events := fst (generateEvents mode Meter_4_4 bpm0 diff g) in
  (forall e, In e events -> staff e = treble -> 60 <= midi e <= 84)
  /\ (forall e, In e events -> staff e = bass ->
        exists root o, In root triads /\ In o [0; 4; 7; -12; 11]
                       /\ midi e = root + o)
  /\ (forall mode', getScaleMidiRange mode' treble = mkMidiRange 60 84
                    /\ getScaleMidiRange mode' bass = mkMidiRange 36 60)
  /\ (forall mode' m, snapToTriad m mode' = snapToTriad m mode)
  /\ (forall mode', generateEvents mode' Meter_4_4 bpm0 diff g
                    = generateEvents mode Meter_4_4 bpm0 diff g).
Proof.
  intros Hu events.
  destruct (generateEvents_shape mode bpm0 diff g) as (groups & Hev & Hs).
  subst events. rewrite Hev.
  split; [|split; [|split; [|split]]].
  - intros e He Hst.
    destruct (shape_event_of_beat _ _ _ _ _ _ Hs e He) as (k & grp & _ & Hb & Hin).
    destruct (BeatShape_event _ _ _ _ _ _ _ Hb Hin)
      as [(p & Hp & ->) | (_ & root & m & _ & _ & ->)].
    + cbn [midi trebleEventAt]. apply (drawnFrom_range (draws g)); [exact Hu | lia | exact Hp].
    + discriminate Hst.
  - intros e He Hst.
    destruct (shape_event_of_beat _ _ _ _ _ _ Hs e He) as (k & grp & _ & Hb & Hin).
    destruct (BeatShape_event _ _ _ _ _ _ _ Hb Hin)
      as [(p & Hp & ->) | (_ & root & m & Hr & Hm & ->)].
    + discriminate Hst.
    + cbn [midi]. destruct (buildChord_offsets root diff m Hm) as (o & Ho & ->).
      exists root, o. repeat split; assumption.
  - intros mode'. split; reflexivity.
  - intros mode' m. reflexivity.
  - intros mode'. reflexivity.
Qed.

Lemma sevenths_unitDraws : unitDraws sevenths.
Proof.
  intros n. cbn [draws sevenths].
  assert (H : (n mod 7 < 7)%nat) by (apply Nat.mod_upper_bound; discriminate).
  unfold Qle, Qlt; cbn [Qnum Qden]. lia.
Qed.

Lemma C8_pitch_ranges_witness :
  let events := fst (generateEvents G_MAJOR Meter_4_4 100 D3 sevenths) in
  (forall e, In e events -> staff e = treble -> 60 <= midi e <= 84)
  /\ (forall e, In e events -> staff e = bass ->
        exists root o, In root triads /\ In o [0; 4; 7; -12; 11]
                       /\ midi e = root + o)
  /\ (forall mode', getScaleMidiRange mode' treble = mkMidiRange 60 84
                    /\ getScaleMidiRange mode' bass = mkMidiRange 36 60)
  /\ (forall mode' m, snapToTriad m mode' = snapToTriad m G_MAJOR)
  /\ (forall mode', generateEvents mode' Meter_4_4 100 D3 sevenths
                    = generateEvents G_MAJOR Meter_4_4 100 D3 sevenths).
Proof.
  exact (C8_pitch_ranges_mode_blind G_MAJOR 100 D3 sevenths sevenths_unitDraws).
Defined.

(** ** Counting the events of a generated phrase *)

Lemma buildChord_length (root : Z) (diff : Difficulty) :
  length (buildChord root diff) = chordSize diff.
Proof. destruct diff; reflexivity. Qed.

Lemma filter_concat {A : Type} (f : A -> bool) (ls : list (list A)) :
  List.filter f (concat ls) = concat (map (List.filter f) ls).
Proof.
  induction ls as [|l ls IH]; [reflexivity|].
  cbn [concat map]. rewrite List.filter_app, IH. reflexivity.
Qed.

Lemma filter_all_false {A : Type} (f : A -> bool) (l : list A) :
  (forall x, In x l -> f x = false) -> List.filter f l = [].
Proof.
  induction l as [|x l IH]; intros H; [reflexivity|].
  cbn [List.filter]. rewrite (H x (or_introl eq_refl)).
  apply IH. intros y Hy. apply H. right. exact Hy.
Qed.

Lemma filter_all_true {A : Type} (f : A -> bool) (l : list A) :
  (forall x, In x l -> f x = true) -> List.filter f l = l.
Proof.
  induction l as [|x l IH]; intros H; [reflexivity|].
  cbn [List.filter]. rewrite (H x (or_introl eq_refl)).
  f_equal. apply IH. intros y Hy. apply H. right. exact Hy.
Qed.

Lemma chordEventsAt_In (spb : F64.float) (bpb k root : Z) (diff : Difficulty)
    (e : NoteEvent) :
  In e (chordEventsAt spb bpb k root diff) ->
  exists m, In m (buildChord root diff)
    /\ e = mkNoteEvent (F64.ofZ k * spb)%f64 (spb * F64.ofZ bpb)%f64 m bass true.
Proof.
  unfold chordEventsAt. intros He. apply in_map_iff in He as (m & <- & Hm).
  exists m. split; [exact Hm | reflexivity].
Qed.

Lemma treble_of_beat (d : nat -> Q) (diff : Difficulty) (bpb : Z)
    (spb : F64.float) (k : Z) (grp : list NoteEvent) :
  BeatShape d diff bpb spb k grp ->
  exists p, List.filter isTreble grp = [trebleEventAt spb k p].
Proof.
  intros [p Hk Hp | p root Hk Hp Hr]; exists p; [reflexivity|].
  cbn [List.filter isTreble trebleEventAt staff Staff_eqb]. f_equal.
  apply filter_all_false. intros e He.
  apply chordEventsAt_In in He as (m & _ & ->). reflexivity.
Qed.

Lemma treble_count (d : nat -> Q) (diff : Difficulty) (bpb : Z)
    (spb : F64.float) (ks : list Z) (groups : list (list NoteEvent)) :
  Forall2 (BeatShape d diff bpb spb) ks groups ->
  length (List.filter isTreble (concat groups)) = length ks.
Proof.
  induction 1 as [|k grp ks groups Hs _ IH]; [reflexivity|].
  cbn [concat]. rewrite List.filter_app, length_app, IH.
  destruct (treble_of_beat _ _ _ _ _ _ Hs) as (p & ->). reflexivity.
Qed.

Lemma bassAt_of_beat (d : nat -> Q) (diff : Difficulty) (bpb : Z)
    (spb t : F64.float) (k : Z) (grp : list NoteEvent) :
  BeatShape d diff bpb spb k grp ->
  length (List.filter (bassAt t) grp)
  = if opensBarAt bpb spb t k then chordSize diff else 0%nat.
Proof.
  unfold opensBarAt.
  intros [p Hk Hp | p root Hk Hp Hr].
  - apply Z.eqb_neq in Hk. rewrite Hk. reflexivity.
  - rewrite Hk. cbn [Z.eqb andb].
    cbn [List.filter bassAt isBass trebleEventAt staff Staff_eqb andb].
    destruct (F64.ofZ k * spb =? t)%f64 eqn:Ht.
    + rewrite filter_all_true.
      * unfold chordEventsAt. rewrite length_map. apply buildChord_length.
      * intros e He. apply chordEventsAt_In in He as (m & _ & ->).
        unfold bassAt, isBass; cbn [staff time Staff_eqb andb]. exact Ht.
    + rewrite filter_all_false; [reflexivity|].
      intros e He. apply chordEventsAt_In in He as (m & _ & ->).
      unfold bassAt, isBass; cbn [staff time Staff_eqb andb]. exact Ht.
Qed.

Lemma bassAt_count (d : nat -> Q) (diff : Difficulty) (bpb : Z)
    (spb t : F64.float) (ks : list Z) (groups : list (list NoteEvent)) :
  Forall2 (BeatShape d diff bpb spb) ks groups ->
  length (List.filter (bassAt t) (concat groups))
  = (length (List.filter (opensBarAt bpb spb t) ks) * chordSize diff)%nat.
Proof.
  induction 1 as [|k grp ks groups Hs _ IH]; [reflexivity|].
  cbn [concat List.filter]. rewrite List.filter_app, length_app, IH.
  rewrite (bassAt_of_beat _ _ _ _ _ _ _ Hs).
  destruct (opensBarAt bpb spb t k); cbn [length]; lia.
Qed.

Lemma barOnsetsExact_tempos (bpm0 : Z) :
  In bpm0 tempos -> barOnsetsExact bpm0 = true.
Proof.
  unfold tempos; cbn [In].
  intros [<- | [<- | [<- | [<- | [<- | []]]]]]; vm_compute; reflexivity.
Qed.

Lemma barOnsetsExact_spec (bpm0 bar k : Z) :
  barOnsetsExact bpm0 = true ->
  In bar barIndices -> In k beatIndices ->
  (F64.ofZ k * secondsPerBeatOf bpm0 =? barStartOf (secondsPerBeatOf bpm0) bar)%f64
  = (k =? bar * 4).
Proof.
  unfold barOnsetsExact. intros H Hbar Hk.
  rewrite forallb_forall in H. specialize (H bar Hbar).
  rewrite forallb_forall in H. specialize (H k Hk).
  apply Bool.eqb_prop in H. exact H.
Qed.

Lemma barIndex_of_first_beat (k : Z) :
  In k beatIndices -> Z.rem k 4 = 0 ->
  exists bar, In bar barIndices /\ k = bar * 4.
Proof.
  unfold beatIndices, barIndices; cbn [In]. intros Hk Hr.
  repeat (destruct Hk as [<- | Hk];
          [first [ discriminate Hr
                 | exists 0; split; [tauto | reflexivity]
                 | exists 1; split; [tauto | reflexivity]
                 | exists 2; split; [tauto | reflexivity]
                 | exists 3; split; [tauto | reflexivity] ]|]).
  destruct Hk.
Qed.

Lemma first_beat_in_beatIndices (bar : Z) :
  In bar barIndices -> In (bar * 4) beatIndices /\ Z.rem (bar * 4) 4 = 0.
Proof.
  unfold beatIndices, barIndices; cbn [In].
  intros [<- | [<- | [<- | [<- | []]]]]; cbn; split; tauto.
Qed.

Lemma opensBar_once (bpm0 bar : Z) :
  barOnsetsExact bpm0 = true -> In bar barIndices ->
  let spb := secondsPerBeatOf bpm0 in
  List.filter (opensBarAt 4 spb (barStartOf spb bar)) beatIndices = [bar * 4].
Proof.
  intros Hx Hbar spb.
  assert (Hf : forall k, In k beatIndices ->
             opensBarAt 4 spb (barStartOf spb bar) k = (k =? bar * 4)).
  { intros k Hk. unfold opensBarAt. subst spb.
    rewrite (barOnsetsExact_spec bpm0 bar k Hx Hbar Hk).
    destruct (Z.eqb_spec k (bar * 4)) as [-> | _]; [|apply andb_false_r].
    destruct (first_beat_in_beatIndices bar Hbar) as [_ ->]. reflexivity. }
  rewrite (filter_ext_in _ (fun k => k =? bar * 4) beatIndices Hf).
  unfold barIndices in Hbar; cbn [In] in Hbar.
  destruct Hbar as [<- | [<- | [<- | [<- | []]]]]; reflexivity.
Qed.

(** C3: for every mode, difficulty and listed tempo in 4/4, a generated
    phrase has [beatsPerBar * 4 = 16] treble events and four bass chord
    groups, one at the start of each bar: the bass events whose onset is the
    bar start number [3 + (1 if difficulty >= 2) + (1 if difficulty >= 3)],
    share that onset, which is the onset of the bar's first treble event,
    and last [secondsPerBeat * beatsPerBar]; every bass event is in one of
    the four groups, and the four bar starts are distinct. *)
Theorem C3_generate_counts (mode : Mode) (bpm0 : Z) (diff : Difficulty) (g : Rng) :
  In bpm0 tempos ->
  let spb := secondsPerBeatOf bpm0 in
  let beatsPerBar := beatsPerBarOf Meter_4_4 in
  let events := fst (generateEvents mode Meter_4_4 bpm0 diff g) in
  length (List.filter isTreble events) = Z.to_nat (beatsPerBar * 4)
  /\ (forall bar, In bar barIndices ->
        let grp := List.filter (bassAt (barStartOf spb bar)) events in
        length grp
        = (3 + (if difficultyValue diff >=? 2 then 1 else 0)
             + (if difficultyValue diff >=? 3 then 1 else 0))%nat
        /\ (forall e, In e grp ->
              time e = barStartOf spb bar
              /\ duration e = (spb * F64.ofZ beatsPerBar)%f64
              /\ isChord e = true)
        /\ (exists p, In (trebleEventAt spb (bar * beatsPerBar) p) events
                      /\ time (trebleEventAt spb (bar * beatsPerBar) p)
                         = barStartOf spb bar))
  /\ (forall e, In e events -> staff e = bass ->
        exists bar, In bar barIndices /\ time e = barStartOf spb bar)
  /\ (forall b1 b2, In b1 barIndices -> In b2 barIndices -> b1 <> b2 ->
        (barStartOf spb b1 =? barStartOf spb b2)%f64 = false).
Proof.
  intros Hbpm spb beatsPerBar events.
  pose proof (barOnsetsExact_tempos bpm0 Hbpm) as Hx.
  destruct (generateEvents_shape mode bpm0 diff g) as (groups & Hev & Hs).
  fold spb in Hs. subst events. rewrite Hev.
  split; [|split; [|split]].
  - rewrite (treble_count _ _ _ _ _ _ Hs). reflexivity.
  - intros bar Hbar grp. subst grp. split; [|split].
    + rewrite (bassAt_count _ _ _ _ _ _ _ Hs).
      subst spb. rewrite (opensBar_once bpm0 bar Hx Hbar). cbn [length].
      fold (chordSize diff). lia.
    + intros e He. apply filter_In in He as [He Hb].
      destruct (shape_event_of_beat _ _ _ _ _ _ Hs e He) as (k & grp & Hk & Hsh & Hin).
      destruct (BeatShape_event _ _ _ _ _ _ _ Hsh Hin)
        as [(p & _ & ->) | (Hr & root & m & _ & _ & ->)].
      * discriminate Hb.
      * unfold bassAt, isBass in Hb; cbn [staff time Staff_eqb andb] in Hb.
        subst spb. rewrite (barOnsetsExact_spec bpm0 bar k Hx Hbar Hk) in Hb.
        apply Z.eqb_eq in Hb. subst k. cbn [time duration isChord].
        repeat split; reflexivity.
    + destruct (first_beat_in_beatIndices bar Hbar) as [Hk Hr].
      assert (Hgrp : exists grp, In grp groups
                /\ BeatShape (draws g) diff 4 spb (bar * 4) grp).
      { clear - Hs Hk. induction Hs as [|k grp ks groups Hsh _ IH]; [destruct Hk|].
        destruct Hk as [-> | Hk].
        - exists grp. split; [left; reflexivity | exact Hsh].
        - destruct (IH Hk) as (grp' & Hin & Hsh').
          exists grp'. split; [right; exact Hin | exact Hsh']. }
      destruct Hgrp as (grp & Hin & Hsh).
      destruct Hsh as [p Hk' Hp | p root Hk' Hp Hroot]; [contradiction|].
      exists p. split; [|reflexivity].
      apply in_concat. eexists. split; [exact Hin | left; reflexivity].
  - intros e He Hst.
    destruct (shape_event_of_beat _ _ _ _ _ _ Hs e He) as (k & grp & Hk & Hsh & Hin).
    destruct (BeatShape_event _ _ _ _ _ _ _ Hsh Hin)
      as [(p & _ & ->) | (Hr & root & m & _ & _ & ->)]; [discriminate Hst|].
    destruct (barIndex_of_first_beat k Hk Hr) as (bar & Hbar & ->).
    exists bar. split; [exact Hbar | reflexivity].
  - intros b1 b2 H1 H2 Hne.
    destruct (first_beat_in_beatIndices b1 H1) as [Hk _].
    unfold barStartOf at 1. subst spb.
    rewrite (barOnsetsExact_spec bpm0 b2 (b1 * 4) Hx H2 Hk).
    apply Z.eqb_neq. lia.
Qed.

Lemma C3_generate_counts_witness :
  length (List.filter isTreble (fst (generateEvents C_MAJOR Meter_4_4 100 D2 sevenths)))
  = 16%nat.
Proof.
  assert (Hbpm : In 100 tempos) by (unfold tempos; cbn [In]; tauto).
  exact (proj1 (C3_generate_counts C_MAJOR 100 D2 sevenths Hbpm)).
Defined.

(** ** The bass group of the encoder *)

Lemma insertSorted_In {A : Type} (after : A -> A -> bool) (x y : A) (l : list A) :
  In y (insertSorted after x l) <-> y = x \/ In y l.
Proof.
  induction l as [|z l IH]; cbn [insertSorted In].
  - intuition congruence.
  - destruct (after z x); cbn [In]; rewrite ?IH; intuition congruence.
Qed.

Lemma sortBy_In {A : Type} (after : A -> A -> bool) (y : A) (l : list A) :
  In y (sortBy after l) <-> In y l.
Proof.
  unfold sortBy.
  assert (H : forall acc, In y (fold_left (fun acc x => insertSorted after x acc) l acc)
                          <-> In y acc \/ In y l).
  { induction l as [|x l IH]; intros acc; cbn [fold_left In]; [tauto|].
    rewrite IH, insertSorted_In. intuition congruence. }
  rewrite H. cbn [In]. tauto.
Qed.

Lemma insertSorted_length {A : Type} (after : A -> A -> bool) (x : A) (l : list A) :
  length (insertSorted after x l) = S (length l).
Proof.
  induction l as [|z l IH]; cbn [insertSorted length]; [reflexivity|].
  destruct (after z x); cbn [length]; [reflexivity | rewrite IH; reflexivity].
Qed.

Lemma sortBy_length {A : Type} (after : A -> A -> bool) (l : list A) :
  length (sortBy after l) = length l.
Proof.
  unfold sortBy.
  assert (H : forall acc, length (fold_left (fun acc x => insertSorted after x acc) l acc)
                          = (length acc + length l)%nat).
  { induction l as [|x l IH]; intros acc; cbn [fold_left length]; [lia|].
    rewrite IH, insertSorted_length. lia. }
  rewrite H. reflexivity.
Qed.

Lemma midiToXmlPitch_total (m : Z) :
  0 <= m -> exists p, midiToXmlPitch m = Some p.
Proof.
  intros Hm. unfold midiToXmlPitch, pitchClass.
  pose proof (Z.rem_bound_pos m 12 Hm ltac:(lia)) as Hr.
  destruct (Z.ltb_spec (Z.rem m 12) 0) as [Hneg | _]; [lia|].
  assert (Hn : (Z.to_nat (Z.rem m 12) < 12)%nat) by lia.
  destruct (nth_error names (Z.to_nat (Z.rem m 12))) as [[st sharp]|] eqn:Hnth.
  - eexists. reflexivity.
  - apply nth_error_None in Hnth. cbn [length names] in Hnth. lia.
Qed.

Lemma bassNotesFrom_total (len : nat) (pattern : list Z) :
  Forall (fun m => 0 <= m) pattern ->
  forall idx, exists ns,
    bassNotesFrom len idx pattern = Some ns
    /\ length ns = length pattern
    /\ Forall bassEighth ns
    /\ Forall (fun n => notePitch n <> None) ns.
Proof.
  induction 1 as [|m pattern Hm _ IH]; intros idx.
  - exists []. repeat split; constructor.
  - cbn [bassNotesFrom]. unfold bassNote.
    destruct (midiToXmlPitch_total m Hm) as (p & ->).
    destruct (IH (S idx)) as (ns & -> & Hlen & He & Hp).
    eexists. split; [reflexivity|]. cbn [length]. split; [congruence|].
    split; constructor; try assumption.
    + repeat split.
    + cbn. discriminate.
Qed.

Lemma bassPattern_props (pitches : list Z) :
  pitches <> [] ->
  (2 <= length (bassPattern pitches) <= 4)%nat
  /\ forall m, In m (bassPattern pitches) -> In m pitches.
Proof.
  destruct pitches as [|p0 rest]; [congruence|]. intros _.
  unfold bassPattern.
  destruct (truthy (nth_error (p0 :: rest) 1)) eqn:H1;
    destruct (truthy (nth_error (p0 :: rest) 2)) eqn:H2;
    (split; [cbn; lia|]);
    intros m Hm; cbn [app In] in Hm;
    repeat (destruct Hm as [<- | Hm]; [|]); try (destruct Hm);
    try (left; reflexivity);
    try (apply nth_In; destruct rest as [|a [|b r]]; cbn in *; try discriminate; lia).
Qed.

Lemma sumDurations_eighths (group : list XmlNote) :
  Forall bassEighth group -> sumDurations group = 2 * Z.of_nat (length group).
Proof.
  unfold sumDurations.
  induction 1 as [|n group [Hd _] _ IH]; [reflexivity|].
  cbn [map fold_right length]. rewrite IH, Hd. lia.
Qed.

(** C2, as the specification states it, fails: a bar without bass events
    gets four eighth rests, which last 8 divisions, half of the 16
    divisions of a 4/4 bar; and the bass group of a generated phrase lasts
    8 divisions too. *)
Lemma C2_bass_group_full_bar_counterexample :
  (exists group,
     buildBassGroup [] 100 1 = Some group
     /\ group = [restEighth; restEighth; restEighth; restEighth]
     /\ sumDurations group = 8)
  /\ (exists group,
        buildBassGroup (fst (generateEvents C_MAJOR Meter_4_4 100 D1 sevenths)) 100 1
        = Some group
        /\ sumDurations group = 8)
  /\ 8 <> 4 * divisions.
Proof.
  split; [|split].
  - eexists. split; [reflexivity|]. split; reflexivity.
  - eexists. split; [vm_compute; reflexivity|]. reflexivity.
  - discriminate.
Qed.

(** C2, amended: for every phrase with non-negative pitches, every tempo and
    every bar, the bass group is made of eighths of 2 divisions each on
    staff 2: four eighth rests when no bass event starts at the bar start,
    otherwise 2 to 4 eighth notes.  Its durations sum to twice its length,
    at most 8 divisions: half of a 4/4 bar of 16 divisions, never a full
    bar. *)
Theorem C2_bass_group_durations (events : list NoteEvent) (bpm0 bar : Z) :
  (forall e, In e events -> 0 <= midi e) ->
  exists group,
    buildBassGroup events bpm0 bar = Some group
    /\ Forall bassEighth group
    /\ (2 <= length group <= 4)%nat
    /\ sumDurations group = 2 * Z.of_nat (length group)
    /\ sumDurations group <= 8
    /\ sumDurations group < 4 * divisions
    /\ (chordEventsOf events bpm0 bar = [] ->
        group = [restEighth; restEighth; restEighth; restEighth]
        /\ sumDurations group = 8)
    /\ (chordEventsOf events bpm0 bar <> [] ->
        Forall (fun n => notePitch n <> None) group).
Proof.
  intros Hpos. unfold buildBassGroup.
  destruct (chordEventsOf events bpm0 bar) as [|c cs] eqn:Hc.
  - cbn [length Nat.eqb].
    exists [restEighth; restEighth; restEighth; restEighth].
    split; [reflexivity|].
    split; [repeat constructor|].
    split; [cbn; lia|].
    repeat split; try reflexivity; try (cbn; lia); congruence.
  - cbn [length Nat.eqb].
    set (pitches := sortBy higherThan (map midi (c :: cs))).
    assert (Hne : pitches <> []).
    { intros Hnil. apply (f_equal (@length Z)) in Hnil.
      subst pitches. rewrite sortBy_length in Hnil. discriminate Hnil. }
    destruct (bassPattern_props pitches Hne) as [Hlen Hsub].
    assert (Hall : Forall (fun m => 0 <= m) (bassPattern pitches)).
    { apply List.Forall_forall. intros m Hm. apply Hsub in Hm.
      subst pitches. apply sortBy_In in Hm. apply in_map_iff in Hm as (e & <- & He).
      apply Hpos. rewrite <- Hc in He. unfold chordEventsOf in He.
      apply filter_In in He as [He _]. unfold bassChordStarts in He.
      apply sortBy_In in He. apply filter_In in He as [He _]. exact He. }
    destruct (bassNotesFrom_total (length (bassPattern pitches)) _ Hall 0%nat)
      as (ns & Hns & Hl & He & Hp).
    exists ns. split; [exact Hns|]. split; [exact He|].
    rewrite (sumDurations_eighths ns He), Hl.
    split; [lia|]. split; [reflexivity|].
    split; [lia|]. split; [unfold divisions; lia|].
    split; [congruence|]. intros _. exact Hp.
Qed.

Lemma C2_bass_group_durations_witness :
  exists group,
    buildBassGroup [mkNoteEvent F64.zero F64.one 48 bass true] 100 1 = Some group
    /\ Forall bassEighth group
    /\ (2 <= length group <= 4)%nat
    /\ sumDurations group = 2 * Z.of_nat (length group)
    /\ sumDurations group <= 8
    /\ sumDurations group < 4 * divisions
    /\ (chordEventsOf [mkNoteEvent F64.zero F64.one 48 bass true] 100 1 = [] ->
        group = [restEighth; restEighth; restEighth; restEighth]
        /\ sumDurations group = 8)
    /\ (chordEventsOf [mkNoteEvent F64.zero F64.one 48 bass true] 100 1 <> [] ->
        Forall (fun n => notePitch n <> None) group).
Proof.
  apply (C2_bass_group_durations [mkNoteEvent F64.zero F64.one 48 bass true] 100 1).
  intros e [<- | []]. cbn. lia.
Defined.

(** ** A normal form for generated phrases *)

Ltac invert_beats :=
  repeat match goal with
         | H : Forall2 _ (_ :: _) _ |- _ => inversion H; subst; clear H
         | H : Forall2 _ [] _ |- _ => inversion H; subst; clear H
         end;
  repeat match goal with
         | H : BeatShape _ _ _ _ _ _ |- _ =>
             inversion H; subst; clear H;
             try match goal with
                 | E : Z.rem _ _ = 0 |- _ => discriminate E
                 | E : Z.rem _ _ <> 0 |- _ => exfalso; apply E; reflexivity
                 end
         end.

Lemma generateEvents_parts (mode : Mode) (bpm0 : Z) (diff : Difficulty) (g : Rng) :
  exists p0 p1 p2 p3 p4 p5 p6 p7 p8 p9 p10 p11 p12 p13 p14 p15 r0 r1 r2 r3,
    Forall (drawnFrom (draws g) 60 84)
      [p0; p1; p2; p3; p4; p5; p6; p7; p8; p9; p10; p11; p12; p13; p14; p15]
    /\ Forall (fun r => In r triads) [r0; r1; r2; r3]
    /\ fst (generateEvents mode Meter_4_4 bpm0 diff g)
       = phraseFromParts (secondsPerBeatOf bpm0)
           [p0; p1; p2; p3; p4; p5; p6; p7; p8; p9; p10; p11; p12; p13; p14; p15]
           (map (fun r => buildChord r diff) [r0; r1; r2; r3]).
Proof.
  destruct (generateEvents_shape mode bpm0 diff g) as (groups & -> & Hs).
  unfold beatIndices in Hs. invert_beats.
  do 20 eexists.
  split; [|split].
  3: reflexivity.
  all: repeat (apply List.Forall_cons; [assumption|]); apply List.Forall_nil.
Qed.

(** ** The encoder on a generated phrase *)

Ltac each_tempo H :=
  unfold tempos in H; cbn [In] in H;
  destruct H as [<- | [<- | [<- | [<- | [<- | []]]]]].

Ltac each_slot H :=
  unfold slotIndices in H; cbn [In] in H;
  destruct H as [<- | [<- | [<- | [<- | []]]]].

(** The treble event each beat slot finds: the one generated for the beat. *)
Lemma treble_slot_found (bpm0 : Z) (diff : Difficulty)
    (p0 p1 p2 p3 p4 p5 p6 p7 p8 p9 p10 p11 p12 p13 p14 p15 r0 r1 r2 r3 : Z)
    (bar beat : Z) :
  In bpm0 tempos -> In bar slotIndices -> In beat slotIndices ->
  let ps := [p0; p1; p2; p3; p4; p5; p6; p7; p8; p9; p10; p11; p12; p13; p14; p15] in
  let events := phraseFromParts (secondsPerBeatOf bpm0) ps
                  (map (fun r => buildChord r diff) [r0; r1; r2; r3]) in
  let k := (bar - 1) * 4 + (beat - 1) in
  List.find (inBeatWindow bpm0 bar beat) (trebleEvents events)
  = Some (trebleEventAt (secondsPerBeatOf bpm0) k (nth (Z.to_nat k) ps 0)).
Proof.
  intros Hbpm Hbar Hbeat.
  each_tempo Hbpm; destruct diff; each_slot Hbar; each_slot Hbeat;
    vm_compute; reflexivity.
Qed.

(** The chord events each bar finds: the chord generated on its first
    beat, in generation order. *)
Lemma bass_chord_found (bpm0 : Z) (diff : Difficulty)
    (p0 p1 p2 p3 p4 p5 p6 p7 p8 p9 p10 p11 p12 p13 p14 p15 r0 r1 r2 r3 : Z)
    (bar : Z) :
  In bpm0 tempos -> In bar slotIndices ->
  let ps := [p0; p1; p2; p3; p4; p5; p6; p7; p8; p9; p10; p11; p12; p13; p14; p15] in
  let events := phraseFromParts (secondsPerBeatOf bpm0) ps
                  (map (fun r => buildChord r diff) [r0; r1; r2; r3]) in
  chordEventsOf events bpm0 bar
  = chordEventsAt (secondsPerBeatOf bpm0) 4 ((bar - 1) * 4)
      (nth (Z.to_nat (bar - 1)) [r0; r1; r2; r3] 0) diff.
Proof.
  intros Hbpm Hbar.
  each_tempo Hbpm; destruct diff; each_slot Hbar; vm_compute; reflexivity.
Qed.

Lemma bass_group_of_chord (events : list NoteEvent) (bpm0 bar : Z)
    (spb : F64.float) (k root : Z) (diff : Difficulty) :
  In root triads ->
  chordEventsOf events bpm0 bar = chordEventsAt spb 4 k root diff ->
  exists lowest second third x1 x2 x3,
    threeLowest (buildChord root diff) lowest second third
    /\ midiToXmlPitch lowest = Some x1
    /\ midiToXmlPitch second = Some x2
    /\ midiToXmlPitch third = Some x3
    /\ buildBassGroup events bpm0 bar
       = Some [beamedEighth x1 beamBegin; beamedEighth x2 beamContinue;
               beamedEighth x3 beamContinue; beamedEighth x1 beamEnd].
Proof.
  intros Hroot Hc. unfold buildBassGroup. rewrite Hc.
  unfold chordEventsAt. rewrite length_map, map_map. cbn [midi]. rewrite map_id.
  assert (Hthree : forall a b c chord,
            In a chord -> In b chord -> In c chord -> a < b < c ->
            (forall m, In m chord -> m = a \/ m = b \/ c <= m) ->
            threeLowest chord a b c).
  { intros. repeat split; try assumption; lia. }
  pose (xp := fun m => match midiToXmlPitch m with
                       | Some x => x
                       | None => mkXmlPitch StepC 0 0
                       end).
  exists (match diff with D1 => root | _ => root - 12 end),
         (match diff with D1 => root + 4 | _ => root end),
         (match diff with D1 => root + 7 | _ => root + 4 end),
         (xp (match diff with D1 => root | _ => root - 12 end)),
         (xp (match diff with D1 => root + 4 | _ => root end)),
         (xp (match diff with D1 => root + 7 | _ => root + 4 end)).
  unfold triads in Hroot; cbn [In] in Hroot.
  destruct Hroot as [<- | [<- | [<- | []]]]; destruct diff;
    (split; [apply Hthree; cbn; [tauto | tauto | tauto | lia | intros m Hm; intuition lia]|]);
    repeat split; vm_compute; reflexivity.
Qed.

Lemma collect_map_total {A B : Type} (f : A -> option B) (P : B -> Prop)
    (l : list A) :
  (forall x, In x l -> exists y, f x = Some y /\ P y) ->
  exists ys, collect (map f l) = Some ys
             /\ length ys = length l /\ List.Forall P ys.
Proof.
  induction l as [|x l IH]; intros H.
  - exists []. repeat split. constructor.
  - destruct (H x (or_introl eq_refl)) as (y & Hy & HP).
    destruct IH as (ys & Hys & Hlen & Hall).
    { intros z Hz. apply H. right. exact Hz. }
    exists (y :: ys). cbn [map collect]. rewrite Hy, Hys.
    split; [reflexivity|]. split; [cbn; congruence|].
    constructor; assumption.
Qed.

(** C10, as stated, fails where it says that every beat window holds
    exactly one treble event; in binary64 it does not.  At tempo 100 the
    window of bar 2, beat 2 is [3.0, 3.6), and it holds the onset
    5 * 0.6 = 3.0 of its own beat and the onset
    6 * 0.6 = 3.5999999999999996 of the next beat. *)
Lemma C10_one_event_per_window_counterexample :
  let spb := secondsPerBeatOf 100 in
  let events := fst (generateEvents C_MAJOR Meter_4_4 100 D1 sevenths) in
  exists e1 e2,
    List.filter (inBeatWindow 100 2 2) (trebleEvents events) = [e1; e2]
    /\ time e1 = (F64.ofZ 5 * spb)%f64
    /\ time e2 = (F64.ofZ 6 * spb)%f64
    /\ beatStartOf 100 2 2 = F64.ofZ 3
    /\ beatEndOf 100 2 2 = F64.ofDecimal 36 10
    /\ (time e2 <? F64.ofDecimal 36 10)%f64 = true.
Proof.
  do 2 eexists. split; [vm_compute; reflexivity|].
  repeat split; vm_compute; reflexivity.
Qed.

(** C10, amended: for every phrase generated in 4/4 at a listed tempo, with
    draws in [0,1), the encoder emits no rests.  Each of the 16 treble slots
    finds the treble event generated for its beat (the first event in time
    order whose onset falls in the beat window, which may hold a second
    one) and renders it as a pitched quarter note; each of the 4 bass groups
    finds the chord generated on the bar's first beat (onset equal to the
    bar start) and renders it as 4 beamed eighth notes in the pattern
    lowest, second lowest, third lowest, lowest again; the document has 4
    measures of 4 pitched treble notes and 4 pitched bass notes. *)
Theorem C10_encoder_fills_every_slot (mode : Mode) (bpm0 : Z) (diff : Difficulty)
    (g : Rng) :
  In bpm0 tempos -> unitDraws g ->
  let spb := secondsPerBeatOf bpm0 in
  let events := fst (generateEvents mode Meter_4_4 bpm0 diff g) in
  (forall bar beat, In bar slotIndices -> In beat slotIndices ->
     let k := (bar - 1) * 4 + (beat - 1) in
     exists p xp,
       In (trebleEventAt spb k p) events
       /\ List.find (inBeatWindow bpm0 bar beat) (trebleEvents events)
          = Some (trebleEventAt spb k p)
       /\ midiToXmlPitch p = Some xp
       /\ buildTrebleBeatNote events bpm0 bar beat = Some (pitchedQuarter xp))
  /\ (forall bar, In bar slotIndices ->
        exists root lowest second third x1 x2 x3,
          In root triads
          /\ chordEventsOf events bpm0 bar
             = chordEventsAt spb 4 ((bar - 1) * 4) root diff
          /\ threeLowest (buildChord root diff) lowest second third
          /\ midiToXmlPitch lowest = Some x1
          /\ midiToXmlPitch second = Some x2
          /\ midiToXmlPitch third = Some x3
          /\ buildBassGroup events bpm0 bar
             = Some [beamedEighth x1 beamBegin; beamedEighth x2 beamContinue;
                     beamedEighth x3 beamContinue; beamedEighth x1 beamEnd])
  /\ (exists doc,
        buildMusicXmlFromPhrase events bpm0 = Some doc
        /\ docTempo doc = bpm0
        /\ length (docMeasures doc) = 4%nat
        /\ List.Forall
             (fun ms => length (trebleSlots ms) = 4%nat
                        /\ length (bassGroup ms) = 4%nat
                        /\ List.Forall pitched (trebleSlots ms)
                        /\ List.Forall pitched (bassGroup ms))
             (docMeasures doc)).
Proof.
  intros Hbpm Hu spb events.
  destruct (generateEvents_parts mode bpm0 diff g)
    as (p0 & p1 & p2 & p3 & p4 & p5 & p6 & p7 & p8 & p9 & p10 & p11 & p12
        & p13 & p14 & p15 & r0 & r1 & r2 & r3 & Hps & Hrs & Hev).
  subst events. rewrite Hev. fold spb.
  set (ps := [p0; p1; p2; p3; p4; p5; p6; p7; p8; p9; p10; p11; p12; p13; p14; p15]) in *.
  set (rs := [r0; r1; r2; r3]) in *.
  set (events := phraseFromParts spb ps (map (fun r => buildChord r diff) rs)).
  assert (Htreble : forall bar beat, In bar slotIndices -> In beat slotIndices ->
            let k := (bar - 1) * 4 + (beat - 1) in
            exists p xp,
              In (trebleEventAt spb k p) events
              /\ List.find (inBeatWindow bpm0 bar beat) (trebleEvents events)
                 = Some (trebleEventAt spb k p)
              /\ midiToXmlPitch p = Some xp
              /\ buildTrebleBeatNote events bpm0 bar beat = Some (pitchedQuarter xp)).
  { intros bar beat Hbar Hbeat k.
    pose proof (treble_slot_found bpm0 diff p0 p1 p2 p3 p4 p5 p6 p7 p8 p9 p10
                  p11 p12 p13 p14 p15 r0 r1 r2 r3 bar beat Hbpm Hbar Hbeat) as Hf.
    cbv zeta in Hf. fold ps rs spb events k in Hf.
    assert (Hk : In k beatIndices).
    { subst k. each_slot Hbar; each_slot Hbeat; cbn; tauto. }
    assert (Hp : In (nth (Z.to_nat k) ps 0) ps).
    { subst k. each_slot Hbar; each_slot Hbeat; cbn; tauto. }
    assert (Hr : 60 <= nth (Z.to_nat k) ps 0 <= 84).
    { apply (drawnFrom_range (draws g)); [exact Hu | lia|].
      exact (proj1 (List.Forall_forall _ _) Hps _ Hp). }
    destruct (midiToXmlPitch_total (nth (Z.to_nat k) ps 0)) as (xp & Hxp); [lia|].
    exists (nth (Z.to_nat k) ps 0), xp.
    split; [|split; [exact Hf|split; [exact Hxp|]]].
    - unfold events, phraseFromParts. apply in_flat_map.
      exists k. split; [exact Hk | left; reflexivity].
    - unfold buildTrebleBeatNote. rewrite Hf. cbn [midi trebleEventAt].
      rewrite Hxp. reflexivity. }
  assert (Hbass : forall bar, In bar slotIndices ->
            exists root lowest second third x1 x2 x3,
              In root triads
              /\ chordEventsOf events bpm0 bar
                 = chordEventsAt spb 4 ((bar - 1) * 4) root diff
              /\ threeLowest (buildChord root diff) lowest second third
              /\ midiToXmlPitch lowest = Some x1
              /\ midiToXmlPitch second = Some x2
              /\ midiToXmlPitch third = Some x3
              /\ buildBassGroup events bpm0 bar
                 = Some [beamedEighth x1 beamBegin; beamedEighth x2 beamContinue;
                         beamedEighth x3 beamContinue; beamedEighth x1 beamEnd]).
  { intros bar Hbar.
    pose proof (bass_chord_found bpm0 diff p0 p1 p2 p3 p4 p5 p6 p7 p8 p9 p10
                  p11 p12 p13 p14 p15 r0 r1 r2 r3 bar Hbpm Hbar) as Hc.
    cbv zeta in Hc. fold ps rs spb events in Hc.
    assert (Hroot : In (nth (Z.to_nat (bar - 1)) rs 0) triads).
    { apply (proj1 (List.Forall_forall _ _) Hrs).
      each_slot Hbar; cbn; tauto. }
    destruct (bass_group_of_chord events bpm0 bar spb _ _ diff Hroot Hc)
      as (lo & se & th & x1 & x2 & x3 & H3 & H1 & H2 & H4 & Hg).
    exists (nth (Z.to_nat (bar - 1)) rs 0), lo, se, th, x1, x2, x3.
    repeat split; try assumption; apply H3. }
  split; [exact Htreble|]. split; [exact Hbass|].
  unfold buildMusicXmlFromPhrase. change [1; 2; 3; 4] with slotIndices.
  destruct (collect_map_total (buildMeasure events bpm0)
              (fun ms => length (trebleSlots ms) = 4%nat
                         /\ length (bassGroup ms) = 4%nat
                         /\ List.Forall pitched (trebleSlots ms)
                         /\ List.Forall pitched (bassGroup ms))
              slotIndices) as (ms & -> & Hlen & Hall).
  - intros bar Hbar. unfold buildMeasure. change [1; 2; 3; 4] with slotIndices.
    destruct (collect_map_total (buildTrebleBeatNote events bpm0 bar) pitched
                slotIndices) as (slots & -> & Hl & Hp).
    { intros beat Hbeat.
      destruct (Htreble bar beat Hbar Hbeat) as (p & xp & _ & _ & _ & ->).
      eexists. split; [reflexivity | discriminate]. }
    destruct (Hbass bar Hbar) as (root & lo & se & th & x1 & x2 & x3 & _ & _ & _ & _ & _ & _ & ->).
    eexists. split; [reflexivity|]. cbn [trebleSlots bassGroup].
    split; [exact Hl|]. split; [reflexivity|]. split; [exact Hp|].
    repeat constructor; discriminate.
  - eexists. split; [reflexivity|]. cbn [docTempo docMeasures].
    split; [reflexivity|]. split; [exact Hlen | exact Hall].
Qed.

Lemma C10_encoder_fills_every_slot_witness :
  exists doc,
    buildMusicXmlFromPhrase (fst (generateEvents A_MINOR Meter_4_4 140 D3 sevenths)) 140
    = Some doc
    /\ docTempo doc = 140
    /\ length (docMeasures doc) = 4%nat
    /\ List.Forall
         (fun ms => length (trebleSlots ms) = 4%nat
                    /\ length (bassGroup ms) = 4%nat
                    /\ List.Forall pitched (trebleSlots ms)
                    /\ List.Forall pitched (bassGroup ms))
         (docMeasures doc).
Proof.
  apply (C10_encoder_fills_every_slot A_MINOR 140 D3 sevenths).
  - unfold tempos; cbn [In]; tauto.
  - exact sevenths_unitDraws.
Defined.

(** ** Comparisons of binary64 values *)

Lemma SFcompare_antisym (x y : spec_float) :
  SFcompare x y = option_map CompOpp (SFcompare y x).
Proof.
  destruct x as [sx | sx | | sx mx ex], y as [sy | sy | | sy my ey];
    cbn [SFcompare option_map CompOpp];
    try reflexivity;
    try (destruct sx; reflexivity);
    try (destruct sy; reflexivity);
    try (destruct sx, sy; reflexivity).
  assert (Hm : Pos.compare_cont Eq mx my = CompOpp (Pos.compare_cont Eq my mx)).
  { rewrite Pos.compare_cont_antisym. reflexivity. }
  destruct sx, sy; cbn [CompOpp]; try reflexivity;
    rewrite (Z.compare_antisym ey ex), Hm;
    destruct (ey ?= ex); cbn [CompOpp]; try reflexivity;
    destruct (Pos.compare_cont Eq my mx); reflexivity.
Qed.

(** [x >= y] is [y <= x], and [x > y] is [y < x]. *)
Lemma geb_leb (x y : F64.float) : (x >=? y)%f64 = (y <=? x)%f64.
Proof.
  unfold F64.geb, F64.leb, SFleb. rewrite (SFcompare_antisym y x).
  destruct (SFcompare x y) as [[ | | ]|]; reflexivity.
Qed.

Lemma gtb_ltb (x y : F64.float) : (x >? y)%f64 = (y <? x)%f64.
Proof.
  unfold F64.gtb, F64.ltb, SFltb. rewrite (SFcompare_antisym y x).
  destruct (SFcompare x y) as [[ | | ]|]; reflexivity.
Qed.

(** ** Active-note tracker *)

Lemma activeNotesAt_elem (elapsed : F64.float) (evs : list NoteEvent) (m : Z) :
  m ∈ activeNotesAt elapsed evs
  <-> exists e, In e evs /\ midi e = m /\ sounding elapsed e = true.
Proof.
  unfold activeNotesAt.
  assert (H : forall acc : gset Z,
             m ∈ fold_left (fun set ev => if sounding elapsed ev
                                          then {[midi ev]} ∪ set else set) evs acc
             <-> m ∈ acc \/ exists e, In e evs /\ midi e = m /\ sounding elapsed e = true).
  { induction evs as [|ev evs IH]; intros acc; cbn [fold_left].
    - split; [tauto|]. intros [H | (e & [] & _)]. exact H.
    - rewrite IH. destruct (sounding elapsed ev) eqn:Hs.
      + rewrite elem_of_union, elem_of_singleton. split.
        * intros [[-> | H] | (e & He & Hm & Hse)]; [right | left | right].
          -- exists ev. split; [left; reflexivity | split; [reflexivity | exact Hs]].
          -- exact H.
          -- exists e. split; [right; exact He | split; assumption].
        * intros [H | (e & [<- | He] & Hm & Hse)].
          -- left. right. exact H.
          -- left. left. symmetry. exact Hm.
          -- right. exists e. split; [exact He | split; assumption].
      + split.
        * intros [H | (e & He & Hm & Hse)]; [left; exact H | right].
          exists e. split; [right; exact He | split; assumption].
        * intros [H | (e & [<- | He] & Hm & Hse)]; [left; exact H | congruence | right].
          exists e. split; [exact He | split; assumption]. }
  rewrite H. split; [intros [Hm | Hm]; [set_solver | exact Hm] | tauto].
Qed.

(** C7: a tracker tick empties the active set when Idle; when Playing the
    active set is the set of pitches of the events [e] of the phrase with
    [e.time <= elapsed <= e.time + e.duration], both ends included, for
    [elapsed = (now - phraseStart) / 1000].  For the single event
    [{time: 0, duration: 1, midi: 60}], 500 ms and 1000 ms after the start
    the set is {60}, 1500 ms after it is empty. *)
Theorem C7_active_set_closed_interval (now : Z) (st : Session) :
  let st' := updateActiveNotes now st in
  let elapsed := elapsedAt now st in
  (isPlaying st = false -> activeMidiSet st' = ∅)
  /\ (isPlaying st = true ->
      forall m : Z,
        m ∈ activeMidiSet st'
        <-> exists e, In e (noteEvents st) /\ midi e = m
                      /\ (time e <=? elapsed)%f64 = true
                      /\ (elapsed <=? time e + duration e)%f64 = true)
  /\ (forall start : Z,
        elapsedAt (start + 500) (singleNoteSession start) = F64.ofDecimal 5 10
        /\ activeMidiSet (updateActiveNotes (start + 500) (singleNoteSession start))
           = {[60]}
        /\ elapsedAt (start + 1000) (singleNoteSession start) = F64.one
        /\ activeMidiSet (updateActiveNotes (start + 1000) (singleNoteSession start))
           = {[60]}
        /\ elapsedAt (start + 1500) (singleNoteSession start) = F64.ofDecimal 15 10
        /\ activeMidiSet (updateActiveNotes (start + 1500) (singleNoteSession start))
           = ∅).
Proof.
  intros st' elapsed. subst st'. unfold updateActiveNotes.
  split; [|split].
  - intros ->. reflexivity.
  - intros -> m. cbn [negb setActive activeMidiSet]. fold elapsed.
    rewrite activeNotesAt_elem. unfold sounding.
    split; intros (e & He & Hm & Hs); exists e; (split; [exact He|]);
      (split; [exact Hm|]).
    + apply andb_true_iff in Hs as [H1 H2]. rewrite geb_leb in H1. split; assumption.
    + destruct Hs as [H1 H2]. rewrite geb_leb, H1, H2. reflexivity.
  - intros start.
    assert (He : forall d, elapsedAt (start + d) (singleNoteSession start)
                           = (F64.ofZ d / F64.ofZ 1000)%f64).
    { intros d. unfold elapsedAt. cbn [singleNoteSession setPlayback phraseStart].
      f_equal. f_equal. lia. }
    unfold updateActiveNotes.
    cbn [singleNoteSession setPlayback setPhrase isPlaying negb noteEvents
           setActive activeMidiSet].
    change (setPlayback start true
              (setPhrase [mkNoteEvent F64.zero F64.one 60 treble false] sevenths
                 (initialSession sevenths)))
      with (singleNoteSession start).
    rewrite !He.
    repeat split; vm_compute; reflexivity.
Qed.

(** ** Progress indicator *)

(** C9, as the specification states it, fails for a negative [elapsed]:
    only the upper bound is clamped.  Playing since 1000 ms, a tick that
    reads the clock at 0 ms has [elapsed = -1] and reports the negative
    ratio [-1 / 9.6]. *)
Lemma C9_progress_negative_counterexample :
  isPlaying playingSession = true
  /\ phraseStart playingSession = 1000
  /\ elapsedAt 0 playingSession = F64.ofZ (-1)
  /\ progress (updateProgress 0 playingSession)
     = (F64.ofZ (-1) / F64.ofDecimal 96 10)%f64
  /\ (progress (updateProgress 0 playingSession) <? F64.zero)%f64 = true.
Proof.
  repeat split; vm_compute; reflexivity.
Qed.

Lemma negative_not_above_one (p : F64.float) :
  (p <? F64.zero)%f64 = true -> (p >? F64.one)%f64 = false.
Proof.
  unfold F64.ltb, F64.gtb, SFltb.
  destruct p as [s | [|] | | [|] m e]; cbn; intros H;
    try discriminate H; reflexivity.
Qed.

(** C9, amended: a progress tick reports 0 when Idle and, when Playing, the
    ratio [elapsed / phraseDuration] capped at 1 and not bounded below.  The
    reported value is never above 1; it is at least 0 whenever the ratio is,
    and a negative ratio is reported as it is. *)
Theorem C9_progress_capped_above (now : Z) (st : Session) :
  let st' := updateProgress now st in
  let ratio := (elapsedAt now st / phraseDuration st)%f64 in
  (isPlaying st = false -> progress st' = F64.zero)
  /\ (isPlaying st = true ->
      progress st' = if (ratio >? F64.one)%f64 then F64.one else ratio)
  /\ (progress st' >? F64.one)%f64 = false
  /\ (isPlaying st = true -> (F64.zero <=? ratio)%f64 = true ->
      (F64.zero <=? progress st')%f64 = true)
  /\ (isPlaying st = true -> (ratio <? F64.zero)%f64 = true ->
      progress st' = ratio).
Proof.
  intros st' ratio. subst st'. unfold updateProgress. fold ratio.
  destruct (isPlaying st); cbn [negb setProgress progress].
  - split; [discriminate|]. split; [reflexivity|].
    split; [destruct (ratio >? F64.one)%f64 eqn:H; [reflexivity | exact H]|].
    split.
    + intros _ H0. destruct (ratio >? F64.one)%f64; [reflexivity | exact H0].
    + intros _ Hneg. rewrite (negative_not_above_one ratio Hneg). reflexivity.
  - split; [reflexivity|]. split; [discriminate|].
    split; [reflexivity|]. split; discriminate.
Qed.

(** ** Invariants of the session *)

Lemma lookup_clear (ids : list nat) (ts : gmap nat Timer) (i : nat) :
  fold_left (fun ts id => delete id ts) ids ts !! i
  = if in_dec Nat.eq_dec i ids then None else ts !! i.
Proof.
  revert ts. induction ids as [|id ids IH]; intros ts; cbn [fold_left].
  - destruct (in_dec Nat.eq_dec i []) as [[] | _]. reflexivity.
  - rewrite IH. destruct (in_dec Nat.eq_dec i ids) as [Hin | Hout].
    + destruct (in_dec Nat.eq_dec i (id :: ids)) as [_ | Hn]; [reflexivity|].
      exfalso. apply Hn. right. exact Hin.
    + destruct (in_dec Nat.eq_dec i (id :: ids)) as [[-> | Hin] | Hn].
      * apply lookup_delete_eq.
      * contradiction.
      * apply lookup_delete_ne. intros ->. apply Hn. left. reflexivity.
Qed.

Lemma clear_all (ids : list nat) (ts : gmap nat Timer) :
  (forall id, is_Some (ts !! id) -> In id ids) ->
  fold_left (fun ts id => delete id ts) ids ts = ∅.
Proof.
  intros H. apply map_eq. intros i. rewrite lookup_clear, lookup_empty.
  destruct (in_dec Nat.eq_dec i ids) as [_ | Hn]; [reflexivity|].
  destruct (ts !! i) eqn:Hi; [|reflexivity].
  exfalso. apply Hn, H. rewrite Hi. eexists. reflexivity.
Qed.


(** Scheduling the triggers of a list of events keeps what each single
    [scheduleTimer] keeps. *)
Lemma scheduleAll_keeps (I : Session -> Prop) (delay : NoteEvent -> F64.float)
    (evs : list NoteEvent) :
  (forall st d cb, I st -> I (scheduleTimer d cb st)) ->
  forall st, I st ->
  I (fold_left (fun st ev => scheduleTimer (delay ev) (NoteTrigger ev) st) evs st).
Proof.
  intros Hstep. induction evs as [|ev evs IH]; intros st Hst; cbn [fold_left].
  - exact Hst.
  - apply IH, Hstep, Hst.
Qed.

Lemma scheduleTimer_listed (st : Session) (d : F64.float) (cb : Callback) :
  timersListed st -> timersListed (scheduleTimer d cb st).
Proof.
  intros [H1 H2]. unfold timersListed, scheduleTimer.
  destruct st; cbn [timers playbackTimers nextTimerId setTimers] in *.
  split.
  - intros id Hid. apply in_or_app.
    destruct (decide (id = nextTimerId0)) as [-> | Hne].
    + right. left. reflexivity.
    + left. apply H1. rewrite lookup_insert_ne in Hid by congruence. exact Hid.
  - intros id Hid. apply in_app_or in Hid as [Hid | [<- | []]].
    + specialize (H2 id Hid). lia.
    + lia.
Qed.

Lemma wellFormed_ensureAudio (st : Session) :
  wellFormed st -> wellFormed (ensureAudio st).
Proof.
  intros Hwf. unfold ensureAudio.
  destruct (pianoSampler st) eqn:Hp; [exact Hwf|].
  destruct Hwf as (H1 & H2 & H3 & _).
  destruct st; cbn in *.
  exact (conj H1 (conj H2 (conj H3 (fun _ => eq_refl)))).
Qed.

Lemma wellFormed_startPlayback (now : Z) (st : Session) :
  wellFormed st -> wellFormed (startPlayback now st).
Proof.
  intros Hwf. unfold startPlayback.
  pose proof (wellFormed_ensureAudio st Hwf) as He.
  destruct (negb (pianoSampler (ensureAudio st))
            || negb (samplerLoaded (ensureAudio st))) eqn:Hready; [exact He|].
  destruct He as (E1 & E2 & E3 & E4).
  set (st1 := setPlayback now true (clearPlayback (ensureAudio st))).
  assert (Hl1 : timersListed st1
                /\ isPlaying st1 = true
                /\ (samplerLoaded st1 = true -> pianoSampler st1 = true)).
  { subst st1. unfold clearPlayback.
    rewrite (clear_all _ _ E1).
    destruct (ensureAudio st); unfold timersListed; cbn in *.
    split; [split|split; [reflexivity | exact E4]].
    - intros id [x Hx]. rewrite lookup_empty in Hx. discriminate Hx.
    - intros id []. }
  pose (I := fun s : Session =>
               timersListed s /\ isPlaying s = true
               /\ (samplerLoaded s = true -> pianoSampler s = true)).
  assert (HI : forall s d cb, I s -> I (scheduleTimer d cb s)).
  { intros s d cb (A & B & C). split; [apply scheduleTimer_listed; exact A|].
    destruct s; cbn in *. split; assumption. }
  assert (Hfin : I (scheduleTimer
                      (phraseDuration
                         (fold_left
                            (fun st ev => scheduleTimer (time ev * F64.ofZ 1000)%f64
                                            (NoteTrigger ev) st)
                            (noteEvents st1) st1) * F64.ofZ 1000 + F64.ofZ 50)%f64
                      LoopRestart
                      (fold_left
                         (fun st ev => scheduleTimer (time ev * F64.ofZ 1000)%f64
                                         (NoteTrigger ev) st)
                         (noteEvents st1) st1))).
  { apply HI.
    apply (scheduleAll_keeps I (fun ev => (time ev * F64.ofZ 1000)%f64)
             (noteEvents st1) HI st1 Hl1). }
  destruct Hfin as ((A1 & A2) & B & C).
  repeat split; try assumption. intros Hf. fold st1 in Hf. congruence.
Qed.

Lemma wellFormed_stopPlayback (st : Session) :
  wellFormed st -> wellFormed (stopPlayback st).
Proof.
  intros (H1 & H2 & H3 & H4). unfold stopPlayback, clearPlayback, wellFormed.
  destruct st; cbn in *. rewrite (clear_all _ _ H1).
  split; [|split; [|split]].
  - intros id [x Hx]. rewrite lookup_empty in Hx. discriminate Hx.
  - intros id [].
  - reflexivity.
  - exact H4.
Qed.

Lemma wellFormed_generatePhrase (st : Session) :
  wellFormed st -> wellFormed (generatePhrase st).
Proof.
  intros Hwf. unfold generatePhrase, wellFormed in *.
  destruct st; cbn in *. exact Hwf.
Qed.

Lemma wellFormed_fireTimer (id : nat) (st : Session) :
  wellFormed st -> wellFormed (fireTimer id st).
Proof.
  intros Hwf. unfold fireTimer.
  destruct (timers st !! id) as [t|] eqn:Ht; [|exact Hwf].
  assert (Hdel : wellFormed (setTimers (playbackTimers st) (delete id (timers st))
                               (nextTimerId st) st)).
  { destruct Hwf as (H1 & H2 & H3 & H4). unfold wellFormed.
    destruct st; cbn in *.
    split; [|split; [|split]]; try assumption.
    intros i Hi. apply H1.
    destruct (decide (id = i)) as [-> | Hne].
    - rewrite lookup_delete_eq in Hi. destruct Hi as [x Hx]. discriminate Hx.
    - rewrite lookup_delete_ne in Hi by exact Hne. exact Hi. }
  destruct (timerCallback t) as [ev|].
  - match goal with
    | |- wellFormed (if ?c then _ else _) => destruct c
    end; [exact Hdel|].
    unfold wellFormed in *. destruct st; cbn in *. exact Hdel.
  - match goal with
    | |- wellFormed (if ?c then _ else _) => destruct c
    end; [exact Hdel|].
    apply wellFormed_generatePhrase in Hdel.
    unfold wellFormed in *.
    destruct (generatePhrase _); cbn in *. exact Hdel.
Qed.

Lemma wellFormed_step (st : Session) (e : Event) :
  wellFormed st -> wellFormed (sessionStep st e).
Proof.
  intros Hwf. destruct e as [ | | now | | | id | c | now | m]; cbn [sessionStep].
  - apply wellFormed_ensureAudio, Hwf.
  - unfold wellFormed in *. destruct st; cbn in *. exact Hwf.
  - destruct (pendingStarts st) as [|n] eqn:Hn; [exact Hwf|].
    apply wellFormed_startPlayback.
    unfold wellFormed in *. destruct st; cbn in *. exact Hwf.
  - apply wellFormed_stopPlayback, Hwf.
  - unfold samplerOnload. destruct (pianoSampler st) eqn:Hp; [|exact Hwf].
    destruct Hwf as (H1 & H2 & H3 & _). unfold wellFormed.
    destruct st; cbn in *.
    exact (conj H1 (conj H2 (conj H3 (fun _ => eq_refl)))).
  - apply wellFormed_fireTimer, Hwf.
  - assert (Hw : wellFormed (applyParam c st)).
    { unfold wellFormed in *. destruct c, st; cbn in *; exact Hwf. }
    unfold paramChange, onParamsChanged. cbv zeta.
    destruct (changesValue c st); [apply wellFormed_generatePhrase|]; exact Hw.
  - unfold updateProgress, updateActiveNotes, wellFormed in *.
    destruct st as [? ? ? ? ? ? playing ? ? ? ? ? ? ? ? ? ?]; cbn in *.
    destruct playing; cbn in *; exact Hwf.
  - unfold playMidiOnce. pose proof (wellFormed_ensureAudio st Hwf) as He.
    match goal with
    | |- wellFormed (if ?c then _ else _) => destruct c
    end; [exact He|].
    unfold wellFormed in *. destruct (ensureAudio st); cbn in *. exact He.
Qed.

Lemma wellFormed_run (tr : list Event) :
  forall st, wellFormed st -> wellFormed (run st tr).
Proof.
  unfold run. induction tr as [|e tr IH]; intros st Hwf; cbn [fold_left].
  - exact Hwf.
  - apply IH, wellFormed_step, Hwf.
Qed.

Lemma wellFormed_mounted (g : Rng) : wellFormed (mountedSession g).
Proof.
  unfold mountedSession. apply wellFormed_generatePhrase.
  unfold wellFormed; cbn.
  split; [|split; [|split]]; try tauto; try discriminate.
  intros id [x Hx]. rewrite lookup_empty in Hx. discriminate Hx.
Qed.

Lemma reachable_wellFormed (st : Session) : reachable st -> wellFormed st.
Proof.
  intros (g & tr & ->). apply wellFormed_run, wellFormed_mounted.
Qed.

(** ** Start, stop and parameter changes *)

(** C6: when the audio backend is not ready (no sampler, or samples not yet
    loaded), [startPlayback] does what [ensureAudio] alone does: it leaves
    [isPlaying], [phraseStart], the pending timers and every other field of
    the session unchanged (at most the sampler object is created), and the
    call and its resumption together leave [pendingStarts] unchanged too. *)
Theorem C6_start_not_ready_is_noop (now : Z) (st : Session) :
  reachable st ->
  pianoSampler st = false \/ samplerLoaded st = false ->
  let st' := startPlayback now st in
  st' = ensureAudio st
  /\ sameSession st' st
  /\ pendingStarts st' = pendingStarts st
  /\ backendReady st' = false
  /\ sameSession (run st [StartCalled; StartResumed now]) st
  /\ pendingStarts (run st [StartCalled; StartResumed now]) = pendingStarts st.
Proof.
  intros Hr Hnot st'.
  destruct (reachable_wellFormed st Hr) as (_ & _ & _ & H4).
  assert (Hl : samplerLoaded st = false).
  { destruct Hnot as [Hp | Hl]; [|exact Hl].
    destruct (samplerLoaded st); [|reflexivity].
    rewrite H4 in Hp by reflexivity. discriminate Hp. }
  subst st'. cbn [run fold_left sessionStep].
  unfold startPlayback, ensureAudio, sameSession, backendReady.
  destruct st as [? ? ? ? ? ? ? ? ? sampler loaded ? ? ? ? ? ?]; cbn in *.
  subst loaded.
  destruct sampler; cbn; repeat split; reflexivity.
Qed.

Lemma C6_start_not_ready_witness :
  let absent := mountedSession sevenths in
  let loading := run (mountedSession sevenths) [AudioEnsured] in
  (pianoSampler absent = false
   /\ sameSession (startPlayback 1000 absent) absent)
  /\ (pianoSampler loading = true /\ samplerLoaded loading = false
      /\ sameSession (startPlayback 1000 loading) loading).
Proof.
  assert (Ra : reachable (mountedSession sevenths)).
  { exists sevenths, []. reflexivity. }
  assert (Rl : reachable (run (mountedSession sevenths) [AudioEnsured])).
  { exists sevenths, [AudioEnsured]. reflexivity. }
  assert (Ha : pianoSampler (mountedSession sevenths) = false)
    by (vm_compute; reflexivity).
  assert (Hl : samplerLoaded (run (mountedSession sevenths) [AudioEnsured]) = false)
    by (vm_compute; reflexivity).
  cbv zeta. split; [split; [exact Ha|] | split; [vm_compute; reflexivity|split; [exact Hl|]]].
  - exact (proj1 (proj2 (C6_start_not_ready_is_noop 1000 _ Ra (or_introl Ha)))).
  - exact (proj1 (proj2 (C6_start_not_ready_is_noop 1000 _ Rl (or_intror Hl)))).
Defined.

(** C1, as the specification states it, fails: a parameter change while
    Playing regenerates the phrase but does not stop.  After the tempo is
    set to 120 the session is still Playing and its 29 triggers (28 notes
    and the loop restart) are still pending. *)
Lemma C1_param_change_keeps_playing_counterexample :
  let st' := sessionStep playingSession (ParamChanged (SetBpm 120)) in
  isPlaying playingSession = true
  /\ isPlaying st' = true
  /\ timers st' = timers playingSession
  /\ length (playbackTimers st') = 29%nat
  /\ (forall id, In id (playbackTimers st') -> is_Some (timers st' !! id)).
Proof.
  cbv zeta. split; [vm_compute; reflexivity|].
  split; [vm_compute; reflexivity|].
  split; [vm_compute; reflexivity|].
  split; [vm_compute; reflexivity|].
  intros id Hid.
  assert (Hids : playbackTimers (sessionStep playingSession (ParamChanged (SetBpm 120)))
                 = seq 0 29) by (vm_compute; reflexivity).
  rewrite Hids in Hid. cbn [seq In] in Hid.
  repeat (destruct Hid as [<- | Hid]; [vm_compute; eexists; reflexivity|]).
  destruct Hid.
Qed.

(** A write of the value a parameter already has does not run the watcher
    and changes nothing; the meter has one value, so that a write to it
    never does. *)
Remark paramChange_same_value (c : ParamChange) (st : Session) :
  (changesValue c st = false -> paramChange c st = st)
  /\ (forall m, changesValue (SetMeter m) st = false).
Proof.
  split.
  - intros Hc. unfold paramChange. cbv zeta. rewrite Hc.
    destruct c as [m | m | b | d]; cbn [changesValue applyParam] in *;
      apply negb_false_iff in Hc.
    + destruct st as [m0 ? ? ? ? ? ? ? ? ? ? ? ? ? ? ? ?]; cbn in *.
      destruct m, m0; try discriminate Hc; reflexivity.
    + destruct st as [? m0 ? ? ? ? ? ? ? ? ? ? ? ? ? ? ?]; cbn in *.
      destruct m, m0; reflexivity.
    + apply Z.eqb_eq in Hc. destruct st; cbn in *. subst. reflexivity.
    + destruct st as [? ? ? d0 ? ? ? ? ? ? ? ? ? ? ? ? ?]; cbn in *.
      destruct d, d0; try discriminate Hc; reflexivity.
  - intros m. cbn [changesValue]. destruct m, (selectedMeter st). reflexivity.
Qed.

(** C1, amended: a parameter-change event that changes the value of its
    parameter (the mode, the tempo or the difficulty: the meter has one
    value) writes the parameter and regenerates the phrase from the new
    parameters, and nothing else: it does not stop playback.  [isPlaying],
    [phraseStart], the pending triggers and the backend log are what they
    were. *)
Theorem C1_param_change_regenerates_only (c : ParamChange) (st : Session) :
  changesValue c st = true ->
  let st' := paramChange c st in
  let written := applyParam c st in
  (selectedMode st', selectedMeter st', bpm st', difficulty st')
  = (selectedMode written, selectedMeter written, bpm written, difficulty written)
  /\ noteEvents st'
     = fst (generateEvents (selectedMode written) (selectedMeter written)
              (bpm written) (difficulty written) (rng st))
  /\ isPlaying st' = isPlaying st
  /\ phraseStart st' = phraseStart st
  /\ timers st' = timers st
  /\ playbackTimers st' = playbackTimers st
  /\ pendingStarts st' = pendingStarts st
  /\ audioLog st' = audioLog st.
Proof.
  intros Hc. unfold paramChange. cbv zeta. rewrite Hc.
  unfold onParamsChanged, generatePhrase.
  destruct c, st; repeat split; reflexivity.
Qed.

Lemma C1_param_change_regenerates_witness :
  let st' := paramChange (SetBpm 120) playingSession in
  bpm st' = 120
  /\ noteEvents st'
     = fst (generateEvents C_MAJOR Meter_4_4 120 D1 (rng playingSession))
  /\ isPlaying st' = true
  /\ timers st' = timers playingSession.
Proof.
  assert (Hc : changesValue (SetBpm 120) playingSession = true)
    by (vm_compute; reflexivity).
  pose proof (C1_param_change_regenerates_only (SetBpm 120) playingSession Hc) as H.
  cbv zeta in H. destruct H as (H1 & H2 & H3 & _ & H5 & _).
  cbv zeta. split; [|split; [|split]].
  - vm_compute. reflexivity.
  - rewrite H2. vm_compute. reflexivity.
  - rewrite H3. vm_compute. reflexivity.
  - exact H5.
Defined.













(** C5 fails on the code when a [startPlayback] is suspended at its
    [await] while [stopPlayback] runs.  From the Idle session with its
    samples loaded: [startPlayback()] is called, [stopPlayback()] is called
    and returns (the session is Idle, no timer is pending), and then the
    start resumes.  Nothing checks that a stop came in between: the session
    is Playing, and with no further call of [startPlayback] and no key
    pressed, the 28 note triggers of that start sound the whole phrase. *)
Lemma C5_stop_before_start_resumes_sounds :
  let st0 := run (mountedSession sevenths) [AudioEnsured; SamplerLoadedEv] in
  let stopped := run st0 [StartCalled; StopCalled] in
  let later := StartResumed 1000 :: map TimerFired (seq 0 28) in
  isPlaying st0 = false
  /\ isPlaying stopped = false
  /\ timers stopped = ∅
  /\ audioLog stopped = []
  /\ forallb quiet later = true
  /\ isPlaying (run stopped later) = true
  /\ audioLog (run stopped later) = callsFrom 0 (noteEvents st0)
  /\ length (audioLog (run stopped later)) = 28%nat.
Proof.
  cbv zeta.
  split; [vm_compute; reflexivity|]. split; [vm_compute; reflexivity|].
  split; [vm_compute; reflexivity|]. split; [vm_compute; reflexivity|].
  split; [vm_compute; reflexivity|]. split; [vm_compute; reflexivity|].
  split; vm_compute; reflexivity.
Qed.

(** The suspension of [startPlayback] at its [await] is visible: when the
    loop timer (id 28 here) has fired and called [startPlayback], a stop
    that arrives before the call resumes cancels nothing of the restart,
    and the session plays again once it resumes.  The triggers of that
    restart are registered after the stop. *)
Remark stop_during_restart_resumes :
  let st := run playingSession [TimerFired 28; StopCalled; StartResumed 11000] in
  isPlaying (run playingSession [TimerFired 28; StopCalled]) = false
  /\ isPlaying st = true
  /\ length (playbackTimers st) = 29%nat
  /\ nextTimerId (run playingSession [TimerFired 28; StopCalled]) = 29%nat
  /\ playbackTimers st = seq 29 29.
Proof.
  repeat split; vm_compute; reflexivity.
Qed.

(** * Further properties of the component *)

Ltac open_session st :=
  destruct st as [s_mode s_meter s_bpm s_diff s_events s_start s_playing
                  s_active s_progress s_sampler s_loaded s_ids s_rng s_timers
                  s_next s_pending s_log].

(** ** Pitch spelling *)

Lemma pitchClass_cases (m : Z) :
  0 <= pitchClass m ->
  pitchClass m = m mod 12 /\ m = 12 * (m / 12) + pitchClass m
  /\ 0 <= pitchClass m < 12.
Proof.
  unfold pitchClass. intros H.
  assert (Hrm : Z.rem m 12 = m mod 12).
  { destruct (Z.le_gt_cases 0 m) as [Hm | Hm].
    - apply Z.rem_mod_nonneg; lia.
    - assert (Hb : Z.rem m 12 <= 0).
      { replace m with (- - m) by lia. rewrite Z.rem_opp_l by lia.
        pose proof (Z.rem_bound_pos (- m) 12 ltac:(lia) ltac:(lia)). lia. }
      assert (H0 : Z.rem m 12 = 0) by lia.
      pose proof (Z.quot_rem' m 12) as Hq. rewrite H0 in *.
      symmetry. apply Z.mod_divide; [lia|]. exists (Z.quot m 12). lia. }
  rewrite Hrm. pose proof (Z.mod_pos_bound m 12 ltac:(lia)).
  pose proof (Z.div_mod m 12 ltac:(lia)). lia.
Qed.

(** X1: the score spelling of a pitch denotes that pitch: octave, letter
    and alteration add up to the MIDI number again, the alteration is 0 or
    1 (a sharp, never a flat), E and B are never sharpened, and the
    spelling is sharp exactly for the black keys.  The spelling fails
    exactly when [midi % 12] is negative. *)
Theorem X1_midiToXmlPitch_round_trip (m : Z) :
  (midiToXmlPitch m = None <-> pitchClass m < 0)
  /\ (forall xp, midiToXmlPitch m = Some xp ->
        xmlPitchToMidi xp = m
        /\ octave xp = m / 12 - 1
        /\ (alter xp = 0 \/ alter xp = 1)
        /\ (alter xp = 1 <-> isBlack m = true)
        /\ (alter xp = 1 -> step xp <> StepE /\ step xp <> StepB)).
Proof.
  unfold midiToXmlPitch, isBlack.
  destruct (Z.ltb_spec (pitchClass m) 0) as [Hneg | Hpos].
  - split; [split; [intros _; exact Hneg | reflexivity]|]. discriminate.
  - destruct (pitchClass_cases m Hpos) as (_ & Hm & Hb).
    assert (Hc : pitchClass m = 0 \/ pitchClass m = 1 \/ pitchClass m = 2
                 \/ pitchClass m = 3 \/ pitchClass m = 4 \/ pitchClass m = 5
                 \/ pitchClass m = 6 \/ pitchClass m = 7 \/ pitchClass m = 8
                 \/ pitchClass m = 9 \/ pitchClass m = 10 \/ pitchClass m = 11) by lia.
    split.
    + split; [|lia].
      repeat (destruct Hc as [Hc | Hc]; [rewrite Hc; discriminate|]).
      rewrite Hc; discriminate.
    + intros xp Hxp.
      repeat (destruct Hc as [Hc | Hc];
              [rewrite Hc in *; cbn in Hxp; injection Hxp as <-;
               unfold xmlPitchToMidi; cbn;
               (split; [lia|]); (split; [reflexivity|]);
               (split; [lia|]);
               (split; [split; (discriminate || reflexivity || lia)|]);
               (intros Ha; split; (discriminate || lia))|]).
      rewrite Hc in *; cbn in Hxp; injection Hxp as <-;
        unfold xmlPitchToMidi; cbn;
        (split; [lia|]); (split; [reflexivity|]);
        (split; [lia|]);
        (split; [split; (discriminate || reflexivity || lia)|]);
        (intros Ha; split; (discriminate || lia)).
Qed.

Module LabelFacts.
Import Stdlib.Strings.String.

(** X2: the label of a key and the score spelling of its pitch agree: for
    every pitch that has a spelling, [midiToName] is the letter, a sharp
    sign when the spelling is sharp, and the octave number.  Middle C is
    C4, and the keyboard runs from A0 to C8. *)
Theorem X2_midiToName_reads_as_spelling (m : Z) :
  (forall xp, midiToXmlPitch m = Some xp ->
     Labels.midiToName m = Labels.spellingLabel xp)
  /\ Labels.midiToName 60 = "C4"%string
  /\ Labels.midiToName 21 = "A0"%string
  /\ Labels.midiToName 108 = "C8"%string
  /\ Labels.midiToName 61 = "C#4"%string.
Proof.
  split; [|repeat split; reflexivity].
  intros xp. unfold midiToXmlPitch, Labels.midiToName, Labels.nameAt.
  fold (pitchClass m).
  destruct (Z.ltb_spec (pitchClass m) 0) as [Hneg | Hpos]; [discriminate|].
  destruct (pitchClass_cases m Hpos) as (_ & _ & Hb).
  assert (Hc : pitchClass m = 0 \/ pitchClass m = 1 \/ pitchClass m = 2
               \/ pitchClass m = 3 \/ pitchClass m = 4 \/ pitchClass m = 5
               \/ pitchClass m = 6 \/ pitchClass m = 7 \/ pitchClass m = 8
               \/ pitchClass m = 9 \/ pitchClass m = 10 \/ pitchClass m = 11) by lia.
  intros Hxp.
  repeat (destruct Hc as [Hc | Hc];
          [rewrite Hc in *; cbn in Hxp; injection Hxp as <-; reflexivity|]).
  rewrite Hc in *; cbn in Hxp; injection Hxp as <-; reflexivity.
Qed.

End LabelFacts.

(** ** The keyboard table *)

Lemma keysOf_keysFrom (midis : list Z) : keysOf midis = keysFrom 0 midis.
Proof.
  unfold keysOf.
  assert (H : forall res wc,
             fst (fold_left pushKey midis (res, wc)) = res ++ keysFrom wc midis).
  { induction midis as [|m midis IH]; intros res wc; cbn [fold_left keysFrom].
    - cbn. symmetry. apply app_nil_r.
    - unfold pushKey at 2. cbn [fst snd].
      destruct (isBlack m); cbn [negb]; rewrite IH, <- app_assoc; reflexivity. }
  apply (H [] 0).
Qed.

Lemma keysFrom_nth (midis : list Z) :
  forall wc i key,
    nth_error (keysFrom wc midis) i = Some key ->
    nth_error midis i = Some (keyMidi key)
    /\ keyIsBlack key = isBlack (keyMidi key)
    /\ keyName key = Labels.midiToName (keyMidi key)
    /\ keyWhiteIndex key
       = wc + whiteCountOf (firstn i midis)
         - (if isBlack (keyMidi key) then 1 else 0).
Proof.
  induction midis as [|m midis IH]; intros wc i key Hk.
  - destruct i; discriminate Hk.
  - cbn [keysFrom] in Hk. destruct i as [|i].
    + destruct (isBlack m) eqn:Hb; cbn in Hk; injection Hk as <-;
        cbn [keyMidi keyIsBlack keyName keyWhiteIndex nth_error firstn];
        rewrite Hb; unfold whiteCountOf; cbn; repeat split; lia.
    + destruct (isBlack m) eqn:Hb; cbn [nth_error] in Hk;
        destruct (IH _ i key Hk) as (H1 & H2 & H3 & H4);
        (split; [exact H1|]); (split; [exact H2|]); (split; [exact H3|]);
        rewrite H4; unfold whiteCountOf; cbn [firstn List.filter];
        rewrite Hb; cbn [negb length]; lia.
Qed.

(** X3: the loop that builds the keyboard keeps, for any list of pitches,
    one key per pitch in the order given, with the colour and the label of
    its pitch; the [whiteIndex] of a white key is the number of white keys
    before it, and that of a black key is one less: the index of the white
    key before it. *)
Theorem X3_keys_loop_invariant (midis : list Z) :
  map keyMidi (keysOf midis) = midis
  /\ forall i key,
       nth_error (keysOf midis) i = Some key ->
       keyIsBlack key = isBlack (keyMidi key)
       /\ keyName key = Labels.midiToName (keyMidi key)
       /\ keyWhiteIndex key
          = whiteCountOf (firstn i midis)
            - (if isBlack (keyMidi key) then 1 else 0).
Proof.
  rewrite keysOf_keysFrom. split.
  - generalize 0. induction midis as [|m midis IH]; intros wc; [reflexivity|].
    cbn [keysFrom]. destruct (isBlack m); cbn [map keyMidi]; rewrite IH; reflexivity.
  - intros i key Hk.
    destruct (keysFrom_nth midis 0 i key Hk) as (_ & H2 & H3 & H4).
    repeat split; assumption.
Qed.

Lemma allDistinct_NoDup (l : list String.string) :
  allDistinct l = true -> List.NoDup l.
Proof.
  induction l as [|x l IH]; cbn [allDistinct]; intros H; [constructor|].
  apply andb_true_iff in H as [Hx Hl]. constructor; [|apply IH, Hl].
  intros Hin. apply negb_true_iff in Hx.
  assert (Ht : existsb (String.eqb x) l = true).
  { apply existsb_exists. exists x. split; [exact Hin | apply String.eqb_refl]. }
  congruence.
Qed.

(** X4: the keyboard of the page has the 88 keys of the pitches 21 (A0) to
    108 (C8) in ascending order, 52 white and 36 black, with pairwise
    different labels; the white keys are indexed 0 to 51 in order; every
    black key has a white key one semitone below it, with the same
    [whiteIndex], and one a semitone above it, with the next.  The keyboard
    component builds the same keys. *)
Theorem X4_piano_keys_table :
  map keyMidi PIANO_KEYS = seqZ 21 88
  /\ length whiteKeys = 52%nat
  /\ length blackKeys = 36%nat
  /\ map keyWhiteIndex whiteKeys = seqZ 0 52
  /\ List.NoDup (map keyName PIANO_KEYS)
  /\ (forall b, In b blackKeys ->
        exists below above,
          In below whiteKeys /\ In above whiteKeys
          /\ keyMidi below = keyMidi b - 1
          /\ keyMidi above = keyMidi b + 1
          /\ keyWhiteIndex below = keyWhiteIndex b
          /\ keyWhiteIndex above = keyWhiteIndex b + 1)
  /\ map (fun k => (pkMidi k, pkName k, pkWhiteIndex k,
                    match pkType k with black => true | white => false end))
       allKeys
     = map (fun k => (keyMidi k, keyName k, keyWhiteIndex k, keyIsBlack k))
         PIANO_KEYS
  /\ (forall k, In k allKeys -> pkOctave k = pkMidi k / 12 - 1).
Proof.
  split; [vm_compute; reflexivity|].
  split; [vm_compute; reflexivity|].
  split; [vm_compute; reflexivity|].
  split; [vm_compute; reflexivity|].
  split; [apply allDistinct_NoDup; vm_compute; reflexivity|].
  split; [|split; [vm_compute; reflexivity|]].
  - assert (H : forallb
                  (fun b =>
                     existsb (fun w => (keyMidi w =? keyMidi b - 1)
                                       && (keyWhiteIndex w =? keyWhiteIndex b))
                       whiteKeys
                     && existsb (fun w => (keyMidi w =? keyMidi b + 1)
                                          && (keyWhiteIndex w =? keyWhiteIndex b + 1))
                          whiteKeys)
                  blackKeys = true) by (vm_compute; reflexivity).
    rewrite forallb_forall in H. intros b Hb.
    specialize (H b Hb). apply andb_true_iff in H as [H1 H2].
    apply existsb_exists in H1 as (w1 & Hw1 & E1).
    apply existsb_exists in H2 as (w2 & Hw2 & E2).
    apply andb_true_iff in E1 as [E1 E1']. apply andb_true_iff in E2 as [E2 E2'].
    exists w1, w2. repeat split; try assumption; lia.
  - assert (H : forallb (fun k => pkOctave k =? pkMidi k / 12 - 1) allKeys = true)
      by (vm_compute; reflexivity).
    rewrite forallb_forall in H. intros k Hk. apply Z.eqb_eq, H, Hk.
Qed.

Lemma isBlack_classes (m : Z) :
  isBlack m = true ->
  pitchClass m = 1 \/ pitchClass m = 3 \/ pitchClass m = 6
  \/ pitchClass m = 8 \/ pitchClass m = 10.
Proof.
  unfold isBlack. cbn [existsb]. rewrite !orb_true_iff, !Z.eqb_eq. intuition lia.
Qed.

(** X5: for a black key [blackOffsetForMidi] is 0.6 (C sharp, D sharp) or
    0.4 (F sharp, G sharp, A sharp): the default 0.5 is returned for white
    keys only.  On the keyboard the [left] of every black key lies strictly
    inside the span of the white key with its [whiteIndex], between 0 and
    100 percent. *)
Theorem X5_black_key_offsets :
  (forall m, isBlack m = true ->
     blackOffsetForMidi m
     = if (pitchClass m =? 1) || (pitchClass m =? 3)
       then F64.ofDecimal 6 10 else F64.ofDecimal 4 10)
  /\ (forall m, blackOffsetForMidi m = F64.ofDecimal 5 10 -> isBlack m = false)
  /\ (forall b, In b blackKeys ->
        let lo := (F64.ofZ (keyWhiteIndex b) / F64.ofZ 52 * F64.ofZ 100)%f64 in
        let hi := (F64.ofZ (keyWhiteIndex b + 1) / F64.ofZ 52 * F64.ofZ 100)%f64 in
        (lo <? blackKeyLeft b)%f64 = true
        /\ (blackKeyLeft b <? hi)%f64 = true
        /\ (F64.zero <? blackKeyLeft b)%f64 = true
        /\ (blackKeyLeft b <? F64.ofZ 100)%f64 = true).
Proof.
  split; [|split].
  - intros m Hb. unfold blackOffsetForMidi.
    destruct (isBlack_classes m Hb) as [H | [H | [H | [H | H]]]]; rewrite H; reflexivity.
  - intros m. unfold blackOffsetForMidi.
    destruct (isBlack m) eqn:Hb; [|reflexivity].
    destruct (isBlack_classes m Hb) as [H | [H | [H | [H | H]]]]; rewrite H;
      vm_compute; discriminate.
  - assert (H : forallb
                  (fun b =>
                     (F64.ofZ (keyWhiteIndex b) / F64.ofZ 52 * F64.ofZ 100
                      <? blackKeyLeft b)%f64
                     && (blackKeyLeft b
                         <? F64.ofZ (keyWhiteIndex b + 1) / F64.ofZ 52 * F64.ofZ 100)%f64
                     && (F64.zero <? blackKeyLeft b)%f64
                     && (blackKeyLeft b <? F64.ofZ 100)%f64)
                  blackKeys = true) by (vm_compute; reflexivity).
    rewrite forallb_forall in H. intros b Hb lo hi.
    specialize (H b Hb). rewrite !andb_true_iff in H. tauto.
Qed.

(** ** The sort of the encoder *)

Lemma insertSorted_perm {A : Type} (after : A -> A -> bool) (x : A) (l : list A) :
  Permutation (x :: l) (insertSorted after x l).
Proof.
  induction l as [|y l IH]; cbn [insertSorted]; [apply Permutation_refl|].
  destruct (after y x); [apply Permutation_refl|].
  apply Permutation_trans with (l' := y :: x :: l); [apply perm_swap|].
  apply perm_skip, IH.
Qed.

Lemma sortBy_perm {A : Type} (after : A -> A -> bool) (l : list A) :
  Permutation l (sortBy after l).
Proof.
  unfold sortBy.
  assert (H : forall acc,
             Permutation (acc ++ l)
               (fold_left (fun acc x => insertSorted after x acc) l acc)).
  { induction l as [|x l IH]; intros acc; cbn [fold_left].
    - rewrite app_nil_r. apply Permutation_refl.
    - apply Permutation_trans with (l' := insertSorted after x acc ++ l); [|apply IH].
      apply Permutation_trans with (l' := (x :: acc) ++ l).
      + apply Permutation_sym, Permutation_middle.
      + apply Permutation_app_tail, insertSorted_perm. }
  apply (H []).
Qed.

Lemma insertSorted_pitches (x : Z) (l : list Z) :
  StronglySorted Z.le l -> StronglySorted Z.le (insertSorted higherThan x l).
Proof.
  induction 1 as [|y l Hs IH Hy]; cbn [insertSorted].
  - constructor; constructor.
  - unfold higherThan at 1. destruct (Z.gtb_spec (y - x) 0) as [Hgt | Hle].
    + constructor; [constructor; assumption|].
      constructor; [lia|].
      apply List.Forall_forall. intros z Hz.
      pose proof (proj1 (List.Forall_forall _ _) Hy z Hz). lia.
    + constructor; [exact IH|].
      apply List.Forall_forall. intros z Hz.
      apply insertSorted_In in Hz as [-> | Hz]; [lia|].
      exact (proj1 (List.Forall_forall _ _) Hy z Hz).
Qed.

Lemma sortBy_pitches_sorted (l : list Z) :
  StronglySorted Z.le (sortBy higherThan l).
Proof.
  unfold sortBy.
  assert (H : forall acc, StronglySorted Z.le acc ->
              StronglySorted Z.le
                (fold_left (fun acc x => insertSorted higherThan x acc) l acc)).
  { induction l as [|x l IH]; intros acc Hacc; cbn [fold_left]; [exact Hacc|].
    apply IH, insertSorted_pitches, Hacc. }
  apply H. constructor.
Qed.

Lemma sortBy_head_lowest (l : list Z) (p : Z) (rest : list Z) :
  sortBy higherThan l = p :: rest ->
  In p l /\ forall q, In q l -> p <= q.
Proof.
  intros Hl. pose proof (sortBy_pitches_sorted l) as Hsorted. rewrite Hl in Hsorted.
  split.
  - apply (sortBy_In higherThan). rewrite Hl. left. reflexivity.
  - intros q Hq. apply (sortBy_In higherThan) in Hq. rewrite Hl in Hq.
    destruct Hq as [<- | Hq]; [lia|].
    inversion Hsorted as [|? ? _ Hall]; subst.
    exact (proj1 (List.Forall_forall _ _) Hall q Hq).
Qed.

(** X6: the sort of the encoder returns a permutation of its input, for
    any comparator; with the pitch comparator [(a, b) => a - b] the result
    is in ascending order, so its head is the lowest pitch. *)
Theorem X6_sort_is_sorted_permutation :
  (forall (A : Type) (after : A -> A -> bool) (l : list A),
     Permutation l (sortBy after l))
  /\ (forall l : list Z, StronglySorted Z.le (sortBy higherThan l))
  /\ (forall (l : list Z) p rest,
        sortBy higherThan l = p :: rest ->
        In p l /\ forall q, In q l -> p <= q).
Proof.
  split; [intros A after l; apply sortBy_perm|].
  split; [exact sortBy_pitches_sorted | exact sortBy_head_lowest].
Qed.

(** ** The encoder on arbitrary phrases *)

Lemma events_of_chord (events : list NoteEvent) (bpm0 bar : Z) (e : NoteEvent) :
  In e (chordEventsOf events bpm0 bar) ->
  In e events /\ staff e = bass /\ (time e =? measureStartOf bpm0 bar)%f64 = true.
Proof.
  unfold chordEventsOf, bassChordStarts. intros He.
  apply filter_In in He as [He Ht]. apply sortBy_In in He.
  apply filter_In in He as [He Hs].
  split; [exact He|]. split; [|exact Ht].
  destruct (staff e); [discriminate Hs | reflexivity].
Qed.

(** X7: a bar that has bass events at its start gets a beamed group that
    begins and ends on the lowest of their pitches: the first note carries
    [begin], the last [end], the at most two notes between them [continue],
    all are eighths on staff 2, and every pitch of the group is a pitch of
    the bar's chord.  (Pitches are taken non-negative, so that they have a
    spelling.) *)
Theorem X7_bass_group_begins_and_ends_on_lowest (events : list NoteEvent)
    (bpm0 bar : Z) :
  (forall e, In e events -> 0 <= midi e) ->
  chordEventsOf events bpm0 bar <> [] ->
  exists lowest xp inner,
    In lowest (map midi (chordEventsOf events bpm0 bar))
    /\ (forall q, In q (map midi (chordEventsOf events bpm0 bar)) -> lowest <= q)
    /\ midiToXmlPitch lowest = Some xp
    /\ buildBassGroup events bpm0 bar
       = Some (beamedEighth xp beamBegin :: inner ++ [beamedEighth xp beamEnd])
    /\ (length inner <= 2)%nat
    /\ List.Forall
         (fun n => noteBeam n = Some beamContinue /\ bassEighth n
                   /\ exists q xq, In q (map midi (chordEventsOf events bpm0 bar))
                                   /\ midiToXmlPitch q = Some xq
                                   /\ notePitch n = Some xq)
         inner.
Proof.
  intros Hpos Hne. unfold buildBassGroup.
  destruct (chordEventsOf events bpm0 bar) as [|c cs] eqn:Hc; [congruence|].
  cbn [length Nat.eqb].
  set (chord := map midi (c :: cs)).
  assert (Hchord : forall q, In q chord -> 0 <= q).
  { intros q Hq. unfold chord in Hq. apply in_map_iff in Hq as (e & <- & He).
    apply Hpos. rewrite <- Hc in He. apply (events_of_chord events bpm0 bar e He). }
  destruct (sortBy higherThan chord) as [|p0 rest] eqn:Hsort.
  { apply (f_equal (@length Z)) in Hsort. rewrite sortBy_length in Hsort.
    discriminate Hsort. }
  destruct (sortBy_head_lowest chord p0 rest Hsort) as [Hin Hlow].
  assert (Hrest : forall q, In q rest -> In q chord).
  { intros q Hq. apply (sortBy_In higherThan). rewrite Hsort. right. exact Hq. }
  destruct (midiToXmlPitch_total p0 (Hchord p0 Hin)) as (xp & Hxp).
  exists p0, xp.
  unfold bassPattern. cbn [nth_error nth].
  destruct rest as [|p1 rest1].
  - exists []. cbn [truthy app length bassNotesFrom]. unfold bassNote. rewrite Hxp.
    repeat split; try assumption; try constructor. cbn. lia.
  - destruct (midiToXmlPitch_total p1 (Hchord p1 (Hrest p1 (or_introl eq_refl))))
      as (x1 & Hx1).
    assert (Hn1 : forall b, (noteBeam (beamedEighth x1 b) = Some b)
                  /\ bassEighth (beamedEighth x1 b)
                  /\ exists q xq, In q chord /\ midiToXmlPitch q = Some xq
                                  /\ notePitch (beamedEighth x1 b) = Some xq).
    { intros b. split; [reflexivity|]. split; [repeat split|].
      exists p1, x1. split; [apply Hrest; left; reflexivity|]. split; [exact Hx1 | reflexivity]. }
    destruct rest1 as [|p2 rest2].
    + cbn [nth_error nth truthy]. destruct (negb (p1 =? 0)).
      * exists [beamedEighth x1 beamContinue].
        cbn [app length bassNotesFrom]. unfold bassNote. rewrite Hxp, Hx1.
        repeat split; try assumption; try (cbn; lia).
        constructor; [apply Hn1 | constructor].
      * exists []. cbn [app length bassNotesFrom]. unfold bassNote. rewrite Hxp.
        repeat split; try assumption; try constructor. cbn. lia.
    + destruct (midiToXmlPitch_total p2
                  (Hchord p2 (Hrest p2 (or_intror (or_introl eq_refl)))))
        as (x2 & Hx2).
      assert (Hn2 : forall b, (noteBeam (beamedEighth x2 b) = Some b)
                    /\ bassEighth (beamedEighth x2 b)
                    /\ exists q xq, In q chord /\ midiToXmlPitch q = Some xq
                                    /\ notePitch (beamedEighth x2 b) = Some xq).
      { intros b. split; [reflexivity|]. split; [repeat split|].
        exists p2, x2. split; [apply Hrest; right; left; reflexivity|].
        split; [exact Hx2 | reflexivity]. }
      cbn [nth_error nth truthy].
      destruct (negb (p1 =? 0)); destruct (negb (p2 =? 0)).
      * exists [beamedEighth x1 beamContinue; beamedEighth x2 beamContinue].
        cbn [app length bassNotesFrom]. unfold bassNote. rewrite Hxp, Hx1, Hx2.
        repeat split; try assumption; try (cbn; lia).
        constructor; [apply Hn1 | constructor; [apply Hn2 | constructor]].
      * exists [beamedEighth x1 beamContinue].
        cbn [app length bassNotesFrom]. unfold bassNote. rewrite Hxp, Hx1.
        repeat split; try assumption; try (cbn; lia).
        constructor; [apply Hn1 | constructor].
      * exists [beamedEighth x2 beamContinue].
        cbn [app length bassNotesFrom]. unfold bassNote. rewrite Hxp, Hx2.
        repeat split; try assumption; try (cbn; lia).
        constructor; [apply Hn2 | constructor].
      * exists []. cbn [app length bassNotesFrom]. unfold bassNote. rewrite Hxp.
        repeat split; try assumption; try constructor. cbn. lia.
Qed.

Lemma X7_bass_group_witness :
  exists lowest,
    In lowest (map midi (chordEventsOf [mkNoteEvent F64.zero F64.one 55 bass true;
                                        mkNoteEvent F64.zero F64.one 48 bass true]
                           100 1)).
Proof.
  destruct (X7_bass_group_begins_and_ends_on_lowest
              [mkNoteEvent F64.zero F64.one 55 bass true;
               mkNoteEvent F64.zero F64.one 48 bass true] 100 1)
    as (lowest & _ & _ & H & _).
  - intros e [<- | [<- | []]]; cbn [midi]; lia.
  - vm_compute. discriminate.
  - exists lowest. exact H.
Defined.

Lemma find_none_iff {A : Type} (f : A -> bool) (l : list A) :
  List.find f l = None <-> forall x, In x l -> f x = false.
Proof.
  split; [apply find_none|].
  induction l as [|x l IH]; intros H; [reflexivity|].
  cbn [List.find]. rewrite (H x (or_introl eq_refl)).
  apply IH. intros y Hy. apply H. right. exact Hy.
Qed.

Lemma trebleEvents_In (events : list NoteEvent) (e : NoteEvent) :
  In e (trebleEvents events) <-> In e events /\ staff e = treble.
Proof.
  unfold trebleEvents. rewrite sortBy_In, filter_In.
  destruct (staff e); cbn; intuition congruence.
Qed.

(** X8: a treble slot is a quarter rest exactly when no treble event of
    the phrase has its onset in the beat window; otherwise the slot is the
    pitched quarter note of a treble event whose onset is in the window,
    or the call throws because that event's pitch has no spelling. *)
Theorem X8_treble_slot_rest_iff_window_empty (events : list NoteEvent)
    (bpm0 bar beat : Z) :
  (buildTrebleBeatNote events bpm0 bar beat = Some restQuarter
   <-> forall e, In e events -> staff e = treble ->
                 inBeatWindow bpm0 bar beat e = false)
  /\ (forall n, buildTrebleBeatNote events bpm0 bar beat = Some n ->
        n <> restQuarter ->
        exists e xp, In e events /\ staff e = treble
                     /\ inBeatWindow bpm0 bar beat e = true
                     /\ midiToXmlPitch (midi e) = Some xp
                     /\ n = pitchedQuarter xp)
  /\ (buildTrebleBeatNote events bpm0 bar beat = None ->
        exists e, In e events /\ staff e = treble
                  /\ inBeatWindow bpm0 bar beat e = true
                  /\ pitchClass (midi e) < 0).
Proof.
  unfold buildTrebleBeatNote.
  destruct (List.find (inBeatWindow bpm0 bar beat) (trebleEvents events))
    as [ev|] eqn:Hf.
  - apply find_some in Hf as [Hin Hw]. apply trebleEvents_In in Hin as [Hin Hst].
    split; [|split].
    + split.
      * destruct (midiToXmlPitch (midi ev)); discriminate.
      * intros H. rewrite (H ev Hin Hst) in Hw. discriminate Hw.
    + intros n Hn Hrest. destruct (midiToXmlPitch (midi ev)) as [xp|] eqn:Hxp;
        [|discriminate Hn].
      injection Hn as <-. exists ev, xp. repeat split; assumption.
    + destruct (midiToXmlPitch (midi ev)) as [xp|] eqn:Hxp; [discriminate|].
      intros _. exists ev. repeat split; try assumption.
      unfold midiToXmlPitch in Hxp.
      destruct (Z.ltb_spec (pitchClass (midi ev)) 0) as [Hneg | Hpos]; [exact Hneg|].
      exfalso. unfold pitchClass in *.
      assert (Hb : Z.abs (Z.rem (midi ev) 12) < Z.abs 12)
        by (apply Z.rem_bound_abs; lia).
      destruct (nth_error names (Z.to_nat (Z.rem (midi ev) 12))) as [[st sh]|] eqn:Hn;
        [discriminate Hxp|].
      apply nth_error_None in Hn. cbn [length names] in Hn. lia.
  - split; [|split].
    + split; [|reflexivity]. intros _ e He Hst.
      apply (proj1 (find_none_iff _ _) Hf). apply trebleEvents_In. split; assumption.
    + intros n Hn Hrest. injection Hn as <-. congruence.
    + discriminate.
Qed.

Lemma collect_None_in {B : Type} (l : list (option B)) :
  In None l -> collect l = None.
Proof.
  induction l as [|[x|] l IH]; intros H; [destruct H | | reflexivity].
  destruct H as [H | H]; [discriminate H|].
  cbn [collect]. rewrite (IH H). reflexivity.
Qed.

Lemma buildBassGroup_total (events : list NoteEvent) (bpm0 bar : Z) :
  (forall e, In e events -> 0 <= midi e) ->
  exists group,
    buildBassGroup events bpm0 bar = Some group
    /\ List.Forall bassEighth group
    /\ (2 <= length group <= 4)%nat.
Proof.
  intros Hpos. unfold buildBassGroup.
  destruct (chordEventsOf events bpm0 bar) as [|c cs] eqn:Hc.
  - cbn [length Nat.eqb]. exists [restEighth; restEighth; restEighth; restEighth].
    split; [reflexivity|].
    split; [repeat (apply List.Forall_cons; [repeat split|]); apply List.Forall_nil
           | cbn; lia].
  - cbn [length Nat.eqb].
    set (pitches := sortBy higherThan (map midi (c :: cs))).
    assert (Hne : pitches <> []).
    { intros Hnil. apply (f_equal (@length Z)) in Hnil.
      subst pitches. rewrite sortBy_length in Hnil. discriminate Hnil. }
    destruct (bassPattern_props pitches Hne) as [Hlen Hsub].
    assert (Hall : List.Forall (fun m => 0 <= m) (bassPattern pitches)).
    { apply List.Forall_forall. intros m Hm. apply Hsub in Hm.
      subst pitches. apply sortBy_In in Hm. apply in_map_iff in Hm as (e & <- & He).
      apply Hpos. rewrite <- Hc in He. apply (events_of_chord events bpm0 bar e He). }
    destruct (bassNotesFrom_total (length (bassPattern pitches)) _ Hall 0%nat)
      as (ns & Hns & Hl & He & _).
    exists ns. split; [exact Hns|]. split; [exact He | lia].
Qed.

Lemma collect_map_related {A B : Type} (f : A -> option B) (R : A -> B -> Prop)
    (l : list A) :
  (forall x, In x l -> exists y, f x = Some y /\ R x y) ->
  exists ys, collect (map f l) = Some ys /\ Forall2 R l ys.
Proof.
  induction l as [|x l IH]; intros H.
  - exists []. split; [reflexivity | constructor].
  - destruct (H x (or_introl eq_refl)) as (y & Hy & HR).
    destruct IH as (ys & Hys & Hall).
    { intros z Hz. apply H. right. exact Hz. }
    exists (y :: ys). cbn [map collect]. rewrite Hy, Hys.
    split; [reflexivity | constructor; assumption].
Qed.

Lemma buildMeasure_total (events : list NoteEvent) (bpm0 bar : Z) :
  (forall e, In e events -> 0 <= midi e) ->
  exists ms,
    buildMeasure events bpm0 bar = Some ms
    /\ measureNumber ms = bar
    /\ filledMeasure (trebleSlots ms ++ bassGroup ms).
Proof.
  intros Hpos. unfold buildMeasure.
  destruct (collect_map_total (buildTrebleBeatNote events bpm0 bar) trebleQuarter
              [1; 2; 3; 4]) as (slots & -> & Hl & Hq).
  { intros beat _. unfold buildTrebleBeatNote.
    destruct (List.find (inBeatWindow bpm0 bar beat) (trebleEvents events))
      as [ev|] eqn:Hf.
    - apply find_some in Hf as [Hin _]. apply trebleEvents_In in Hin as [Hin _].
      destruct (midiToXmlPitch_total (midi ev) (Hpos ev Hin)) as (xp & ->).
      eexists. split; [reflexivity|]. repeat split.
    - eexists. split; [reflexivity|]. repeat split. }
  destruct (buildBassGroup_total events bpm0 bar Hpos) as (group & -> & Hg & Hgl).
  eexists. split; [reflexivity|]. cbn [measureNumber trebleSlots bassGroup].
  split; [reflexivity|].
  exists slots, group. repeat split; try assumption; lia.
Qed.

(** X9: for every phrase whose pitches are non-negative, whatever its
    events and the tempo, the encoder returns a document.  The document has
    the five [<measure>] elements of the template, numbered 0 to 4: measure
    0 carries the tempo as it is and has no note; each of the measures 1 to
    4 holds exactly 4 treble quarters (notes or rests, never a gap) on staff
    1, followed by a bass group of 2 to 4 eighths on staff 2. *)
Theorem X9_encode_shape (events : list NoteEvent) (bpm0 : Z) :
  (forall e, In e events -> 0 <= midi e) ->
  exists doc,
    buildMusicXmlFromPhrase events bpm0 = Some doc
    /\ docLead doc = mkTempoMeasure 0 4 bpm0
    /\ map fst (measureElements doc) = [0; 1; 2; 3; 4]
    /\ hd_error (measureElements doc) = Some (0, [])
    /\ List.Forall (fun el => filledMeasure (snd el)) (tl (measureElements doc)).
Proof.
  intros Hpos. unfold buildMusicXmlFromPhrase.
  destruct (collect_map_related (buildMeasure events bpm0)
              (fun bar ms => measureNumber ms = bar
                             /\ filledMeasure (trebleSlots ms ++ bassGroup ms))
              [1; 2; 3; 4]) as (ms & -> & Hall).
  - intros bar _. apply buildMeasure_total, Hpos.
  - eexists. split; [reflexivity|].
    inversion Hall as [|? m1 ? ms1 (N1 & S1) Hall1]; subst.
    inversion Hall1 as [|? m2 ? ms2 (N2 & S2) Hall2]; subst.
    inversion Hall2 as [|? m3 ? ms3 (N3 & S3) Hall3]; subst.
    inversion Hall3 as [|? m4 ? ms4 (N4 & S4) Hall4]; subst.
    inversion Hall4; subst.
    unfold measureElements. cbn [docLead docMeasures tempoNumber map fst tl hd_error].
    rewrite N1, N2, N3, N4.
    split; [reflexivity|]. split; [reflexivity|]. split; [reflexivity|].
    repeat constructor; assumption.
Qed.

Lemma X9_encode_shape_witness :
  exists doc,
    buildMusicXmlFromPhrase [mkNoteEvent F64.zero F64.one 60 treble false] 80 = Some doc
    /\ docLead doc = mkTempoMeasure 0 4 80
    /\ map fst (measureElements doc) = [0; 1; 2; 3; 4]
    /\ hd_error (measureElements doc) = Some (0, [])
    /\ List.Forall (fun el => filledMeasure (snd el)) (tl (measureElements doc)).
Proof.
  apply (X9_encode_shape [mkNoteEvent F64.zero F64.one 60 treble false] 80).
  intros e [<- | []]. cbn. lia.
Defined.

(** X10: an exception in one slot is the exception of the whole encoding:
    when the event a treble slot finds has a pitch without a spelling (a
    negative [midi % 12]), [buildMusicXmlFromPhrase] returns no document. *)
Theorem X10_encode_throws_on_unspellable_pitch (events : list NoteEvent)
    (bpm0 bar beat : Z) (ev : NoteEvent) :
  In bar slotIndices -> In beat slotIndices ->
  List.find (inBeatWindow bpm0 bar beat) (trebleEvents events) = Some ev ->
  pitchClass (midi ev) < 0 ->
  buildTrebleBeatNote events bpm0 bar beat = None
  /\ buildMusicXmlFromPhrase events bpm0 = None.
Proof.
  intros Hbar Hbeat Hf Hneg.
  assert (Hslot : buildTrebleBeatNote events bpm0 bar beat = None).
  { unfold buildTrebleBeatNote. rewrite Hf. unfold midiToXmlPitch.
    apply Z.ltb_lt in Hneg. rewrite Hneg. reflexivity. }
  split; [exact Hslot|].
  unfold buildMusicXmlFromPhrase. change [1; 2; 3; 4] with slotIndices.
  rewrite collect_None_in; [reflexivity|].
  apply in_map_iff. exists bar. split; [|exact Hbar].
  unfold buildMeasure. change [1; 2; 3; 4] with slotIndices.
  rewrite collect_None_in; [reflexivity|].
  apply in_map_iff. exists beat. split; [exact Hslot | exact Hbeat].
Qed.

Lemma X10_encode_throws_witness :
  buildMusicXmlFromPhrase [mkNoteEvent F64.zero F64.one (-1) treble false] 100 = None.
Proof.
  apply (X10_encode_throws_on_unspellable_pitch
           [mkNoteEvent F64.zero F64.one (-1) treble false] 100 1 1
           (mkNoteEvent F64.zero F64.one (-1) treble false)).
  - left. reflexivity.
  - left. reflexivity.
  - vm_compute. reflexivity.
  - vm_compute. reflexivity.
Defined.

(** ** Generated phrases, further *)

Lemma parts_in_onset_order (bpm0 : Z) (diff : Difficulty)
    (p0 p1 p2 p3 p4 p5 p6 p7 p8 p9 p10 p11 p12 p13 p14 p15 r0 r1 r2 r3 : Z) :
  In bpm0 tempos ->
  let ps := [p0; p1; p2; p3; p4; p5; p6; p7; p8; p9; p10; p11; p12; p13; p14; p15] in
  let events := phraseFromParts (secondsPerBeatOf bpm0) ps
                  (map (fun r => buildChord r diff) [r0; r1; r2; r3]) in
  sortBy laterThan events = events
  /\ trebleEvents events = List.filter isTreble events
  /\ bassChordStarts events = List.filter isBass events.
Proof.
  intros Hbpm.
  each_tempo Hbpm; destruct diff; cbv zeta; repeat split; vm_compute; reflexivity.
Qed.

(** X11: a phrase generated at a listed tempo is already in onset order:
    the stable sort by time leaves the whole phrase, its treble events and
    its bass events as they were generated, so the encoder reads the events
    of each staff in generation order. *)
Theorem X11_generated_phrase_in_onset_order (mode : Mode) (bpm0 : Z)
    (diff : Difficulty) (g : Rng) :
  In bpm0 tempos ->
  let events := fst (generateEvents mode Meter_4_4 bpm0 diff g) in
  sortBy laterThan events = events
  /\ trebleEvents events = List.filter isTreble events
  /\ bassChordStarts events = List.filter isBass events.
Proof.
  intros Hbpm events.
  destruct (generateEvents_parts mode bpm0 diff g)
    as (p0 & p1 & p2 & p3 & p4 & p5 & p6 & p7 & p8 & p9 & p10 & p11 & p12
        & p13 & p14 & p15 & r0 & r1 & r2 & r3 & _ & _ & Hev).
  subst events. rewrite Hev.
  exact (parts_in_onset_order bpm0 diff p0 p1 p2 p3 p4 p5 p6 p7 p8 p9 p10 p11
           p12 p13 p14 p15 r0 r1 r2 r3 Hbpm).
Qed.

Lemma X11_generated_phrase_in_onset_order_witness :
  let events := fst (generateEvents C_MAJOR Meter_4_4 120 D3 sevenths) in
  sortBy laterThan events = events
  /\ trebleEvents events = List.filter isTreble events
  /\ bassChordStarts events = List.filter isBass events.
Proof.
  assert (Hbpm : In 120 tempos) by (unfold tempos; cbn [In]; tauto).
  exact (X11_generated_phrase_in_onset_order C_MAJOR 120 D3 sevenths Hbpm).
Defined.

Lemma beatsInsidePhrase_tempos (bpm0 : Z) :
  In bpm0 tempos -> beatsInsidePhrase bpm0 = true.
Proof.
  intros H. each_tempo H; vm_compute; reflexivity.
Qed.

(** X12: every event of a phrase generated at a listed tempo sounds inside
    the phrase: its onset is not negative, its end [time + duration] is not
    after [phraseDuration] (the last chord ends exactly with the phrase or
    before), and the delay of its trigger is below the delay of the loop
    restart, [phraseDuration * 1000 + 50]. *)
Theorem X12_generated_events_inside_phrase (mode : Mode) (bpm0 : Z)
    (diff : Difficulty) (g : Rng) :
  In bpm0 tempos ->
  forall e, In e (fst (generateEvents mode Meter_4_4 bpm0 diff g)) ->
    (F64.zero <=? time e)%f64 = true
    /\ (time e + duration e <=? phraseDurationAt bpm0)%f64 = true
    /\ (time e * F64.ofZ 1000
        <? phraseDurationAt bpm0 * F64.ofZ 1000 + F64.ofZ 50)%f64 = true.
Proof.
  intros Hbpm e He.
  pose proof (beatsInsidePhrase_tempos bpm0 Hbpm) as Hin.
  unfold beatsInsidePhrase in Hin. rewrite forallb_forall in Hin.
  destruct (generateEvents_shape mode bpm0 diff g) as (groups & Hev & Hs).
  rewrite Hev in He.
  destruct (shape_event_of_beat _ _ _ _ _ _ Hs e He) as (k & grp & Hk & Hsh & Hg).
  specialize (Hin k Hk). apply andb_true_iff in Hin as [Ht Hb].
  destruct (BeatShape_event _ _ _ _ _ _ _ Hsh Hg)
    as [(p & _ & ->) | (Hr & root & m & _ & _ & ->)].
  - cbn [time duration trebleEventAt].
    unfold insidePhrase in Ht. rewrite !andb_true_iff in Ht. tauto.
  - cbn [time duration]. rewrite Hr in Hb. cbn [Z.eqb negb orb] in Hb.
    unfold insidePhrase in Hb. rewrite !andb_true_iff in Hb. tauto.
Qed.

Lemma X12_generated_events_inside_phrase_witness :
  let e := hd (mkNoteEvent F64.zero F64.one 60 treble false)
             (fst (generateEvents C_MAJOR Meter_4_4 140 D2 sevenths)) in
  (F64.zero <=? time e)%f64 = true
  /\ (time e + duration e <=? phraseDurationAt 140)%f64 = true
  /\ (time e * F64.ofZ 1000
      <? phraseDurationAt 140 * F64.ofZ 1000 + F64.ofZ 50)%f64 = true.
Proof.
  assert (Hbpm : In 140 tempos) by (unfold tempos; cbn [In]; tauto).
  refine (X12_generated_events_inside_phrase C_MAJOR 140 D2 sevenths Hbpm _ _).
  vm_compute. left. reflexivity.
Defined.

(** X13: whatever the mode, the tempo and the difficulty, one call of the
    generator reads exactly 20 draws of [Math.random()] (16 treble pitches
    and 4 bass seeds) and returns [16 + 4 * chordSize] events; regenerating
    continues with the draws that follow. *)
Theorem X13_generator_reads_twenty_draws (mode : Mode) (bpm0 : Z)
    (diff : Difficulty) (g : Rng) :
  let r := generateEvents mode Meter_4_4 bpm0 diff g in
  snd r = mkRng (draws g) (pos g + 20)
  /\ length (fst r) = (16 + 4 * chordSize diff)%nat
  /\ (forall st, rng (generatePhrase (generatePhrase st))
                 = mkRng (draws (rng st)) (pos (rng st) + 40)).
Proof.
  assert (H20 : forall mode bpm0 diff g,
            snd (generateEvents mode Meter_4_4 bpm0 diff g)
            = mkRng (draws g) (pos g + 20)).
  { intros mo b d g0. replace (pos g0 + 20)%nat with (20 + pos g0)%nat by lia.
    lazy. reflexivity. }
  cbv zeta. split; [apply H20|]. split.
  - destruct diff; lazy; reflexivity.
  - intros st. unfold generatePhrase.
    open_session st. cbn [rng setPhrase selectedMode selectedMeter bpm difficulty].
    destruct s_meter. rewrite !H20. cbn [draws pos]. f_equal. lia.
Qed.

(** ** Starting playback *)

Lemma registerFrom_lookup (ts : list Timer) :
  forall (n : nat) (m : gmap nat Timer) (id : nat),
    registerFrom n ts m !! id
    = if (n <=? id)%nat && (id <? n + length ts)%nat
      then nth_error ts (id - n)
      else m !! id.
Proof.
  induction ts as [|t ts IH]; intros n m id; cbn [registerFrom length].
  - destruct (Nat.leb_spec n id), (Nat.ltb_spec id (n + 0)); cbn [andb];
      try reflexivity; lia.
  - rewrite IH.
    destruct (Nat.leb_spec (S n) id), (Nat.ltb_spec id (S n + length ts));
      destruct (Nat.leb_spec n id), (Nat.ltb_spec id (n + S (length ts)));
      cbn [andb]; try lia;
      first [ rewrite lookup_insert_ne by lia; reflexivity
            | replace (id - n)%nat with (S (id - S n)) by lia; reflexivity
            | assert (id = n) by lia; subst id;
              rewrite lookup_insert_eq, Nat.sub_diag; reflexivity ].
Qed.

Lemma scheduleAll_exact (evs : list NoteEvent) :
  forall st,
    fold_left (fun st ev => scheduleTimer (time ev * F64.ofZ 1000)%f64
                              (NoteTrigger ev) st) evs st
    = setTimers (playbackTimers st ++ seq (nextTimerId st) (length evs))
        (registerFrom (nextTimerId st) (noteTimers evs) (timers st))
        (nextTimerId st + length evs) st.
Proof.
  induction evs as [|ev evs IH]; intros st; cbn [fold_left].
  - open_session st. unfold setTimers.
    cbn [playbackTimers nextTimerId timers length seq noteTimers map registerFrom
           selectedMode selectedMeter bpm difficulty noteEvents phraseStart isPlaying
           activeMidiSet progress pianoSampler samplerLoaded rng pendingStarts audioLog].
    rewrite app_nil_r, Nat.add_0_r. reflexivity.
  - rewrite IH. open_session st. unfold scheduleTimer, setTimers.
    cbn [playbackTimers nextTimerId timers length seq noteTimers map registerFrom
           selectedMode selectedMeter bpm difficulty noteEvents phraseStart isPlaying
           activeMidiSet progress pianoSampler samplerLoaded rng pendingStarts audioLog].
    rewrite <- app_assoc. cbn [app].
    replace (S s_next + length evs)%nat with (s_next + S (length evs))%nat by lia.
    reflexivity.
Qed.

Lemma registerFrom_snoc (ts : list Timer) (t : Timer) :
  forall (n : nat) (m : gmap nat Timer),
    registerFrom n (ts ++ [t]) m = <[(n + length ts)%nat := t]> (registerFrom n ts m).
Proof.
  induction ts as [|t0 ts IH]; intros n m; cbn [registerFrom app length].
  - rewrite Nat.add_0_r. reflexivity.
  - rewrite IH. replace (S n + length ts)%nat with (n + S (length ts))%nat by lia.
    reflexivity.
Qed.

(** What [startPlayback] leaves when the backend is ready and the pending
    timers are those of [playbackTimers]. *)
Lemma startPlayback_ready (now : Z) (st : Session) :
  wellFormed st ->
  pianoSampler st = true -> samplerLoaded st = true ->
  startPlayback now st
  = setTimers (seq (nextTimerId st) (length (scheduleOf st)))
      (registerFrom (nextTimerId st) (scheduleOf st) ∅)
      (nextTimerId st + length (scheduleOf st))
      (setPlayback now true st).
Proof.
  intros (H1 & _) Hs Hl. unfold startPlayback, ensureAudio.
  rewrite Hs, Hl. cbn [negb orb].
  rewrite scheduleAll_exact. unfold clearPlayback. rewrite (clear_all _ _ H1).
  clear H1. open_session st.
  cbn [pianoSampler samplerLoaded] in Hs, Hl. subst s_sampler s_loaded.
  unfold scheduleTimer, scheduleOf, phraseDuration, setTimers, setPlayback.
  cbn [playbackTimers nextTimerId timers
         selectedMode selectedMeter bpm difficulty noteEvents phraseStart isPlaying
         activeMidiSet progress pianoSampler samplerLoaded rng pendingStarts audioLog].
  rewrite registerFrom_snoc. unfold noteTimers.
  rewrite length_app, !length_map. cbn [length app].
  rewrite seq_app. cbn [seq].
  replace (S (s_next + length s_events)) with (s_next + (length s_events + 1))%nat by lia.
  reflexivity.
Qed.

(** X14: started with the backend ready, playback is a fresh session: it
    is Playing from [now], the timers pending afterwards are exactly one
    note trigger per event of the phrase, in phrase order and with delay
    [time * 1000], followed by the loop restart with delay
    [phraseDuration * 1000 + 50]; they carry the next free ids, and every
    timer that was pending before is cancelled, so that nothing of an
    earlier session is left. *)
Theorem X14_start_schedules_exactly_the_phrase (now : Z) (st : Session) :
  reachable st ->
  pianoSampler st = true -> samplerLoaded st = true ->
  let st' := startPlayback now st in
  let n := nextTimerId st in
  isPlaying st' = true
  /\ phraseStart st' = now
  /\ noteEvents st' = noteEvents st
  /\ playbackTimers st' = seq n (length (noteEvents st) + 1)
  /\ nextTimerId st' = (n + length (noteEvents st) + 1)%nat
  /\ (forall i ev, nth_error (noteEvents st) i = Some ev ->
        timers st' !! (n + i)%nat
        = Some (mkTimer (time ev * F64.ofZ 1000)%f64 (NoteTrigger ev)))
  /\ timers st' !! (n + length (noteEvents st))%nat
     = Some (mkTimer (phraseDuration st * F64.ofZ 1000 + F64.ofZ 50)%f64 LoopRestart)
  /\ (forall id, (id < n)%nat \/ (n + length (noteEvents st) < id)%nat ->
        timers st' !! id = None)
  /\ audioLog st' = audioLog st.
Proof.
  intros Hr Hs Hl st' n.
  pose proof (startPlayback_ready now st (reachable_wellFormed st Hr) Hs Hl) as Hst.
  fold st' in Hst.
  assert (Hlen : length (scheduleOf st) = (length (noteEvents st) + 1)%nat).
  { unfold scheduleOf, noteTimers. rewrite length_app, length_map. reflexivity. }
  assert (Ht : timers st' = registerFrom n (scheduleOf st) ∅).
  { rewrite Hst. unfold n. open_session st. reflexivity. }
  split; [rewrite Hst; open_session st; reflexivity|].
  split; [rewrite Hst; open_session st; reflexivity|].
  split; [rewrite Hst; open_session st; reflexivity|].
  split; [rewrite Hst, Hlen; unfold n; open_session st; reflexivity|].
  split; [rewrite Hst, Hlen; unfold n; open_session st;
          cbn [nextTimerId setTimers setPlayback]; lia|].
  split; [|split; [|split]].
  - intros i ev Hi. rewrite Ht, registerFrom_lookup, Hlen.
    assert (Hlt : (i < length (noteEvents st))%nat).
    { apply nth_error_Some. rewrite Hi. discriminate. }
    destruct (Nat.leb_spec n (n + i)), (Nat.ltb_spec (n + i) (n + (length (noteEvents st) + 1)));
      try lia.
    cbn [andb]. replace (n + i - n)%nat with i by lia.
    unfold scheduleOf, noteTimers. rewrite nth_error_app1 by (rewrite length_map; lia).
    rewrite nth_error_map, Hi. reflexivity.
  - rewrite Ht, registerFrom_lookup, Hlen.
    destruct (Nat.leb_spec n (n + length (noteEvents st))),
      (Nat.ltb_spec (n + length (noteEvents st)) (n + (length (noteEvents st) + 1)));
      try lia.
    cbn [andb]. replace (n + length (noteEvents st) - n)%nat with (length (noteEvents st)) by lia.
    unfold scheduleOf, noteTimers.
    rewrite nth_error_app2 by (rewrite length_map; lia).
    rewrite length_map, Nat.sub_diag. reflexivity.
  - intros id Hid. rewrite Ht, registerFrom_lookup, Hlen.
    destruct (Nat.leb_spec n id), (Nat.ltb_spec id (n + (length (noteEvents st) + 1)));
      cbn [andb]; try apply lookup_empty; lia.
  - rewrite Hst. open_session st. reflexivity.
Qed.

Lemma X14_start_schedules_witness :
  isPlaying (startPlayback 1000 (run (mountedSession sevenths) [AudioEnsured; SamplerLoadedEv])) = true.
Proof.
  assert (Hr : reachable (run (mountedSession sevenths) [AudioEnsured; SamplerLoadedEv])).
  { exists sevenths, [AudioEnsured; SamplerLoadedEv]. reflexivity. }
  assert (Hs : pianoSampler (run (mountedSession sevenths) [AudioEnsured; SamplerLoadedEv]) = true)
    by (vm_compute; reflexivity).
  assert (Hl : samplerLoaded (run (mountedSession sevenths) [AudioEnsured; SamplerLoadedEv]) = true)
    by (vm_compute; reflexivity).
  exact (proj1 (X14_start_schedules_exactly_the_phrase 1000 _ Hr Hs Hl)).
Defined.

(** ** Timers firing *)

Lemma generatePhrase_frame (st : Session) :
  timers (generatePhrase st) = timers st
  /\ isPlaying (generatePhrase st) = isPlaying st
  /\ audioLog (generatePhrase st) = audioLog st
  /\ pianoSampler (generatePhrase st) = pianoSampler st
  /\ samplerLoaded (generatePhrase st) = samplerLoaded st
  /\ nextTimerId (generatePhrase st) = nextTimerId st
  /\ playbackTimers (generatePhrase st) = playbackTimers st
  /\ pendingStarts (generatePhrase st) = pendingStarts st.
Proof. unfold generatePhrase. open_session st. repeat split. Qed.

(** What firing a pending note trigger does while Playing with the backend
    ready. *)
Lemma fireTimer_note (id : nat) (st : Session) (d : F64.float) (ev : NoteEvent) :
  timers st !! id = Some (mkTimer d (NoteTrigger ev)) ->
  isPlaying st = true -> pianoSampler st = true -> samplerLoaded st = true ->
  fireTimer id st
  = logAudio (mkAudioCall (Some id) (midi ev) (duration ev))
      (setTimers (playbackTimers st) (delete id (timers st)) (nextTimerId st) st).
Proof.
  intros Ht Hp Hs Hl. unfold fireTimer. rewrite Ht. cbn [timerCallback].
  open_session st.
  cbn [isPlaying pianoSampler samplerLoaded] in Hp, Hs, Hl. subst.
  reflexivity.
Qed.

(** X15: a timer fires at most once.  Firing removes it from the pending
    timers and touches no other timer; firing it again changes nothing;
    one firing makes at most one backend call. *)
Theorem X15_timer_fires_once (id : nat) (st : Session) :
  timers (fireTimer id st) !! id = None
  /\ (forall id', id' <> id -> timers (fireTimer id st) !! id' = timers st !! id')
  /\ fireTimer id (fireTimer id st) = fireTimer id st
  /\ (audioLog (fireTimer id st) = audioLog st
      \/ exists c, audioLog (fireTimer id st) = audioLog st ++ [c]
                   /\ callCause c = Some id).
Proof.
  assert (Hcore : timers (fireTimer id st) !! id = None
                  /\ (forall id', id' <> id ->
                        timers (fireTimer id st) !! id' = timers st !! id')
                  /\ (audioLog (fireTimer id st) = audioLog st
                      \/ exists c, audioLog (fireTimer id st) = audioLog st ++ [c]
                                   /\ callCause c = Some id)).
  { unfold fireTimer. destruct (timers st !! id) as [t|] eqn:Ht.
    - destruct (timerCallback t) as [ev|].
      + match goal with
        | |- context [if ?c then _ else _] => destruct c
        end; open_session st; cbn [timers setTimers logAudio audioLog] in *;
          (split; [apply lookup_delete_eq|]);
          (split; [intros id' Hne; apply lookup_delete_ne; congruence|]).
        * left. reflexivity.
        * right. eexists. split; reflexivity.
      + match goal with
        | |- context [if ?c then _ else _] => destruct c
        end.
        * open_session st; cbn [timers setTimers logAudio audioLog] in *.
          split; [apply lookup_delete_eq|].
          split; [intros id' Hne; apply lookup_delete_ne; congruence|].
          left. reflexivity.
        * destruct (generatePhrase_frame
                      (setTimers (playbackTimers st) (delete id (timers st))
                         (nextTimerId st) st)) as (G1 & _ & G3 & _).
          assert (E1 : timers (setPendingStarts
                         (S (pendingStarts (generatePhrase
                            (setTimers (playbackTimers st) (delete id (timers st))
                               (nextTimerId st) st))))
                         (generatePhrase
                            (setTimers (playbackTimers st) (delete id (timers st))
                               (nextTimerId st) st)))
                       = delete id (timers st)).
          { match goal with
            | |- timers (setPendingStarts ?n ?s) = _ =>
                transitivity (timers s); [destruct s; reflexivity|]
            end.
            rewrite G1. open_session st. reflexivity. }
          assert (E3 : audioLog (setPendingStarts
                         (S (pendingStarts (generatePhrase
                            (setTimers (playbackTimers st) (delete id (timers st))
                               (nextTimerId st) st))))
                         (generatePhrase
                            (setTimers (playbackTimers st) (delete id (timers st))
                               (nextTimerId st) st)))
                       = audioLog st).
          { match goal with
            | |- audioLog (setPendingStarts ?n ?s) = _ =>
                transitivity (audioLog s); [destruct s; reflexivity|]
            end.
            rewrite G3. open_session st. reflexivity. }
          rewrite E1, E3.
          split; [apply lookup_delete_eq|].
          split; [intros id' Hne; apply lookup_delete_ne; congruence|].
          left. reflexivity.
    - split; [exact Ht|]. split; [reflexivity | left; reflexivity]. }
  destruct Hcore as (H1 & H2 & H3).
  split; [exact H1|]. split; [exact H2|]. split; [|exact H3].
  unfold fireTimer at 1. rewrite H1. reflexivity.
Qed.

Lemma fire_notes_in_order (evs : list NoteEvent) :
  forall (n : nat) (st : Session),
    isPlaying st = true -> pianoSampler st = true -> samplerLoaded st = true ->
    notesPending n evs st ->
    let st' := run st (map TimerFired (seq n (length evs))) in
    audioLog st' = audioLog st ++ callsFrom n evs
    /\ isPlaying st' = true
    /\ (forall id, (id < n)%nat \/ (n + length evs <= id)%nat ->
          timers st' !! id = timers st !! id)
    /\ (forall id, (n <= id < n + length evs)%nat -> timers st' !! id = None)
    /\ noteEvents st' = noteEvents st
    /\ phraseStart st' = phraseStart st
    /\ pendingStarts st' = pendingStarts st.
Proof.
  induction evs as [|ev evs IH]; intros n st Hp Hs Hl Hpend.
  - cbn. rewrite app_nil_r. repeat split; try assumption; try reflexivity.
    intros id Hid. lia.
  - cbn [length seq map run fold_left sessionStep callsFrom].
    destruct (Hpend 0%nat ev eq_refl) as (d & Ht). rewrite Nat.add_0_r in Ht.
    rewrite (fireTimer_note n st d ev Ht Hp Hs Hl).
    set (st1 := logAudio (mkAudioCall (Some n) (midi ev) (duration ev))
                  (setTimers (playbackTimers st) (delete n (timers st))
                     (nextTimerId st) st)).
    assert (F : isPlaying st1 = isPlaying st /\ pianoSampler st1 = pianoSampler st
                /\ samplerLoaded st1 = samplerLoaded st
                /\ timers st1 = delete n (timers st)
                /\ audioLog st1 = audioLog st
                                  ++ [mkAudioCall (Some n) (midi ev) (duration ev)]
                /\ noteEvents st1 = noteEvents st
                /\ phraseStart st1 = phraseStart st
                /\ pendingStarts st1 = pendingStarts st).
    { unfold st1. open_session st. repeat split. }
    destruct F as (F1 & F2 & F3 & F4 & F5 & F6 & F7 & F8).
    assert (Hpend1 : notesPending (S n) evs st1).
    { intros i e Hi. destruct (Hpend (S i) e Hi) as (d' & Hd').
      exists d'. rewrite F4, lookup_delete_ne by lia.
      replace (S n + i)%nat with (n + S i)%nat by lia. exact Hd'. }
    specialize (IH (S n) st1 ltac:(congruence) ltac:(congruence) ltac:(congruence) Hpend1).
    cbv zeta in IH. unfold run in IH.
    destruct IH as (I1 & I2 & I3 & I4 & I5 & I6 & I7).
    split; [rewrite I1, F5, <- app_assoc; reflexivity|].
    split; [exact I2|].
    split; [|split; [|split; [congruence | split; congruence]]].
    + intros id Hid. rewrite I3 by lia. rewrite F4. apply lookup_delete_ne. lia.
    + intros id Hid. destruct (Nat.eq_dec id n) as [-> | Hne].
      * rewrite I3 by lia. rewrite F4. apply lookup_delete_eq.
      * apply I4. lia.
Qed.

(** X16: after playback has started, letting the note triggers fire in
    their order makes exactly one backend call per event of the phrase, in
    phrase order, with the pitch and the duration of the event; afterwards
    the session is still Playing and only the loop restart is pending. *)
Theorem X16_playback_sounds_the_phrase (now : Z) (st : Session) :
  reachable st ->
  pianoSampler st = true -> samplerLoaded st = true ->
  let n := nextTimerId st in
  let len := length (noteEvents st) in
  let st' := run (startPlayback now st) (map TimerFired (seq n len)) in
  audioLog st' = audioLog st ++ callsFrom n (noteEvents st)
  /\ isPlaying st' = true
  /\ (forall id, is_Some (timers st' !! id) <-> id = (n + len)%nat)
  /\ (exists d, timers st' !! (n + len)%nat = Some (mkTimer d LoopRestart)).
Proof.
  intros Hr Hs Hl n len st'.
  pose proof (reachable_wellFormed st Hr) as Hwf.
  pose proof (startPlayback_ready now st Hwf Hs Hl) as Hst.
  set (st1 := startPlayback now st) in *.
  assert (F : isPlaying st1 = true /\ pianoSampler st1 = true
              /\ samplerLoaded st1 = true
              /\ timers st1 = registerFrom n (scheduleOf st) ∅
              /\ audioLog st1 = audioLog st).
  { rewrite Hst. unfold n. clear Hst. open_session st.
    cbn [pianoSampler samplerLoaded] in Hs, Hl. subst. repeat split. }
  destruct F as (F1 & F2 & F3 & F4 & F5).
  assert (Hlen : length (scheduleOf st) = (len + 1)%nat).
  { unfold scheduleOf, noteTimers, len. rewrite length_app, length_map. reflexivity. }
  assert (Hpend : notesPending n (noteEvents st) st1).
  { intros i ev Hi. eexists. rewrite F4, registerFrom_lookup, Hlen.
    assert (Hlt : (i < len)%nat).
    { apply nth_error_Some. rewrite Hi. discriminate. }
    destruct (Nat.leb_spec n (n + i)), (Nat.ltb_spec (n + i) (n + (len + 1))); try lia.
    cbn [andb]. replace (n + i - n)%nat with i by lia.
    unfold scheduleOf, noteTimers. rewrite nth_error_app1 by (rewrite length_map; lia).
    rewrite nth_error_map, Hi. reflexivity. }
  destruct (fire_notes_in_order (noteEvents st) n st1 F1 F2 F3 Hpend)
    as (I1 & I2 & I3 & I4 & _).
  fold len in I1, I3, I4. fold st' in I1, I2, I3, I4.
  assert (Hloop : timers st1 !! (n + len)%nat
                  = Some (mkTimer (phraseDuration st * F64.ofZ 1000 + F64.ofZ 50)%f64
                            LoopRestart)).
  { rewrite F4, registerFrom_lookup, Hlen.
    destruct (Nat.leb_spec n (n + len)), (Nat.ltb_spec (n + len) (n + (len + 1))); try lia.
    cbn [andb]. replace (n + len - n)%nat with len by lia.
    unfold scheduleOf, noteTimers.
    rewrite nth_error_app2 by (rewrite length_map; fold len; lia).
    rewrite length_map. fold len. rewrite Nat.sub_diag. reflexivity. }
  split; [rewrite I1, F5; reflexivity|]. split; [exact I2|]. split.
  - intros id. split.
    + intros Hsome.
      destruct (Nat.lt_ge_cases id n) as [Hlt | Hge].
      * rewrite I3 in Hsome by lia. rewrite F4, registerFrom_lookup, Hlen in Hsome.
        destruct (Nat.leb_spec n id); [lia|]. cbn [andb] in Hsome.
        rewrite lookup_empty in Hsome. destruct Hsome as [x Hx]. discriminate Hx.
      * destruct (Nat.lt_ge_cases id (n + len)%nat) as [Hlt | Hge2].
        -- rewrite I4 in Hsome by lia. destruct Hsome as [x Hx]. discriminate Hx.
        -- destruct (Nat.eq_dec id (n + len)%nat) as [-> | Hne]; [reflexivity|].
           rewrite I3 in Hsome by lia. rewrite F4, registerFrom_lookup, Hlen in Hsome.
           destruct (Nat.ltb_spec id (n + (len + 1))%nat); [lia|].
           rewrite andb_false_r in Hsome.
           rewrite lookup_empty in Hsome. destruct Hsome as [x Hx]. discriminate Hx.
    + intros ->. rewrite I3 by lia. rewrite Hloop. eexists. reflexivity.
  - eexists. rewrite I3 by lia. exact Hloop.
Qed.

Lemma X16_playback_sounds_witness :
  let st := run (mountedSession sevenths) [AudioEnsured; SamplerLoadedEv] in
  audioLog (run (startPlayback 1000 st)
              (map TimerFired (seq (nextTimerId st) (length (noteEvents st)))))
  = audioLog st ++ callsFrom (nextTimerId st) (noteEvents st).
Proof.
  assert (Hr : reachable (run (mountedSession sevenths) [AudioEnsured; SamplerLoadedEv])).
  { exists sevenths, [AudioEnsured; SamplerLoadedEv]. reflexivity. }
  assert (Hs : pianoSampler (run (mountedSession sevenths) [AudioEnsured; SamplerLoadedEv]) = true)
    by (vm_compute; reflexivity).
  assert (Hl : samplerLoaded (run (mountedSession sevenths) [AudioEnsured; SamplerLoadedEv]) = true)
    by (vm_compute; reflexivity).
  exact (proj1 (X16_playback_sounds_the_phrase 1000 _ Hr Hs Hl)).
Defined.

(** ** Playback cycles *)

Lemma ready_start_frame (now : Z) (st : Session) :
  wellFormed st -> pianoSampler st = true -> samplerLoaded st = true ->
  let st1 := startPlayback now st in
  isPlaying st1 = true /\ pianoSampler st1 = true /\ samplerLoaded st1 = true
  /\ phraseStart st1 = now
  /\ timers st1 = registerFrom (nextTimerId st) (scheduleOf st) ∅
  /\ audioLog st1 = audioLog st
  /\ noteEvents st1 = noteEvents st
  /\ rng st1 = rng st
  /\ pendingStarts st1 = pendingStarts st
  /\ (selectedMode st1, selectedMeter st1, bpm st1, difficulty st1)
     = (selectedMode st, selectedMeter st, bpm st, difficulty st).
Proof.
  intros Hwf Hs Hl st1. unfold st1.
  rewrite (startPlayback_ready now st Hwf Hs Hl).
  open_session st. cbn [pianoSampler samplerLoaded] in Hs, Hl. subst.
  repeat split.
Qed.

Lemma schedule_pending (n : nat) (st : Session) (ts : gmap nat Timer) :
  ts = registerFrom n (scheduleOf st) ∅ ->
  (forall i ev, nth_error (noteEvents st) i = Some ev ->
     ts !! (n + i)%nat = Some (mkTimer (time ev * F64.ofZ 1000)%f64 (NoteTrigger ev)))
  /\ ts !! (n + length (noteEvents st))%nat
     = Some (mkTimer (phraseDuration st * F64.ofZ 1000 + F64.ofZ 50)%f64 LoopRestart).
Proof.
  intros ->.
  assert (Hlen : length (scheduleOf st) = (length (noteEvents st) + 1)%nat).
  { unfold scheduleOf, noteTimers. rewrite length_app, length_map. reflexivity. }
  split.
  - intros i ev Hi. rewrite registerFrom_lookup, Hlen.
    assert (Hlt : (i < length (noteEvents st))%nat).
    { apply nth_error_Some. rewrite Hi. discriminate. }
    destruct (Nat.leb_spec n (n + i)%nat),
             (Nat.ltb_spec (n + i)%nat (n + (length (noteEvents st) + 1))%nat);
      try lia.
    cbn [andb]. replace (n + i - n)%nat with i by lia.
    unfold scheduleOf, noteTimers. rewrite nth_error_app1 by (rewrite length_map; lia).
    rewrite nth_error_map, Hi. reflexivity.
  - rewrite registerFrom_lookup, Hlen.
    destruct (Nat.leb_spec n (n + length (noteEvents st))%nat),
             (Nat.ltb_spec (n + length (noteEvents st))%nat
                (n + (length (noteEvents st) + 1))%nat); try lia.
    cbn [andb].
    replace (n + length (noteEvents st) - n)%nat with (length (noteEvents st)) by lia.
    unfold scheduleOf, noteTimers.
    rewrite nth_error_app2 by (rewrite length_map; lia).
    rewrite length_map, Nat.sub_diag. reflexivity.
Qed.

Lemma setParams_params (m : Mode) (mt : Meter) (b : Z) (d : Difficulty)
    (st : Session) :
  (selectedMode (setParams m mt b d st), selectedMeter (setParams m mt b d st),
   bpm (setParams m mt b d st), difficulty (setParams m mt b d st))
  = (m, mt, b, d).
Proof. open_session st. reflexivity. Qed.

(** X17: a parameter change during playback does not change what is
    heard.  The triggers scheduled at the start still sound the phrase that
    was current then, event by event, while [noteEvents] (the score and the
    keyboard highlights) already holds the regenerated phrase when the
    change gave the parameter a new value; a write of the value it had
    leaves the phrase as it was. *)
Theorem X17_parameter_change_keeps_sounding_old_phrase
    (now : Z) (c : ParamChange) (st : Session) :
  reachable st ->
  pianoSampler st = true -> samplerLoaded st = true ->
  let n := nextTimerId st in
  let old := noteEvents st in
  let written := applyParam c st in
  let st' := run (startPlayback now st)
               (ParamChanged c :: map TimerFired (seq n (length old))) in
  audioLog st' = audioLog st ++ callsFrom n old
  /\ noteEvents st'
     = (if changesValue c st
        then fst (generateEvents (selectedMode written) (selectedMeter written)
                    (bpm written) (difficulty written) (rng st))
        else old)
  /\ isPlaying st' = true
  /\ phraseStart st' = now.
Proof.
  intros Hr Hs Hl n old written st'.
  pose proof (reachable_wellFormed st Hr) as Hwf.
  destruct (ready_start_frame now st Hwf Hs Hl)
    as (F1 & F2 & F3 & F4 & F5 & F6 & F7 & F8 & F9 & F10).
  set (st1 := startPlayback now st) in *.
  set (st2 := paramChange c st1).
  assert (G : isPlaying st2 = isPlaying st1 /\ pianoSampler st2 = pianoSampler st1
              /\ samplerLoaded st2 = samplerLoaded st1
              /\ timers st2 = timers st1 /\ audioLog st2 = audioLog st1
              /\ phraseStart st2 = phraseStart st1
              /\ noteEvents st2
                 = (if changesValue c st1
                    then fst (generateEvents (selectedMode (applyParam c st1))
                                (selectedMeter (applyParam c st1))
                                (bpm (applyParam c st1))
                                (difficulty (applyParam c st1)) (rng st1))
                    else noteEvents st1)).
  { unfold st2, paramChange, onParamsChanged, generatePhrase. cbv zeta.
    destruct (changesValue c st1); destruct c; open_session st1; repeat split. }
  assert (Hcv : changesValue c st1 = changesValue c st).
  { assert (M1 : selectedMode st1 = selectedMode st) by congruence.
    assert (M2 : selectedMeter st1 = selectedMeter st) by congruence.
    assert (M3 : bpm st1 = bpm st) by congruence.
    assert (M4 : difficulty st1 = difficulty st) by congruence.
    destruct c; cbn [changesValue]; congruence. }
  destruct G as (G1 & G2 & G3 & G4 & G5 & G6 & G7).
  assert (Hparams : (selectedMode (applyParam c st1), selectedMeter (applyParam c st1),
                     bpm (applyParam c st1), difficulty (applyParam c st1))
                    = (selectedMode written, selectedMeter written,
                       bpm written, difficulty written)).
  { unfold written.
    destruct c; cbn [applyParam]; rewrite !setParams_params; congruence. }
  assert (Hpend : notesPending n old st2).
  { intros i ev Hi. eexists. rewrite G4, F5.
    apply (proj1 (schedule_pending n st _ eq_refl) i ev Hi). }
  destruct (fire_notes_in_order old n st2 ltac:(congruence) ltac:(congruence)
              ltac:(congruence) Hpend) as (I1 & I2 & _ & _ & I5 & I6 & _).
  change (run st2 (map TimerFired (seq n (length old)))) with st' in I1, I2, I5, I6.
  split; [rewrite I1, G5, F6; reflexivity|].
  split; [|split; [exact I2 | congruence]].
  rewrite I5, G7, Hcv, F7, F8. fold old.
  destruct (changesValue c st); [|reflexivity].
  clear -Hparams. congruence.
Qed.

Lemma X17_parameter_change_witness :
  let st := run (mountedSession sevenths) [AudioEnsured; SamplerLoadedEv] in
  let st' := run (startPlayback 1000 st)
               (ParamChanged (SetBpm 120)
                :: map TimerFired (seq (nextTimerId st) (length (noteEvents st)))) in
  audioLog st' = audioLog st ++ callsFrom (nextTimerId st) (noteEvents st)
  /\ noteEvents st'
     = fst (generateEvents C_MAJOR Meter_4_4 120 D1 (rng st)).
Proof.
  assert (Hr : reachable (run (mountedSession sevenths) [AudioEnsured; SamplerLoadedEv])).
  { exists sevenths, [AudioEnsured; SamplerLoadedEv]. reflexivity. }
  assert (Hs : pianoSampler (run (mountedSession sevenths) [AudioEnsured; SamplerLoadedEv]) = true)
    by (vm_compute; reflexivity).
  assert (Hl : samplerLoaded (run (mountedSession sevenths) [AudioEnsured; SamplerLoadedEv]) = true)
    by (vm_compute; reflexivity).
  pose proof (X17_parameter_change_keeps_sounding_old_phrase
                1000 (SetBpm 120) _ Hr Hs Hl) as H.
  cbv zeta in H. destruct H as (H1 & H2 & _).
  cbv zeta. split; [exact H1|].
  rewrite H2. vm_compute. reflexivity.
Defined.

(** What firing the pending loop timer does while Playing. *)
Lemma fireTimer_loop (id : nat) (st : Session) (d : F64.float) :
  timers st !! id = Some (mkTimer d LoopRestart) ->
  isPlaying st = true ->
  let st1 := fireTimer id st in
  noteEvents st1 = fst (generateEvents (selectedMode st) (selectedMeter st) (bpm st)
                          (difficulty st) (rng st))
  /\ rng st1 = snd (generateEvents (selectedMode st) (selectedMeter st) (bpm st)
                      (difficulty st) (rng st))
  /\ pendingStarts st1 = S (pendingStarts st)
  /\ timers st1 = delete id (timers st)
  /\ playbackTimers st1 = playbackTimers st
  /\ nextTimerId st1 = nextTimerId st
  /\ isPlaying st1 = true
  /\ pianoSampler st1 = pianoSampler st
  /\ samplerLoaded st1 = samplerLoaded st
  /\ audioLog st1 = audioLog st
  /\ phraseStart st1 = phraseStart st
  /\ (selectedMode st1, selectedMeter st1, bpm st1, difficulty st1)
     = (selectedMode st, selectedMeter st, bpm st, difficulty st).
Proof.
  intros Ht Hp st1. unfold st1, fireTimer. rewrite Ht. cbn [timerCallback].
  unfold generatePhrase.
  open_session st. cbn [isPlaying] in Hp. subst. repeat split.
Qed.

(** X18: the loop.  When the loop timer fires during playback, a new
    phrase is drawn from the current parameters and the next draws of the
    generator, and once the pending start resumes at [now'] the new phrase
    is scheduled in full under fresh timer ids, the phrase clock is reset to
    [now'], and the session is still Playing; no sound is made by the
    restart itself. *)
Theorem X18_loop_restart_plays_a_new_phrase
    (id : nat) (d : F64.float) (now' : Z) (st : Session) :
  reachable st ->
  isPlaying st = true ->
  pianoSampler st = true -> samplerLoaded st = true ->
  timers st !! id = Some (mkTimer d LoopRestart) ->
  let st' := run st [TimerFired id; StartResumed now'] in
  let n := nextTimerId st in
  let r := generateEvents (selectedMode st) (selectedMeter st) (bpm st)
             (difficulty st) (rng st) in
  noteEvents st' = fst r
  /\ rng st' = snd r
  /\ isPlaying st' = true
  /\ phraseStart st' = now'
  /\ pendingStarts st' = pendingStarts st
  /\ audioLog st' = audioLog st
  /\ (forall i ev, nth_error (fst r) i = Some ev ->
        timers st' !! (n + i)%nat
        = Some (mkTimer (time ev * F64.ofZ 1000)%f64 (NoteTrigger ev)))
  /\ timers st' !! (n + length (fst r))%nat
     = Some (mkTimer (phraseDuration st * F64.ofZ 1000 + F64.ofZ 50)%f64 LoopRestart)
  /\ (forall id', (id' < n)%nat -> timers st' !! id' = None).
Proof.
  intros Hr Hp Hs Hl Ht st' n r.
  pose proof (reachable_wellFormed st Hr) as Hwf.
  destruct (fireTimer_loop id st d Ht Hp)
    as (L1 & L2 & L3 & L4 & L5 & L6 & L7 & L8 & L9 & L10 & L11 & L12).
  assert (Hwf1 : wellFormed (fireTimer id st)).
  { exact (wellFormed_step st (TimerFired id) Hwf). }
  set (st1 := fireTimer id st) in *.
  set (st2 := setPendingStarts (pendingStarts st) st1).
  assert (Hst' : st' = startPlayback now' st2).
  { unfold st', run. cbn [fold_left sessionStep]. fold st1. rewrite L3. reflexivity. }
  assert (S2 : wellFormed st2 /\ pianoSampler st2 = true /\ samplerLoaded st2 = true
               /\ noteEvents st2 = fst r /\ rng st2 = snd r
               /\ nextTimerId st2 = n /\ audioLog st2 = audioLog st
               /\ pendingStarts st2 = pendingStarts st
               /\ phraseDuration st2 = phraseDuration st).
  { unfold st2. clearbody st1. unfold wellFormed, phraseDuration in *.
    open_session st1.
    cbn [setPendingStarts timers playbackTimers nextTimerId isPlaying samplerLoaded
           pianoSampler noteEvents rng audioLog pendingStarts selectedMeter bpm
           selectedMode difficulty] in *.
    subst. repeat split; try tauto; try congruence. }
  destruct S2 as (W2 & P2 & Q2 & N2 & R2 & T2 & A2 & D2 & U2).
  destruct (ready_start_frame now' st2 W2 P2 Q2)
    as (F1 & _ & _ & F4 & F5 & F6 & F7 & F8 & F9 & _).
  rewrite <- Hst' in F1, F4, F5, F6, F7, F8, F9.
  destruct (schedule_pending (nextTimerId st2) st2 _ F5) as (K1 & K2).
  rewrite T2, N2 in K1, K2. rewrite U2 in K2.
  split; [congruence|]. split; [congruence|]. split; [exact F1|].
  split; [exact F4|]. split; [congruence|]. split; [congruence|].
  split; [exact K1|]. split; [exact K2|].
  intros id' Hlt. rewrite F5, registerFrom_lookup, T2.
  destruct (Nat.leb_spec n id'); [lia|]. cbn [andb]. apply lookup_empty.
Qed.

Lemma X18_loop_restart_witness :
  isPlaying (run playingSession
               [TimerFired (nextTimerId playingSession - 1); StartResumed 9000]) = true.
Proof.
  assert (Hr : reachable playingSession).
  { exists sevenths, [AudioEnsured; SamplerLoadedEv; StartCalled; StartResumed 1000]. reflexivity. }
  assert (Hp : isPlaying playingSession = true) by (vm_compute; reflexivity).
  assert (Hs : pianoSampler playingSession = true) by (vm_compute; reflexivity).
  assert (Hl : samplerLoaded playingSession = true) by (vm_compute; reflexivity).
  assert (Ht : timers playingSession !! (nextTimerId playingSession - 1)%nat
               = Some (mkTimer (phraseDuration playingSession * F64.ofZ 1000
                                + F64.ofZ 50)%f64 LoopRestart))
    by (vm_compute; reflexivity).
  exact (proj1 (proj2 (proj2 (X18_loop_restart_plays_a_new_phrase
                                _ _ 9000 playingSession Hr Hp Hs Hl Ht)))).
Defined.

(** ** Invariants of the session *)

Lemma fireTimer_flags (id : nat) (st : Session) :
  pianoSampler (fireTimer id st) = pianoSampler st
  /\ samplerLoaded (fireTimer id st) = samplerLoaded st
  /\ isPlaying (fireTimer id st) = isPlaying st
  /\ (audioLog (fireTimer id st) = audioLog st
      \/ (samplerLoaded st = true /\ isPlaying st = true)).
Proof.
  unfold fireTimer. destruct (timers st !! id) as [t|]; [|tauto].
  destruct (timerCallback t) as [ev|]; unfold generatePhrase;
    open_session st;
    cbn [setTimers pianoSampler samplerLoaded isPlaying negb orb];
    destruct s_sampler, s_loaded, s_playing; cbn; tauto.
Qed.

Lemma ensureAudio_flags (st : Session) :
  samplerLoaded (ensureAudio st) = samplerLoaded st
  /\ audioLog (ensureAudio st) = audioLog st
  /\ isPlaying (ensureAudio st) = isPlaying st.
Proof.
  unfold ensureAudio. destruct (pianoSampler st); [tauto|].
  open_session st. repeat split.
Qed.

Lemma step_flags (st : Session) (e : Event) :
  wellFormed st ->
  (samplerLoaded st = true -> samplerLoaded (sessionStep st e) = true)
  /\ (samplerLoaded (sessionStep st e) = false ->
      audioLog (sessionStep st e) = audioLog st
      /\ (isPlaying st = false -> isPlaying (sessionStep st e) = false)).
Proof.
  intros Hwf.
  destruct e as [ | | now | | | id | c | now | m]; cbn [sessionStep].
  - destruct (ensureAudio_flags st) as (E1 & E2 & E3).
    split; [congruence|]. intros _. split; [exact E2 | congruence].
  - open_session st. repeat split; tauto.
  - destruct (pendingStarts st) as [|n] eqn:Hn; [tauto|].
    set (s := setPendingStarts n st).
    assert (Hs' : wellFormed s
                  /\ samplerLoaded s = samplerLoaded st
                  /\ audioLog s = audioLog st /\ isPlaying s = isPlaying st).
    { unfold s, wellFormed in *. clear Hn. open_session st.
      cbn [setPendingStarts timers playbackTimers nextTimerId isPlaying
             samplerLoaded pianoSampler audioLog] in *. tauto. }
    destruct Hs' as (W & L & A & I).
    destruct (samplerLoaded s) eqn:Hl.
    + assert (P : pianoSampler s = true) by (apply W; exact Hl).
      destruct (ready_start_frame now s W P Hl) as (_ & _ & F3 & _).
      split; [intros _; exact F3|].
      intros Hf. rewrite F3 in Hf. discriminate Hf.
    + destruct (ensureAudio_flags s) as (E1 & E2 & E3).
      assert (E : startPlayback now s = ensureAudio s).
      { unfold startPlayback. rewrite E1, Hl. cbn [negb].
        rewrite orb_true_r. reflexivity. }
      rewrite E. split; [congruence|].
      intros _. split; congruence.
  - unfold stopPlayback, clearPlayback. open_session st. repeat split; tauto.
  - unfold samplerOnload. destruct (pianoSampler st); [|tauto].
    open_session st.
    cbn [setAudio pianoSampler samplerLoaded audioLog isPlaying].
    split; [reflexivity|]. intros Hf. discriminate Hf.
  - destruct (fireTimer_flags id st) as (F1 & F2 & F3 & F4).
    split; [congruence|].
    intros Hf. split; [|congruence].
    destruct F4 as [F4 | [F4 _]]; [exact F4 | congruence].
  - unfold paramChange, onParamsChanged, generatePhrase. cbv zeta.
    destruct (changesValue c st); destruct c; open_session st; repeat split; tauto.
  - unfold updateActiveNotes, updateProgress. open_session st.
    destruct s_playing; repeat split; tauto.
  - destruct (ensureAudio_flags st) as (E1 & E2 & E3).
    unfold playMidiOnce.
    destruct (negb (pianoSampler (ensureAudio st))
              || negb (samplerLoaded (ensureAudio st))) eqn:Hc.
    + split; [congruence|]. intros _. split; congruence.
    + apply orb_false_iff in Hc as (_ & Hc). apply negb_false_iff in Hc.
      assert (Hlog : samplerLoaded
                       (logAudio (mkAudioCall None m (F64.ofDecimal 6 10))
                          (ensureAudio st)) = true).
      { destruct (ensureAudio st); exact Hc. }
      split; [intros _; exact Hlog|].
      intros Hf. rewrite Hlog in Hf. discriminate Hf.
Qed.

Lemma run_before_loaded (tr : list Event) :
  forall st,
    wellFormed st ->
    (samplerLoaded st = false -> audioLog st = [] /\ isPlaying st = false) ->
    samplerLoaded (run st tr) = false ->
    audioLog (run st tr) = [] /\ isPlaying (run st tr) = false.
Proof.
  unfold run. induction tr as [|e tr IH]; intros st Hwf Hq; cbn [fold_left].
  - exact Hq.
  - destruct (step_flags st e Hwf) as (S2 & S3).
    apply IH; [apply wellFormed_step, Hwf |].
    intros Hf. destruct (S3 Hf) as (A & I).
    destruct (samplerLoaded st) eqn:Hl.
    + rewrite S2 in Hf by reflexivity. discriminate Hf.
    + destruct (Hq eq_refl) as (Q1 & Q2). split; [congruence | exact (I Q2)].
Qed.

(** X19: nothing sounds before the samples are loaded.  In every state the
    component can reach, as long as the samples have not loaded, the
    backend has never been called (not by a key of the keyboard either),
    the session is Idle and no timer is pending; and once the samples are
    loaded, they stay loaded whatever happens next. *)
Theorem X19_no_sound_before_samples_loaded (st : Session) :
  reachable st ->
  (samplerLoaded st = false ->
   audioLog st = [] /\ isPlaying st = false /\ timers st = ∅)
  /\ (forall e, samplerLoaded st = true -> samplerLoaded (sessionStep st e) = true).
Proof.
  intros Hr. pose proof (reachable_wellFormed st Hr) as Hwf.
  destruct Hr as (g & tr & ->).
  assert (Q := run_before_loaded tr (mountedSession g) (wellFormed_mounted g)
                 (fun _ => conj eq_refl eq_refl)).
  split.
  - intros Hf. destruct (Q Hf) as (A & I). split; [exact A|]. split; [exact I|].
    destruct Hwf as (W1 & _ & W3 & _).
    apply map_eq. intros id. rewrite lookup_empty.
    destruct (timers (run (mountedSession g) tr) !! id) eqn:Hid; [|reflexivity].
    exfalso. assert (Hin : In id (playbackTimers (run (mountedSession g) tr))).
    { apply W1. rewrite Hid. eexists. reflexivity. }
    rewrite (W3 I) in Hin. destruct Hin.
  - intros e. exact (proj1 (step_flags _ e Hwf)).
Qed.

Lemma X19_no_sound_witness :
  audioLog (run (mountedSession sevenths) [StartCalled; StartResumed 1000; KeyDown 60])
  = [].
Proof.
  assert (Hr : reachable (run (mountedSession sevenths)
                            [StartCalled; StartResumed 1000; KeyDown 60])).
  { exists sevenths, [StartCalled; StartResumed 1000; KeyDown 60]. reflexivity. }
  assert (Hl : samplerLoaded (run (mountedSession sevenths)
                                [StartCalled; StartResumed 1000; KeyDown 60]) = false)
    by (vm_compute; reflexivity).
  exact (proj1 (proj1 (X19_no_sound_before_samples_loaded _ Hr) Hl)).
Defined.

(** X20: while the session is Idle nothing is scheduled.  In every
    reachable Idle state no timer is pending and none is listed, so a late
    timer event changes nothing; a frame leaves no key highlighted,
    whatever the clock says; and stopping again changes nothing. *)
Theorem X20_idle_has_nothing_pending (st : Session) :
  reachable st ->
  isPlaying st = false ->
  timers st = ∅
  /\ playbackTimers st = []
  /\ (forall id, sessionStep st (TimerFired id) = st)
  /\ (forall now, activeMidiSet (sessionStep st (Frame now)) = ∅)
  /\ stopPlayback st = st.
Proof.
  intros Hr Hp. destruct (reachable_wellFormed st Hr) as (W1 & _ & W3 & _).
  assert (Ht : timers st = ∅).
  { apply map_eq. intros id. rewrite lookup_empty.
    destruct (timers st !! id) eqn:Hid; [|reflexivity].
    exfalso. assert (Hin : In id (playbackTimers st)).
    { apply W1. rewrite Hid. eexists. reflexivity. }
    rewrite (W3 Hp) in Hin. destruct Hin. }
  split; [exact Ht|]. split; [exact (W3 Hp)|]. split; [|split].
  - intros id. cbn [sessionStep]. unfold fireTimer. rewrite Ht, lookup_empty.
    reflexivity.
  - intros now. cbn [sessionStep]. rewrite Hp. unfold updateActiveNotes.
    rewrite Hp. cbn [negb]. open_session st. reflexivity.
  - unfold stopPlayback, clearPlayback. pose proof (W3 Hp) as Hids. clear W1 W3.
    open_session st.
    cbn [isPlaying timers playbackTimers setPlayback setTimers nextTimerId
           phraseStart selectedMode selectedMeter bpm difficulty noteEvents
           activeMidiSet progress pianoSampler samplerLoaded rng pendingStarts
           audioLog] in *.
    subst. reflexivity.
Qed.

Lemma X20_idle_witness :
  timers (run playingSession [StopCalled]) = ∅.
Proof.
  assert (Hr : reachable (run playingSession [StopCalled])).
  { exists sevenths, [AudioEnsured; SamplerLoadedEv; StartCalled; StartResumed 1000; StopCalled].
    reflexivity. }
  assert (Hp : isPlaying (run playingSession [StopCalled]) = false)
    by (vm_compute; reflexivity).
  exact (proj1 (X20_idle_has_nothing_pending _ Hr Hp)).
Defined.

(** ** Generated phrases and the keyboard *)

Lemma PIANO_KEYS_midis : map keyMidi PIANO_KEYS = seqZ 21 88.
Proof. vm_compute. reflexivity. Qed.

Lemma key_of_midi (m : Z) :
  21 <= m <= 108 -> exists k, In k PIANO_KEYS /\ keyMidi k = m.
Proof.
  intros Hm.
  assert (Hin : In m (map keyMidi PIANO_KEYS)).
  { rewrite PIANO_KEYS_midis. apply list_elem_of_In, elem_of_seqZ. lia. }
  apply in_map_iff in Hin as (k & Hk & Hin). exists k. split; assumption.
Qed.

(** X21: every pitch of a generated phrase is a key of the on-screen
    keyboard, so it can be highlighted, and has a spelling, so the encoder
    does not throw on it.  Treble pitches lie in [60, 84] and bass pitches
    in [36, 66]; the octaves written in the score are 2 to 6. *)
Theorem X21_generated_pitches_are_keys (mode : Mode) (bpm0 : Z) (diff : Difficulty)
    (g : Rng) :
  unitDraws g ->
  forall e, In e (fst (generateEvents mode Meter_4_4 bpm0 diff g)) ->
    (if isTreble e then 60 <= midi e <= 84 else 36 <= midi e <= 66)
    /\ (exists k, In k PIANO_KEYS /\ keyMidi k = midi e)
    /\ (exists xp, midiToXmlPitch (midi e) = Some xp /\ 2 <= octave xp <= 6).
Proof.
  intros Hu e He.
  destruct (generateEvents_shape mode bpm0 diff g) as (groups & Hg & Hs).
  rewrite Hg in He.
  destruct (shape_event_of_beat _ _ _ _ _ _ Hs e He) as (k & grp & _ & Hb & Hin).
  assert (Hrange : if isTreble e then 60 <= midi e <= 84 else 36 <= midi e <= 66).
  { destruct (BeatShape_event _ _ _ _ _ _ _ Hb Hin)
      as [(p & Hp & ->) | (_ & root & m & Hr & Hm & ->)].
    - cbn. apply (drawnFrom_range (draws g) 60 84 p Hu); [lia | exact Hp].
    - cbn. unfold triads in Hr. unfold buildChord in Hm.
      destruct Hr as [<- | [<- | [<- | []]]]; destruct diff; cbn in Hm;
        repeat (destruct Hm as [<- | Hm]; [lia|]); destruct Hm. }
  assert (Hm : 36 <= midi e <= 84).
  { destruct (isTreble e); lia. }
  split; [exact Hrange|]. split; [apply key_of_midi; lia|].
  destruct (midiToXmlPitch_total (midi e)) as (xp & Hxp); [lia|].
  exists xp. split; [exact Hxp|].
  unfold midiToXmlPitch in Hxp.
  destruct (nth_error names (Z.to_nat (pitchClass (midi e)))) as [[s a]|];
    [|destruct (pitchClass (midi e) <? 0); discriminate Hxp].
  destruct (pitchClass (midi e) <? 0); [discriminate Hxp|].
  injection Hxp as <-. cbn [octave].
  assert (3 <= midi e / 12 <= 7).
  { split; [apply Z.div_le_lower_bound | apply Z.div_le_upper_bound]; lia. }
  lia.
Qed.

Lemma X21_generated_pitches_witness :
  exists k, In k PIANO_KEYS
            /\ keyMidi k
               = midi (hd (mkNoteEvent F64.zero F64.one 60 treble false)
                         (fst (generateEvents C_MAJOR Meter_4_4 100 D1 sevenths))).
Proof.
  refine (proj1 (proj2 (X21_generated_pitches_are_keys C_MAJOR 100 D1 sevenths
                          sevenths_unitDraws _ _))).
  vm_compute. left. reflexivity.
Defined.

(** ** Stopping *)


